(** * The goscheme evaluator (eval.go): trampolined Eval, special forms,
      closures and environments, embedded as executable definitions.

    The Go code works on [Expression = interface{}] values, panics for fatal
    errors, mutates heap-allocated environment frames through pointers and
    loops inside [Eval] for tail positions.  The embedding keeps that shape:

    - [Expression] is an inductive with one constructor per dynamic Go type
      the evaluator inspects;
    - a panic is the [Panic] result of a small state-and-error monad [M];
    - environment frames live in a store ([heap]) addressed by [EnvRef], so
      closures share frames exactly as the pointers do;
    - a builtin is what it does when called ([Native]): it prints, returns
      or fails, and can call back into [Eval], as forcing a promise does;
    - [Eval] is the loop of the source: one iteration is [body], which
      either returns or hands back the next expression and environment.
      [fuel] bounds the number of iterations and nested calls (the model's
      only source of partiality), [stack] is the number of nested [Eval]
      activations the host stack can still hold. *)

From Stdlib Require Import String Ascii ZArith Lia Bool List.
From stdpp Require Import base option list gmap strings.
Import ListNotations.
Local Open Scope string_scope.
Set Warnings "-register-all".

(** ** Data model *)

Definition Symbol := string.

(** A [*Env] pointer: the index of the frame in the store. *)
Definition EnvRef := nat.

(** The dynamic types an [Expression] interface value takes in eval.go.
    [ETok] is a Go [string], the raw token the parser leaves in the tree;
    [ECompound] is [[]Expression]; [EPair] is [*Pair]; [EFunction] is a
    host-native [Function], named by the builtin it stands for;
    [ELambda] is [*LambdaProcess]; [ENil] is the nil interface. *)
Inductive Expression {Number : Type} : Type :=
| ENil
| ENilObj
| EUndef
| ETok (s : string)
| ENumber (n : Number)
| EBool (b : bool)
| EString (s : string)
| EQuote (s : string)
| ECompound (es : list Expression)
| EPair (car cdr : Expression)
| EFunction (name : string)
| ELambda (params : list Symbol) (body : list Expression) (env : EnvRef)
| EThunk (e : Expression) (env : EnvRef).
Arguments Expression : clear implicits.

(** The values the code panics with.  [ErrText] carries the literal
    message of a [panic("...")]; [ErrIndex], [ErrSliceBounds] and
    [ErrTypeAssertion] are the Go run-time panics of an unguarded index,
    slice expression and type assertion. *)
Inductive Error {Number : Type} : Type :=
| ErrUnbound (s : Symbol)
| ErrText (msg : string)
| ErrArity (p : Expression Number) (want got : nat)
| ErrNotCallable (fn : Expression Number)
| ErrNotSymbol (s : Expression Number)
| ErrNotNumber (v : Expression Number)
| ErrParse (msg : string)
| ErrIndex
| ErrSliceBounds
| ErrTypeAssertion.
Arguments Error : clear implicits.

(** What a call leaves its caller with: a value, a panic, a host stack
    that is exhausted (fatal in Go, [recover] does not see it), or a model
    that ran out of fuel. *)
Inductive Res {Number : Type} (A : Type) : Type :=
| Ok (a : A)
| Panic (e : Error Number)
| StackOverflow
| OutOfFuel.
Arguments Res : clear implicits.
Arguments Ok {Number A} a.
Arguments Panic {Number A} e.
Arguments StackOverflow {Number A}.
Arguments OutOfFuel {Number A}.

(** Lines written to standard output. *)
Inductive Output {Number : Type} : Type :=
| OutPanic (e : Error Number)
| OutLoadFailed (path : string)
| OutText (s : string).
Arguments Output : clear implicits.

(** Modelled from the spec: what a call of a host-native [Function] does,
    seen from the evaluator.  The builtins are absent from eval.go; by the
    spec a builtin is invoked with the evaluated arguments and produces a
    value or fails, and the forcing collaborator calls back into [Eval]
    with a thunk's stored expression and environment.  So a call prints
    and then returns or fails, or it prints, calls [Eval] on an expression
    and an environment, and goes on from the value of that call. *)
Inductive Native {Number : Type} : Type :=
| Returns (printed : list (Output Number)) (r : Res Number (Expression Number))
| CallsEval (printed : list (Output Number)) (exp : Expression Number) (env : EnvRef)
            (next : Expression Number -> Native).
Arguments Native : clear implicits.

(** An environment frame: [Env{outer, frame}]. *)
Record Env {Number : Type} : Type := mkEnv {
  outer : option EnvRef;
  frame : gmap Symbol (Expression Number)
}.
Arguments Env : clear implicits.
Arguments mkEnv {Number} outer frame.

(** The mutable world of one interpreter run. *)
Record State {Number : Type} : Type := mkState {
  heap : list (Env Number);
  out : list (Output Number)
}.
Arguments State : clear implicits.
Arguments mkState {Number} heap out.

(** ** Collaborators outside eval.go

    The numeric type, the token classifiers, truthiness, the builtin
    procedures, the printer and parser used by [eval], and the file reader
    used by [load] are not part of eval.go; the evaluator is parametric in
    them. *)
Class Host : Type := {
  Number : Type;
  zero : Number;
  (** The value [strconv.ParseFloat(s, 64)] returns (its error is
      dropped by the caller). *)
  ParseFloat : string -> Number;
  IsNumberTok : string -> bool;
  IsBooleanTok : string -> bool;
  IsStringTok : string -> bool;
  IsSymbolTok : string -> bool;
  IsTrue : Expression Number -> bool;
  (** [Function.Call]: what the builtin of that name does on evaluated
      arguments. *)
  Call : string -> list (Expression Number) -> Native Number;
  valueToString : Expression Number -> string;
  Tokens : string -> list string;
  Parse : list string -> list (Expression Number) + string;
  (** Opening, tokenizing and parsing a source file; [None] when the file
      cannot be opened. *)
  ReadForms : string -> option (list (Expression Number))
}.

(** ** The evaluator *)

Section Evaluator.
Context `{host : Host}.

Abbreviation Expr := (Expression Number).
Abbreviation Err := (Error Number).
Abbreviation St := (State Number).
Abbreviation Result := (Res Number).

(** *** The state-and-panic monad *)

Definition M (A : Type) : Type := St -> Result A * St.

Definition ret {A} (a : A) : M A := fun st => (Ok a, st).

Definition panic {A} (e : Err) : M A := fun st => (Panic e, st).

Definition bind {A B} (m : M A) (k : A -> M B) : M B :=
  fun st =>
    match m st with
    | (Ok a, st') => k a st'
    | (Panic e, st') => (Panic e, st')
    | (StackOverflow, st') => (StackOverflow, st')
    | (OutOfFuel, st') => (OutOfFuel, st')
    end.

Notation "'let*' x ':=' m 'in' k" := (bind m (fun x => k))
  (at level 10, x name, m at level 100, k at level 200).

(** A call of [Eval] as the other functions see it. *)
Definition EvalFn : Type := Expr -> EnvRef -> M Expr.

(** [fmt.Println] and [fmt.Printf]. *)
Definition print (o : Output Number) : M unit :=
  fun st => (Ok tt, mkState (heap st) (out st ++ [o])).

(** [l[i]]: a run-time panic when [i] is out of range. *)
Definition index (l : list Expr) (i : nat) : M Expr :=
  match l !! i with
  | Some e => ret e
  | None => panic ErrIndex
  end.

(** [exp.([]Expression)] in its comma-ok form: the nil slice when the
    dynamic type is another one. *)
Definition asSlice (exp : Expr) : list Expr :=
  match exp with
  | ECompound es => es
  | _ => []
  end.

(** *** Environments *)

(** Modelled from the spec: [Env.Find], absent from eval.go.  Lookup walks
    outward through the [outer] links until a binding is found or the chain
    is exhausted.  A frame is allocated after the frame it links to, so a
    chain that starts at address [env] has at most [S env] frames. *)
Fixpoint Find_from (n : nat) (h : list (Env Number)) (env : EnvRef) (s : Symbol)
  : option Expr :=
  match n with
  | 0 => None
  | S n' =>
    match h !! env with
    | None => None
    | Some fr =>
      match frame fr !! s with
      | Some v => Some v
      | None =>
        match outer fr with
        | Some o => Find_from n' h o s
        | None => None
        end
      end
    end
  end.

Definition Find (env : EnvRef) (s : Symbol) : M Expr :=
  fun st =>
    match Find_from (S env) (heap st) env s with
    | Some v => (Ok v, st)
    | None => (Panic (ErrUnbound s), st)
    end.

(** Modelled from the spec: [Env.Set], absent from eval.go.  It always
    defines or overwrites in the current frame. *)
Definition EnvSet (env : EnvRef) (s : Symbol) (v : Expr) : M unit :=
  fun st =>
    (Ok tt,
     mkState (alter (fun fr => mkEnv (outer fr) (<[s := v]> (frame fr))) env (heap st))
             (out st)).

(** [&Env{outer: o, frame: make(map[Symbol]Expression)}]. *)
Definition allocEnv (o : EnvRef) : M EnvRef :=
  fun st => (Ok (length (heap st)), mkState (heap st ++ [mkEnv (Some o) ∅]) (out st)).

(** *** Classifiers and sentinels *)

(** Modelled from the spec: [Pair.IsNull], absent from eval.go: the null
    Pair is the cell with neither head nor tail. *)
Definition IsNull (car cdr : Expr) : bool :=
  match car, cdr with
  | ENil, ENil => true
  | _, _ => false
  end.

Definition isNullExp (exp : Expr) : bool :=
  match exp with
  | ENil => true
  | ENilObj => true
  | EPair car cdr => IsNull car cdr
  | ECompound e => match e with [] => true | _ => false end
  | _ => false
  end.

(** Modelled from the spec: [isUndefObj], absent from eval.go: the test
    for the unspecified sentinel. *)
Definition isUndefObj (exp : Expr) : bool :=
  match exp with
  | EUndef => true
  | _ => false
  end.

(** Modelled from the spec: [IsNumber], [IsBoolean], [IsString] and
    [IsSymbol], absent from eval.go.  They classify raw tokens; values that
    already carry the numeric or boolean type are numbers and booleans. *)
Definition IsNumber (exp : Expr) : bool :=
  match exp with
  | ENumber _ => true
  | ETok s => IsNumberTok s
  | _ => false
  end.

Definition IsBoolean (exp : Expr) : bool :=
  match exp with
  | EBool _ => true
  | ETok s => IsBooleanTok s
  | _ => false
  end.

Definition IsString (exp : Expr) : bool :=
  match exp with
  | ETok s => IsStringTok s
  | _ => false
  end.

Definition IsSymbol (exp : Expr) : bool :=
  match exp with
  | ETok s => IsSymbolTok s
  | _ => false
  end.

(** Modelled from the spec: [IsSpecialSyntaxExpression], absent from
    eval.go: a special form is recognized by leading-symbol match on a
    compound form. *)
Definition IsSpecialSyntaxExpression (exp : Expr) (name : string) : bool :=
  match exp with
  | ECompound (ETok s :: _) => String.eqb s name
  | _ => false
  end.

(** [x == "lit"] on an interface value: true only for the Go string. *)
Definition eqTok (x : Expr) (lit : string) : bool :=
  match x with
  | ETok s => String.eqb s lit
  | _ => false
  end.

(** *** Pair chains *)

(** Modelled from the spec: [Pair.IsList], absent from eval.go: it holds
    iff every tail is itself a Pair or the null marker. *)
Fixpoint IsList (p : Expr) : bool :=
  match p with
  | EPair car cdr =>
    if IsNull car cdr then true
    else match cdr with
         | EPair _ _ => IsList cdr
         | _ => isNullExp cdr
         end
  | _ => false
  end.

(** Modelled from the spec: [isList], absent from eval.go: the value is a
    Pair chain that is a proper list. *)
Definition isList (v : Expr) : bool :=
  match v with
  | EPair _ _ => IsList v
  | _ => false
  end.

(** Modelled from the spec: [extractList], absent from eval.go: the
    elements of a Pair chain as a flat sequence. *)
Fixpoint extractList (p : Expr) : list Expr :=
  match p with
  | EPair car cdr => if IsNull car cdr then [] else car :: extractList cdr
  | _ => []
  end.

(** Modelled from the spec: [listImpl], absent from eval.go: the Pair
    chain of the given elements, ended by the empty-list sentinel. *)
Fixpoint listImpl (args : list Expr) : Expr :=
  match args with
  | [] => ENilObj
  | a :: rest => EPair a (listImpl rest)
  end.

(** *** Atoms *)

Definition dquote : ascii := ascii_of_nat 34.

(** The text before the first double quote of [s]. *)
Fixpoint upToQuote (s : string) : option string :=
  match s with
  | EmptyString => None
  | String c r =>
    if Ascii.eqb c dquote then Some EmptyString
    else option_map (String c) (upToQuote r)
  end.

(** [m[0][1]] for [m] the matches of the pattern of [expToString]: the
    shortest text between the first double quote and a later one. *)
Fixpoint firstQuoted (s : string) : option string :=
  match s with
  | EmptyString => None
  | String c r => if Ascii.eqb c dquote then upToQuote r else firstQuoted r
  end.

Definition expToString (exp : Expr) : M Expr :=
  let s := match exp with ETok s => s | _ => EmptyString end in
  match firstQuoted s with
  | Some t => ret (EString t)
  | None => panic ErrIndex
  end.

Definition expressionToNumber (exp : Expr) : M Expr :=
  if negb (IsNumber exp) then panic (ErrNotNumber exp)
  else match exp with
       | ENumber t => ret (ENumber t)
       | ETok t => ret (ENumber (ParseFloat t))
       | _ => ret (ENumber zero)
       end.

Definition transExpressionToSymbol (s : Expr) : M Symbol :=
  if IsSymbol s then ret (match s with ETok t => t | _ => EmptyString end)
  else panic (ErrNotSymbol s).

Fixpoint transAll (es : list Expr) : M (list Symbol) :=
  match es with
  | [] => ret []
  | e :: rest =>
    let* s := transExpressionToSymbol e in
    let* ss := transAll rest in
    ret (s :: ss)
  end.

Definition getParamSymbols (input : list string) : list Symbol := input.

Definition makeLambdaProcess (paramNames : list Symbol) (body : list Expr) (env : EnvRef)
  : Expr := ELambda paramNames body env.

Definition isLambdaType (expression : Expr) : bool :=
  match expression with
  | ELambda _ _ _ => true
  | _ => false
  end.

(** [Apply] is a stub in eval.go: it returns nil. *)
Definition Apply (exp : Expr) : Expr := ENil.

(** Modelled from the spec: [LambdaProcess.Body], absent from eval.go: the
    body sequence wrapped as an implicit [begin]. *)
Definition Body (body : list Expr) : Expr := ECompound (ETok "begin" :: body).

(** Modelled from the spec: [NewThunk], absent from eval.go: the operand
    and the environment, both captured unevaluated. *)
Definition NewThunk (e : Expr) (env : EnvRef) : Expr := EThunk e env.

(** [l[n:]]: a run-time panic when [n] exceeds the length. *)
Definition sliceFrom (n : nat) (l : list Expr) : M (list Expr) :=
  if Nat.ltb (length l) n then panic ErrSliceBounds else ret (drop n l).

(** *** Special forms *)

Definition evalDelay (exp : Expr) (env : EnvRef) : M Expr :=
  match exp with
  | ECompound exps =>
    if Nat.ltb (length exps) 2 then panic (ErrText "delay require one argument")
    else let* e := index exps 1 in ret (NewThunk e env)
  | _ => panic (ErrText "delay require one argument")
  end.

(** The loop of [evalAnd] over [expressions[1:]]. *)
Fixpoint andLoop (rec : EvalFn) (es : list Expr) (env : EnvRef) : M Expr :=
  match es with
  | [] => ret (EBool true)
  | e :: rest =>
    let* v := rec e env in
    if negb (IsTrue v) then ret (EBool false) else andLoop rec rest env
  end.

Definition evalAnd (rec : EvalFn) (exp : Expr) (env : EnvRef) : M Expr :=
  match exp with
  | ECompound expressions =>
    if Nat.ltb (length expressions) 2 then panic (ErrText "and require at least 1 argument")
    else andLoop rec (drop 1 expressions) env
  | _ => panic (ErrText "and require at least 1 argument")
  end.

(** The loop of [evalOr] over [expressions[1:]]. *)
Fixpoint orLoop (rec : EvalFn) (es : list Expr) (env : EnvRef) : M Expr :=
  match es with
  | [] => ret (EBool false)
  | e :: rest =>
    let* v := rec e env in
    if IsTrue v then ret (EBool true) else orLoop rec rest env
  end.

Definition evalOr (rec : EvalFn) (exp : Expr) (env : EnvRef) : M Expr :=
  match exp with
  | ECompound expressions =>
    if Nat.ltb (length expressions) 2 then panic (ErrText "or require at least 1 argument")
    else orLoop rec (drop 1 expressions) env
  | _ => panic (ErrText "or require at least 1 argument")
  end.

Fixpoint evalQuote (exp : Expr) (env : EnvRef) : M Expr :=
  match exp with
  | ENumber v => ret (ENumber v)
  | ETok v =>
    if IsNumber exp then expressionToNumber exp
    else if IsString exp then expToString exp
    else ret (EQuote v)
  | ECompound v =>
    let* args :=
      (fix quoteAll (l : list Expr) : M (list Expr) :=
         match l with
         | [] => ret []
         | e :: l' =>
           let* a := evalQuote e env in
           let* rest := quoteAll l' in
           ret (a :: rest)
         end) v in
    ret (listImpl args)
  | _ => panic (ErrText "invalid quote argument")
  end.

(** The element-wise loop of [evalQuote], named for the statements below. *)
Fixpoint quoteAll (l : list Expr) (env : EnvRef) : M (list Expr) :=
  match l with
  | [] => ret []
  | e :: l' =>
    let* a := evalQuote e env in
    let* rest := quoteAll l' env in
    ret (a :: rest)
  end.

Definition evalLambda (exp : Expr) (env : EnvRef) : M Expr :=
  let se := asSlice exp in
  let* paramOperand := index se 1 in
  let* body := sliceFrom 2 se in
  let* paramNames :=
    match paramOperand with
    | ECompound p => transAll p
    | ENil => ret []
    | p => let* s := transExpressionToSymbol p in ret [s]
    end in
  ret (makeLambdaProcess paramNames body env).

Definition isQuoteExpression (exp : Expr) : M bool :=
  if eqTok exp "quote" then ret true
  else match exp with
       | ECompound ops => let* h := index ops 0 in ret (eqTok h "quote")
       | _ => ret false
       end.

Definition evalDefine (rec : EvalFn) (s : Expr) (val : list Expr) (env : EnvRef) : M Expr :=
  match s with
  | ECompound se =>
    let* symbols := transAll se in
    match symbols with
    | [] => panic ErrSliceBounds
    | name :: params =>
      let* u := EnvSet env name (makeLambdaProcess params val env) in
      ret EUndef
    end
  | ENil => ret EUndef
  | se =>
    if negb (Nat.eqb (length val) 1)
    then panic (ErrText "define: bad syntax (multiple expressions after identifier")
    else
      let* sym := transExpressionToSymbol se in
      let* e := index val 0 in
      let* v := rec e env in
      let* u := EnvSet env sym v in
      ret EUndef
  end.

Definition evalApply (rec : EvalFn) (exp : Expr) (env : EnvRef) : M Expr :=
  match exp with
  | ECompound args =>
    if negb (Nat.eqb (length args) 2) then panic (ErrText "apply require 2 arguments")
    else
      let* a0 := index args 0 in
      let* procedure := rec a0 env in
      let* a1 := index args 1 in
      let* arg := rec a1 env in
      if negb (isList arg) then panic (ErrText "argument must be a list")
      else match arg with
           | EPair _ _ => rec (ECompound (procedure :: extractList arg)) env
           | _ => panic ErrTypeAssertion
           end
  | _ => panic (ErrText "apply require 2 arguments")
  end.

Fixpoint validEvalExp (exp : Expr) : bool :=
  match exp with
  | EPair car cdr =>
    if negb (IsList exp) then false
    else validEvalExp car && validEvalExp cdr
  | _ => true
  end.

(** The loop of [EvalAll] with its deferred [recover]: a panic is printed
    and the function returns the named result [ret] as it stands. *)
Fixpoint EvalAll_from (rec : EvalFn) (exps : list Expr) (env : EnvRef) (ret0 : Expr)
  : M Expr :=
  match exps with
  | [] => ret ret0
  | exp :: rest =>
    fun st =>
      match rec exp env st with
      | (Ok v, st') => EvalAll_from rec rest env v st'
      | (Panic r, st') => (Ok ret0, mkState (heap st') (out st' ++ [OutPanic r]))
      | (StackOverflow, st') => (StackOverflow, st')
      | (OutOfFuel, st') => (OutOfFuel, st')
      end
  end.

Definition EvalAll (rec : EvalFn) (exps : list Expr) (env : EnvRef) : M Expr :=
  EvalAll_from rec exps env ENil.

Definition evalEval (rec : EvalFn) (exp : Expr) (env : EnvRef) : M Expr :=
  let* arg := rec exp env in
  if negb (validEvalExp arg) then panic (ErrText "error: malformed list")
  else match Parse (Tokens (valueToString arg)) with
       | inl forms => EvalAll rec forms env
       | inr err => panic (ErrParse err)
       end.

(** [path.Ext]: the suffix of the last slash-separated element that
    starts at its final dot. *)
Fixpoint extRev (rev_path acc : list ascii) : list ascii :=
  match rev_path with
  | [] => []
  | c :: r =>
    if Ascii.eqb c "/"%char then []
    else if Ascii.eqb c "."%char then c :: acc
    else extRev r (c :: acc)
  end.

Definition Ext (p : string) : string :=
  string_of_list_ascii (extRev (rev (list_ascii_of_string p)) []).

(** Modelled from the spec: [NewFileInterpreterWithEnv(f, env).Run()],
    absent from eval.go: the forms of the file are evaluated in sequence in
    the environment given; a failing form is reported and the next one is
    evaluated. *)
Fixpoint Run (rec : EvalFn) (forms : list Expr) (env : EnvRef) : M unit :=
  match forms with
  | [] => ret tt
  | f :: rest =>
    fun st =>
      match rec f env st with
      | (Ok _, st') => Run rec rest env st'
      | (Panic r, st') => Run rec rest env (mkState (heap st') (out st' ++ [OutPanic r]))
      | (StackOverflow, st') => (StackOverflow, st')
      | (OutOfFuel, st') => (OutOfFuel, st')
      end
  end.

Definition loadFile (rec : EvalFn) (filePath : string) (env : EnvRef) : M unit :=
  let filePath :=
    if String.eqb (Ext filePath) ".scm" then filePath else filePath ++ ".scm" in
  match ReadForms filePath with
  | None => print (OutLoadFailed filePath)
  | Some forms => Run rec forms env
  end.

(** [evalLoad] calls itself on the elements of a list argument; [d] bounds
    that nesting. *)
Fixpoint evalLoad (d : nat) (rec : EvalFn) (exp : Expr) (env : EnvRef) : M Expr :=
  match d with
  | 0 => fun st => (OutOfFuel, st)
  | S d' =>
    let* argValue := rec exp env in
    let* u :=
      match argValue with
      | EString v => loadFile rec v env
      | EQuote v => loadFile rec v env
      | EPair _ _ =>
        if isList argValue then
          (fix each (l : list Expr) : M unit :=
             match l with
             | [] => ret tt
             | p :: l' => let* r := evalLoad d' rec p env in each l'
             end) (extractList argValue)
        else ret tt
      | _ => panic (ErrText "argument can only contains string, quote or list")
      end in
    ret EUndef
  end.

(** *** Conditionals and sequencing *)

Definition conditionOfIfExpression (exp : list Expr) : M Expr := index exp 1.

Definition trueExpOfIfExpression (exp : list Expr) : M Expr := index exp 2.

Definition elseExpOfIfExpression (exp : list Expr) : M Expr :=
  if Nat.ltb (length exp) 4 then ret EUndef else index exp 3.

Definition evalIf (rec : EvalFn) (exp : list Expr) (env : EnvRef) : M Expr :=
  let* c := conditionOfIfExpression exp in
  let* v := rec c env in
  if IsTrue v then trueExpOfIfExpression exp else elseExpOfIfExpression exp.

(** Evaluation of a run of expressions for their effects only. *)
Fixpoint evalEach (rec : EvalFn) (es : list Expr) (env : EnvRef) : M unit :=
  match es with
  | [] => ret tt
  | e :: rest => let* v := rec e env in evalEach rec rest env
  end.

(** [exp[1 : len(exp)-1]] panics when [len(exp) < 2]. *)
Definition evalBegin (rec : EvalFn) (exp : list Expr) (env : EnvRef) : M Expr :=
  if Nat.ltb (length exp) 2 then panic ErrSliceBounds
  else
    let* u := evalEach rec (take (length exp - 2) (drop 1 exp)) env in
    index exp (length exp - 1).

Definition makeIf (condition trueExp elseExp : Expr) : list Expr :=
  [ETok "if"; condition; trueExp; elseExp].

Definition condClauses (exp : list Expr) : M (list Expr) := sliceFrom 1 exp.

Definition conditionOfClause (exp : list Expr) : M Expr := index exp 0.

Definition processesOfClause (exp : list Expr) : M Expr :=
  let* ps := sliceFrom 1 exp in ret (ECompound ps).

Definition isElseClause (clause : Expr) : M bool :=
  match clause with
  | ECompound v => let* h := index v 0 in ret (eqTok h "else")
  | _ => ret false
  end.

Definition sequenceToExp (exp : Expr) : Expr :=
  match exp with
  | ECompound exs => ECompound (ETok "begin" :: exs)
  | ENil => EUndef
  | exs => exs
  end.

Fixpoint condClausesToIf (exp : list Expr) : M Expr :=
  match exp with
  | [] => ret EUndef
  | c :: rest =>
    match c with
    | ECompound first =>
      let* isElse := isElseClause c in
      if isElse then
        if negb (Nat.eqb (length rest) 0)
        then panic (ErrText "else clause must in the last position: cond->if")
        else let* ps := processesOfClause first in ret (sequenceToExp ps)
      else
        let* cnd := conditionOfClause first in
        let* ps := processesOfClause first in
        let* alt := condClausesToIf rest in
        ret (ECompound (makeIf cnd (sequenceToExp ps) alt))
    | _ => panic ErrTypeAssertion
    end
  end.

Definition expandCond (exp : Expr) : M Expr :=
  match exp with
  | ECompound e => let* cs := condClauses e in condClausesToIf cs
  | _ => panic ErrTypeAssertion
  end.

Definition evalCond (rec : EvalFn) (exp : Expr) (env : EnvRef) : M Expr :=
  let* equalIfExp := expandCond exp in
  rec equalIfExp env.

(** *** Application *)

(** [for _, arg := range ops[1:] { args = append(args, Eval(arg, env)) }] *)
Fixpoint evalArgs (rec : EvalFn) (ops : list Expr) (env : EnvRef) : M (list Expr) :=
  match ops with
  | [] => ret []
  | arg :: rest =>
    let* v := rec arg env in
    let* vs := evalArgs rec rest env in
    ret (v :: vs)
  end.

(** [for i, arg := range ops[1:] { newEnv.Set(p.params[i], Eval(arg, env)) }] *)
Fixpoint bindArgs (rec : EvalFn) (newEnv : EnvRef) (params : list Symbol) (i : nat)
    (ops : list Expr) (env : EnvRef) : M unit :=
  match ops with
  | [] => ret tt
  | arg :: rest =>
    match params !! i with
    | None => panic ErrIndex
    | Some name =>
      let* v := rec arg env in
      let* u := EnvSet newEnv name v in
      bindArgs rec newEnv params (S i) rest env
    end
  end.

(** The run of a builtin: what it prints is appended to the output, and
    each call back into [Eval] is a nested call. *)
Fixpoint runNative (rec : EvalFn) (t : Native Number) : M Expr :=
  match t with
  | Returns o r => fun st => (r, mkState (heap st) (out st ++ o))
  | CallsEval o exp env next =>
    let* v := (fun st => rec exp env (mkState (heap st) (out st ++ o))) in
    runNative rec (next v)
  end.

(** [p.Call(args...)] *)
Definition callBuiltin (rec : EvalFn) (name : string) (args : list Expr) : M Expr :=
  runNative rec (Call name args).

(** What one iteration of the loop of [Eval] ends with: a [return], or new
    values for [exp] and [env] and another iteration. *)
Inductive Next : Type :=
| Done (v : Expr)
| Loop (exp : Expr) (env : EnvRef).

Definition done (m : M Expr) : M Next := let* v := m in ret (Done v).

(** The final [else] of the loop: quotation and procedure application. *)
Definition application (rec : EvalFn) (exp : Expr) (env : EnvRef) : M Next :=
  match exp with
  | ECompound ops =>
    let* q := isQuoteExpression exp in
    if q then done (let* o := index ops 1 in evalQuote o env)
    else
      let* op := index ops 0 in
      let* fn := rec op env in
      match fn with
      | EFunction name =>
        let* operands := sliceFrom 1 ops in
        let* args := evalArgs rec operands env in
        done (callBuiltin rec name args)
      | ELambda params body cenv =>
        let* newEnv := allocEnv cenv in
        let* operands := sliceFrom 1 ops in
        if negb (Nat.eqb (length operands) (length params))
        then panic (ErrArity fn (length params) (length operands))
        else
          let* u := bindArgs rec newEnv params 0 operands env in
          ret (Loop (Body body) newEnv)
      | _ => panic (ErrNotCallable fn)
      end
  | _ => ret (Done exp)
  end.

(** One iteration of the loop of [Eval].  [rec] stands for the nested
    calls of [Eval]; [d] bounds the self-nesting of [evalLoad]. *)
Definition body (rec : EvalFn) (d : nat) (exp : Expr) (env : EnvRef) : M Next :=
  if isNullExp exp then ret (Done ENilObj)
  else if isUndefObj exp then ret (Done EUndef)
  else if IsNumber exp then done (expressionToNumber exp)
  else if IsBoolean exp then ret (Done (EBool (IsTrue exp)))
  else if IsString exp then done (expToString exp)
  else if IsSymbol exp then
    done (Find env (match exp with ETok s => s | _ => EmptyString end))
  else if IsSpecialSyntaxExpression exp "define" then
    (* evalDefine(operators[1], operators[2:], env): the slice expression
       is evaluated before the index expression. *)
    done (let operators := asSlice exp in
          let* val := sliceFrom 2 operators in
          let* s := index operators 1 in
          evalDefine rec s val env)
  else if IsSpecialSyntaxExpression exp "eval" then
    done (let* e := index (asSlice exp) 1 in evalEval rec e env)
  else if IsSpecialSyntaxExpression exp "apply" then
    done (let* a := sliceFrom 1 (asSlice exp) in evalApply rec (ECompound a) env)
  else if IsSpecialSyntaxExpression exp "if" then
    let* e := evalIf rec (asSlice exp) env in ret (Loop e env)
  else if IsSpecialSyntaxExpression exp "cond" then
    done (evalCond rec exp env)
  else if IsSpecialSyntaxExpression exp "begin" then
    let* e := evalBegin rec (asSlice exp) env in ret (Loop e env)
  else if IsSpecialSyntaxExpression exp "lambda" then
    done (evalLambda exp env)
  else if IsSpecialSyntaxExpression exp "load" then
    done (let* e := index (asSlice exp) 1 in evalLoad d rec e env)
  else if IsSpecialSyntaxExpression exp "delay" then
    done (evalDelay exp env)
  else if IsSpecialSyntaxExpression exp "and" then
    done (evalAnd rec exp env)
  else if IsSpecialSyntaxExpression exp "or" then
    done (evalOr rec exp env)
  else application rec exp env.

(** [Eval]: the loop.  A nested call gets one unit of [stack] less; the
    next iteration of the loop keeps the stack it has. *)
Fixpoint Eval (fuel stack : nat) (exp : Expr) (env : EnvRef) (st : St) {struct fuel}
  : Result Expr * St :=
  match fuel with
  | 0 => (OutOfFuel, st)
  | S fuel' =>
    match stack with
    | 0 => (StackOverflow, st)
    | S stack' =>
      match body (Eval fuel' stack') fuel' exp env st with
      | (Ok (Done v), st') => (Ok v, st')
      | (Ok (Loop exp' env'), st') => Eval fuel' stack exp' env' st'
      | (Panic e, st') => (Panic e, st')
      | (StackOverflow, st') => (StackOverflow, st')
      | (OutOfFuel, st') => (OutOfFuel, st')
      end
    end
  end.

End Evaluator.

(** ** A concrete host

    A small set of collaborators to run the evaluator on: integers for
    numbers, decimal integer literals, [#t] and [#f], a few arithmetic
    builtins, [cons] and [force], and a printer and reader for
    S-expressions.  The examples
    below only use tokens on which it agrees with the Go helpers. *)

Definition isDigit (c : ascii) : bool :=
  Nat.leb 48 (nat_of_ascii c) && Nat.leb (nat_of_ascii c) 57.

Fixpoint digitsValue (s : string) (acc : Z) : option Z :=
  match s with
  | EmptyString => Some acc
  | String c r =>
    if isDigit c
    then digitsValue r (10 * acc + Z.of_nat (nat_of_ascii c - 48))%Z
    else None
  end.

Definition intLiteral (s : string) : option Z :=
  match s with
  | EmptyString => None
  | String c r =>
    if Ascii.eqb c "-"%char
    then match r with
         | EmptyString => None
         | _ => option_map Z.opp (digitsValue r 0)
         end
    else digitsValue s 0
  end.

Definition demo_IsNumberTok (s : string) : bool :=
  match intLiteral s with Some _ => true | None => false end.

(** Decimal integer literals only, read exactly; [strconv.ParseFloat]
    reads every floating-point literal, and rounds to a float64. *)
Definition demo_ParseFloat (s : string) : Z :=
  match intLiteral s with Some z => z | None => 0%Z end.

Definition demo_IsBooleanTok (s : string) : bool :=
  String.eqb s "#t" || String.eqb s "#f".

Definition demo_IsStringTok (s : string) : bool :=
  match s with
  | String c _ => Ascii.eqb c dquote
  | EmptyString => false
  end.

Definition demo_IsSymbolTok (s : string) : bool :=
  negb (demo_IsNumberTok s || demo_IsBooleanTok s || demo_IsStringTok s)
  && negb (String.eqb s "").

(** Everything but false is true. *)
Definition demo_IsTrue (v : Expression Z) : bool :=
  match v with
  | EBool b => b
  | ETok s => negb (String.eqb s "#f")
  | _ => true
  end.

Fixpoint numbersOf (vs : list (Expression Z)) : option (list Z) :=
  match vs with
  | [] => Some []
  | ENumber n :: rest => option_map (cons n) (numbersOf rest)
  | _ :: _ => None
  end.

(** The builtins of the demonstration: [cons], [force], which calls
    [Eval] on the expression and the environment of the thunk it is given
    and returns the value, and integer arithmetic. *)
Definition demo_Call (name : string) (args : list (Expression Z)) : Native Z :=
  if String.eqb name "cons" then
    match args with
    | [a; b] => Returns [] (Ok (EPair a b))
    | _ => Returns [] (Panic (ErrText "builtin: two arguments expected"))
    end
  else if String.eqb name "force" then
    match args with
    | [EThunk e env] => CallsEval [] e env (fun v => Returns [] (Ok v))
    | _ => Returns [] (Panic (ErrText "builtin: promise expected"))
    end
  else
  match numbersOf args with
  | None => Returns [] (Panic (ErrText "builtin: number expected"))
  | Some ns =>
    if String.eqb name "+" then Returns [] (Ok (ENumber (fold_right Z.add 0%Z ns)))
    else if String.eqb name "*" then Returns [] (Ok (ENumber (fold_right Z.mul 1%Z ns)))
    else if String.eqb name "-" then
      match ns with
      | [a; b] => Returns [] (Ok (ENumber (a - b)%Z))
      | _ => Returns [] (Panic (ErrText "builtin: two arguments expected"))
      end
    else if String.eqb name "=" then
      match ns with
      | [a; b] => Returns [] (Ok (EBool (Z.eqb a b)))
      | _ => Returns [] (Panic (ErrText "builtin: two arguments expected"))
      end
    else Returns [] (Panic (ErrText "builtin: unknown"))
  end.

Definition showDigit (n : nat) : ascii := ascii_of_nat (48 + n).

Fixpoint showNat (fuel n : nat) (acc : string) : string :=
  match fuel with
  | 0 => acc
  | S fuel' =>
    let acc' := String (showDigit (n mod 10)) acc in
    if Nat.ltb n 10 then acc' else showNat fuel' (n / 10) acc'
  end.

Definition showZ (z : Z) : string :=
  let n := Z.abs_nat z in
  let s := showNat (S n) n EmptyString in
  if Z.ltb z 0 then String "-"%char s else s.

(** The printer: a Pair chain as a parenthesized list. [tail] says that
    the value is printed as the rest of a list. *)
Fixpoint show (tail : bool) (v : Expression Z) : string :=
  match v with
  | EPair car cdr =>
    (if tail then " " else "(") ++ show false car ++ show true cdr
  | _ =>
    if tail then ")"
    else match v with
         | ENumber n => showZ n
         | EBool true => "#t"
         | EBool false => "#f"
         | EQuote s => s
         | EString s => String dquote (s ++ String dquote EmptyString)
         | ENilObj => "()"
         | _ => ""
         end
  end.

Definition flush (cur : string) (acc : list string) : list string :=
  match cur with
  | EmptyString => acc
  | _ => acc ++ [cur]
  end.

Fixpoint scan (s : string) (cur : string) (acc : list string) : list string :=
  match s with
  | EmptyString => flush cur acc
  | String c r =>
    if Ascii.eqb c " "%char then scan r EmptyString (flush cur acc)
    else if Ascii.eqb c "("%char then scan r EmptyString (flush cur acc ++ ["("])
    else if Ascii.eqb c ")"%char then scan r EmptyString (flush cur acc ++ [")"])
    else scan r (cur ++ String c EmptyString) acc
  end.

Definition demo_Tokens (s : string) : list string := scan s EmptyString [].

Fixpoint read (ts : list string) (pending : list (list (Expression Z)))
    (top : list (Expression Z)) : list (Expression Z) + string :=
  match ts with
  | [] =>
    match pending with
    | [] => inl (rev top)
    | _ => inr "unexpected end of input"
    end
  | t :: r =>
    if String.eqb t "(" then read r (top :: pending) []
    else if String.eqb t ")" then
      match pending with
      | [] => inr "unexpected )"
      | up :: pending' => read r pending' (ECompound (rev top) :: up)
      end
    else read r pending (ETok t :: top)
  end.

Definition demo_Parse (ts : list string) : list (Expression Z) + string :=
  read ts [] [].

(** No file can be opened. *)
Definition demo_ReadForms (path : string) : option (list (Expression Z)) := None.

#[export] Instance demo : Host := {|
  Number := Z;
  zero := 0%Z;
  ParseFloat := demo_ParseFloat;
  IsNumberTok := demo_IsNumberTok;
  IsBooleanTok := demo_IsBooleanTok;
  IsStringTok := demo_IsStringTok;
  IsSymbolTok := demo_IsSymbolTok;
  IsTrue := demo_IsTrue;
  Call := demo_Call;
  valueToString := show false;
  Tokens := demo_Tokens;
  Parse := demo_Parse;
  ReadForms := demo_ReadForms
|}.

(** The root environment of the driver: one frame, the builtins bound. *)
Definition rootFrame : Env Z :=
  mkEnv None
    (<["+" := EFunction "+"]> (<["-" := EFunction "-"]>
     (<["*" := EFunction "*"]> (<["=" := EFunction "="]>
     (<["cons" := EFunction "cons"]> (<["force" := EFunction "force"]> ∅)))))).

Definition rootState : State Z := mkState [rootFrame] [].

(** Shorthands for writing programs. *)
Definition tok (s : string) : Expression Z := ETok s.
Definition form (es : list (Expression Z)) : Expression Z := ECompound es.

(** The result of a run and the text it printed, the store left out. *)
Definition run (fuel stack : nat) (exp : Expression Z) : Res Z (Expression Z) :=
  fst (Eval fuel stack exp 0 rootState).

(** A program: top-level forms evaluated in sequence by the driver
    ([EvalAll], one call per form so that each failure is reported and the
    next form is evaluated); the value of the last form. *)
Fixpoint program (fuel stack : nat) (forms : list (Expression Z)) (last : Expression Z)
    (st : State Z) : Res Z (Expression Z) * State Z :=
  match forms with
  | [] => (Ok last, st)
  | f :: rest =>
    match EvalAll (Eval fuel stack) [f] 0 st with
    | (Ok v, st') => program fuel stack rest v st'
    | other => other
    end
  end.

(** *** Example programs *)

(** [(define (loop n) (if (= n 0) 0 (loop (- n 1))))] *)
Definition countdown_if : Expression Z :=
  form [tok "define"; form [tok "loop"; tok "n"];
        form [tok "if"; form [tok "="; tok "n"; tok "0"];
              tok "0";
              form [tok "loop"; form [tok "-"; tok "n"; tok "1"]]]].

(** [(define (loop n) (cond ((= n 0) 0) (else (loop (- n 1)))))] *)
Definition countdown_cond : Expression Z :=
  form [tok "define"; form [tok "loop"; tok "n"];
        form [tok "cond";
              form [form [tok "="; tok "n"; tok "0"]; tok "0"];
              form [tok "else";
                    form [tok "loop"; form [tok "-"; tok "n"; tok "1"]]]]].

(** [(loop n)] *)
Definition countdown_from (n : string) : Expression Z := form [tok "loop"; tok n].

(** [(define x 1) (define (f) x) (define (g x) (f)) (g 2)]: [g] binds
    its own [x] and calls [f], which was defined at top level. *)
Definition scoping_program : list (Expression Z) :=
  [form [tok "define"; tok "x"; tok "1"];
   form [tok "define"; form [tok "f"]; tok "x"];
   form [tok "define"; form [tok "g"; tok "x"]; form [tok "f"]];
   form [tok "g"; tok "2"]].

(** [(define (make-adder n) (lambda (x) (+ x n)))]: the closure it
    returns is made inside the call, in the frame that binds [n]. *)
Definition make_adder : Expression Z :=
  form [tok "define"; form [tok "make-adder"; tok "n"];
        form [tok "lambda"; form [tok "x"]; form [tok "+"; tok "x"; tok "n"]]].

(** The state of the driver after [make_adder]. *)
Definition adder_state : State Z := snd (Eval 3 2 make_adder 0 rootState).

(** [(define (make-adder n) ...) ((make-adder 3) 4)] *)
Definition adder_program : list (Expression Z) :=
  [make_adder; form [form [tok "make-adder"; tok "3"]; tok "4"]].

(** [(define (mk) (delay (define y 1))) (define p (mk))]: the promise
    [p], bound at top level, holds the frame of the call of [mk]. *)
Definition promise_program : list (Expression Z) :=
  [form [tok "define"; form [tok "mk"];
         form [tok "delay"; form [tok "define"; tok "y"; tok "1"]]];
   form [tok "define"; tok "p"; form [tok "mk"]]].

(** [(apply (lambda (a b c) which) (quote (1 2 3)))], for [which] one
    of the parameters. *)
Definition apply_pick (which : string) : Expression Z :=
  form [tok "apply";
        form [tok "lambda"; form [tok "a"; tok "b"; tok "c"]; tok which];
        form [tok "quote"; form [tok "1"; tok "2"; tok "3"]]].

(** ** Vocabulary of the statements *)

Section Vocabulary.
Context `{host : Host}.

Abbreviation Expr := (Expression Number).
Abbreviation St := (State Number).

(** The leading symbols the loop of [Eval] tests for before it reaches
    its final [else]. *)
Definition keywords : list string :=
  ["define"; "eval"; "apply"; "if"; "cond"; "begin"; "lambda"; "load";
   "delay"; "and"; "or"].

Definition isKeyword (h : Expr) : bool := existsb (eqTok h) keywords.

(** The alternative of an [if] form: the fourth element, or the
    unspecified sentinel when there is none. *)
Definition alternative (rest : list Expr) : Expr :=
  match rest with
  | [] => EUndef
  | alt :: _ => alt
  end.

(** [es] are evaluated one after the other, each in the state the one
    before it left, to the values [vs]. *)
Inductive EvalsInOrder (rec : EvalFn) (env : EnvRef)
  : list Expr -> St -> list Expr -> St -> Prop :=
| EvalsInOrder_nil st : EvalsInOrder rec env [] st [] st
| EvalsInOrder_cons e es st v st1 vs st2 :
    rec e env st = (Ok v, st1) ->
    EvalsInOrder rec env es st1 vs st2 ->
    EvalsInOrder rec env (e :: es) st (v :: vs) st2.

(** [es] are evaluated in order and every value has truth value [b]. *)
Inductive EvalsAllTo (rec : EvalFn) (env : EnvRef) (b : bool)
  : list Expr -> St -> St -> Prop :=
| EvalsAllTo_nil st : EvalsAllTo rec env b [] st st
| EvalsAllTo_cons e es st v st1 st2 :
    rec e env st = (Ok v, st1) ->
    IsTrue v = b ->
    EvalsAllTo rec env b es st1 st2 ->
    EvalsAllTo rec env b (e :: es) st st2.

(** The operands are evaluated in order, in the caller's environment
    [env], and each value is bound to the parameter of the same position
    in the frame at [a]; [vs] are the values, in order. *)
Inductive BindsInOrder (rec : EvalFn) (env a : EnvRef)
  : list Symbol -> list Expr -> list Expr -> St -> St -> Prop :=
| BindsInOrder_nil st : BindsInOrder rec env a [] [] [] st st
| BindsInOrder_cons p ps e es v vs st st1 st2 :
    rec e env st = (Ok v, st1) ->
    BindsInOrder rec env a ps es vs (snd (EnvSet a p v st1)) st2 ->
    BindsInOrder rec env a (p :: ps) (e :: es) (v :: vs) st st2.

(** The store only grows, and a frame keeps its [outer] link. *)
Definition extends (st st' : St) : Prop :=
  forall a fr, heap st !! a = Some fr ->
    exists fr', heap st' !! a = Some fr' /\ outer fr' = outer fr.

(** A computation that leaves every existing frame in place. *)
Definition preserving {A} (m : M A) : Prop := forall st, extends st (snd (m st)).

(** The nested calls leave every existing frame in place. *)
Definition preservingFn (rec : EvalFn) : Prop := forall e env, preserving (rec e env).

(** The values a procedure call can be made on. *)
Definition isCallable (fn : Expr) : bool :=
  match fn with
  | EFunction _ | ELambda _ _ _ => true
  | _ => false
  end.

(** Every environment reference inside [v] (the environment of a closure
    or of a thunk, at any depth of the value) satisfies [R]. *)
Fixpoint refsIn (R : EnvRef -> bool) (v : Expr) : bool :=
  match v with
  | ECompound es => forallb (refsIn R) es
  | EPair car cdr => refsIn R car && refsIn R cdr
  | ELambda _ lbody env => R env && forallb (refsIn R) lbody
  | EThunk e env => R env && refsIn R e
  | _ => true
  end.

(** The [outer] link of the frame and the references inside the values
    it binds satisfy [R]. *)
Definition frameRefs (R : EnvRef -> bool) (fr : Env Number) : bool :=
  match outer fr with Some o => R o | None => true end
  && forallb (fun sv => refsIn R (snd sv)) (map_to_list (frame fr)).

Definition storeRefs (R : EnvRef -> bool) (st : St) : bool :=
  forallb (frameRefs R) (heap st).

(** The references a builtin uses, when those of its arguments satisfy
    [R]: the value it returns, the expression and the environment it calls
    [Eval] on, and what it does with the value of that call (which can
    hold references to frames allocated meanwhile, hence [R']). *)
Fixpoint nativeRefs (R : EnvRef -> bool) (t : Native Number) : Prop :=
  match t with
  | Returns _ r => forall v, r = Ok v -> refsIn R v = true
  | CallsEval _ e env next =>
    refsIn R e = true /\ R env = true
    /\ forall (R' : EnvRef -> bool) v,
         (forall r, R r = true -> R' r = true) -> refsIn R' v = true ->
         nativeRefs R' (next v)
  end.

(** Go has no way to make a [*Env] out of nothing: the collaborators
    reach environments through the values they are given and through no
    other way, and what the parser and the file reader return holds no
    closure and no thunk. *)
Record Lawful : Prop := mkLawful {
  Call_refs : forall R name args,
    Forall (fun v => refsIn R v = true) args -> nativeRefs R (Call name args);
  Parse_refs : forall R ts forms,
    Parse ts = inl forms -> Forall (fun v => refsIn R v = true) forms;
  ReadForms_refs : forall R path forms,
    ReadForms path = Some forms -> Forall (fun v => refsIn R v = true) forms
}.

(** References to the frames of a store of [n] frames. *)
Definition below (n : nat) (r : EnvRef) : bool := Nat.ltb r n.

(** References to any frame but the one at [a]. *)
Definition apart (a : EnvRef) (r : EnvRef) : bool := negb (Nat.eqb r a).

(** No reference of the store dangles: every [outer] link and every
    environment of a closure or thunk bound in a frame is the address of
    a frame of the store. *)
Definition closed (st : St) : bool := storeRefs (below (length (heap st))) st.

(** Nothing in the store refers to the frame at [a]. *)
Definition unreferenced (a : EnvRef) (st : St) : bool := storeRefs (apart a) st.

(** [P n] says which references are admitted in a store of [n] frames,
    [V n] which sizes of the store are; the store is sound when its size
    is admitted and every reference in it is. *)
Definition sound (P : nat -> EnvRef -> bool) (V : nat -> Prop) (st : St) : Prop :=
  V (length (heap st)) /\ storeRefs (P (length (heap st))) st = true.

(** Every value of the computation satisfies [Q]. *)
Definition yields {A} (Q : A -> Prop) (m : M A) : Prop :=
  forall st x st', m st = (Ok x, st') -> Q x.

(** A computation that, run on a sound store of [n] frames or more,
    leaves a sound store that is not smaller, writes to no frame whose
    address is not admitted, and gives a value that satisfies [G] at the
    size of the store it leaves. *)
Definition confined (P : nat -> EnvRef -> bool) (V : nat -> Prop) {A}
    (n : nat) (G : nat -> A -> Prop) (m : M A) : Prop :=
  forall st, n <= length (heap st) -> sound P V st ->
    sound P V (snd (m st))
    /\ length (heap st) <= length (heap (snd (m st)))
    /\ (forall b, P (length (heap (snd (m st)))) b = false ->
          heap (snd (m st)) !! b = heap st !! b)
    /\ (forall x, fst (m st) = Ok x -> G (length (heap (snd (m st)))) x).

(** What is asked of the values: admitted references only. *)
Definition admits (P : nat -> EnvRef -> bool) (n : nat) (v : Expr) : Prop :=
  refsIn (P n) v = true.

Definition admitsAll (P : nat -> EnvRef -> bool) (n : nat) (vs : list Expr) : Prop :=
  Forall (fun v => refsIn (P n) v = true) vs.

Definition admitsNext (P : nat -> EnvRef -> bool) (n : nat) (x : Next) : Prop :=
  match x with
  | Done v => refsIn (P n) v = true
  | Loop e env => refsIn (P n) e = true /\ P n env = true
  end.

Definition anything {A} (n : nat) (x : A) : Prop := True.

(** The nested calls are confined when the expression and the
    environment they are made on are admitted. *)
Definition confinedFn (P : nat -> EnvRef -> bool) (V : nat -> Prop) (rec : EvalFn) : Prop :=
  forall n exp env, refsIn (P n) exp = true -> P n env = true ->
    confined P V n (admits P) (rec exp env).

(** The frame a closure call fills: the parameters bound, one after the
    other, to the values. *)
Fixpoint bound (ps : list Symbol) (vs : list Expr) (fr : gmap Symbol Expr)
  : gmap Symbol Expr :=
  match ps, vs with
  | p :: ps', v :: vs' => bound ps' vs' (<[p := v]> fr)
  | _, _ => fr
  end.

(** A computation that hands the state back as it got it. *)
Definition unchanged {A} (m : M A) : Prop := forall st, snd (m st) = st.

(** [p] is a Pair cell inside the value [v] (the value itself, or a Pair
    reached through heads and tails). *)
Inductive SubPair : Expr -> Expr -> Prop :=
| SubPair_here car cdr : SubPair (EPair car cdr) (EPair car cdr)
| SubPair_car p car cdr : SubPair p car -> SubPair p (EPair car cdr)
| SubPair_cdr p car cdr : SubPair p cdr -> SubPair p (EPair car cdr).

(** A literal runtime value: no compound form and no raw token is left in
    it. *)
Inductive Literal : Expr -> Prop :=
| Literal_number n : Literal (ENumber n)
| Literal_string s : Literal (EString s)
| Literal_quote s : Literal (EQuote s)
| Literal_empty : Literal ENilObj
| Literal_pair car cdr : Literal car -> Literal cdr -> Literal (EPair car cdr).

(** A result that more fuel or more stack cannot change. *)
Definition definite {A} (r : Res Number A) : bool :=
  match r with
  | Ok _ | Panic _ => true
  | StackOverflow | OutOfFuel => false
  end.

(** [m'] gives every value and every panic that [m] gives: [m'] is [m]
    with more fuel or more stack. *)
Definition refines {A} (m m' : M A) : Prop :=
  forall st r st', m st = (r, st') -> definite r = true -> m' st = (r, st').

Definition refinesFn (rec rec' : EvalFn) : Prop :=
  forall x env, refines (rec x env) (rec' x env).

(** A clause of a [cond] that is a compound form whose first element is
    not [else]. *)
Definition isPlainClause (c : Expr) : bool :=
  match c with
  | ECompound (test :: _) => negb (eqTok test "else")
  | _ => false
  end.

(** The test of a clause. *)
Definition testOf (c : Expr) : Expr :=
  match c with
  | ECompound (test :: _) => test
  | _ => ENil
  end.

(** A frame of [st] is still there in [st'], with the [outer] link it
    had and with every symbol it bound still bound. *)
Definition persists (st st' : St) : Prop :=
  forall a fr, heap st !! a = Some fr ->
    exists fr', heap st' !! a = Some fr' /\ outer fr' = outer fr
                /\ forall s, is_Some (frame fr !! s) -> is_Some (frame fr' !! s).

(** A computation whose every run relates the state it got to the state
    it leaves. *)
Definition respects (R : St -> St -> Prop) {A} (m : M A) : Prop :=
  forall st, R st (snd (m st)).

Definition respectsFn (R : St -> St -> Prop) (rec : EvalFn) : Prop :=
  forall x env, respects R (rec x env).

(** A target of [define] that takes the identifier case of [evalDefine]:
    neither a compound form nor nil. *)
Definition isPlainTarget (s : Expr) : bool :=
  match s with
  | ECompound _ | ENil => false
  | _ => true
  end.

(** No double quote occurs in the text. *)
Fixpoint noQuote (s : string) : bool :=
  match s with
  | EmptyString => true
  | String c r => negb (Ascii.eqb c dquote) && noQuote r
  end.

End Vocabulary.

Arguments Lawful host : clear implicits.

Local Open Scope list_scope.

(** ** General facts about the monad and the loop *)

Section Facts.
Context `{host : Host}.

Abbreviation Expr := (Expression Number).
Abbreviation St := (State Number).

Lemma bind_assoc {A B C} (m : M A) (k : A -> M B) (h : B -> M C) st :
  bind (bind m k) h st = bind m (fun a => bind (k a) h) st.
Proof. unfold bind. destruct (m st) as [[a | e | | ] st']; reflexivity. Qed.

Lemma bind_ok {A B} (m : M A) (k : A -> M B) st a st' :
  m st = (Ok a, st') -> bind m k st = k a st'.
Proof. intros E. unfold bind. rewrite E. reflexivity. Qed.

Lemma bind_panic {A B} (m : M A) (k : A -> M B) st e st' :
  m st = (Panic e, st') -> bind m k st = (Panic e, st').
Proof. intros E. unfold bind. rewrite E. reflexivity. Qed.

(** An [Ok] result of a bind comes from an [Ok] result of its first part. *)
Lemma bind_ok_inv {A B} (m : M A) (k : A -> M B) st b st' :
  bind m k st = (Ok b, st') ->
  exists a st1, m st = (Ok a, st1) /\ k a st1 = (Ok b, st').
Proof.
  unfold bind. destruct (m st) as [[a | e | | ] st1]; intros E; try discriminate.
  exists a, st1. split; [reflexivity | exact E].
Qed.

(** One iteration, then either the value or the next iteration with the
    stack this activation already has. *)
Lemma Eval_step f k exp env st :
  Eval (S f) (S k) exp env st =
  bind (body (Eval f k) f exp env)
       (fun n => match n with
                 | Done v => ret v
                 | Loop exp' env' => Eval f (S k) exp' env'
                 end) st.
Proof.
  unfold bind. simpl.
  destruct (body (Eval f k) f exp env st) as [[[v | e' env'] | e | | ] st'];
    reflexivity.
Qed.

Lemma Eval_no_fuel k exp env st : Eval 0 k exp env st = (OutOfFuel, st).
Proof. reflexivity. Qed.

(** A call that produced a value or a panic had fuel and stack. *)
Lemma Eval_definite_pos f k exp env st r st' :
  Eval f k exp env st = (r, st') -> definite r = true ->
  exists f' k', f = S f' /\ k = S k'.
Proof.
  destruct f as [| f']; [simpl; intros [= <- _]; discriminate |].
  destruct k as [| k']; [simpl; intros [= <- _]; discriminate |].
  intros _ _. exists f', k'. split; reflexivity.
Qed.

(** The sentinel evaluates to itself. *)
Lemma Eval_undef f k env st : Eval (S f) (S k) EUndef env st = (Ok EUndef, st).
Proof. reflexivity. Qed.

(** A head that is none of the keywords is not a special form. *)
Lemma isKeyword_false h kw :
  isKeyword h = false -> In kw keywords -> eqTok h kw = false.
Proof.
  unfold isKeyword. intros H Hin.
  destruct (eqTok h kw) eqn:E; [| reflexivity].
  assert (existsb (eqTok h) keywords = true) as Hex
    by (apply existsb_exists; exists kw; split; assumption).
  rewrite Hex in H. discriminate.
Qed.

Lemma special_head h args kw :
  IsSpecialSyntaxExpression (ECompound (h :: args)) kw = eqTok h kw.
Proof. destruct h; reflexivity. Qed.

(** The final [else] of the loop is reached by every non-empty compound
    form whose head is not a keyword. *)
Lemma body_application rec d h args env :
  isKeyword h = false ->
  body rec d (ECompound (h :: args)) env = application rec (ECompound (h :: args)) env.
Proof.
  intros H. unfold body.
  cbn [isNullExp isUndefObj IsNumber IsBoolean IsString IsSymbol].
  rewrite !special_head.
  rewrite !(isKeyword_false h) by (assumption || (cbn; tauto)).
  reflexivity.
Qed.

End Facts.

(** ** [begin] with no sub-expression *)

(** C10: evaluating [(begin)], the one-element compound form that holds
    only the keyword, ends in the run-time panic of the slice expression
    [exp[1 : len(exp)-1]]: no value is returned and none of the
    interpreter's own errors is raised; the store is left as it was. *)
Theorem begin_without_operands_panics `{host : Host} (f k : nat) (env : EnvRef)
    (st : State Number) :
  Eval (S f) (S k) (ECompound [ETok "begin"]) env st = (Panic ErrSliceBounds, st).
Proof.
  rewrite Eval_step.
  unfold body, bind; cbn.
  reflexivity.
Qed.

(** ** [delay] *)

(** C4: what [evalDelay] does with its operands.  With none the form
    panics with the message "delay require one argument"; with one or
    more it returns the Thunk of the first operand, unevaluated, and of
    the current environment: operands after the first are dropped, no
    error is raised for them. *)
Theorem delay_takes_first_operand `{host : Host} (f k : nat) (env : EnvRef)
    (st : State Number) :
  Eval (S f) (S k) (ECompound [ETok "delay"]) env st
    = (Panic (ErrText "delay require one argument"), st)
  /\ (forall a, Eval (S f) (S k) (ECompound [ETok "delay"; a]) env st
                = (Ok (EThunk a env), st))
  /\ (forall a b rest,
        Eval (S f) (S k) (ECompound (ETok "delay" :: a :: b :: rest)) env st
        = (Ok (EThunk a env), st)).
Proof.
  repeat split; intros; rewrite Eval_step; unfold body, bind; cbn; reflexivity.
Qed.

(** ** [if] *)

Section Conditionals.
Context `{host : Host}.

Abbreviation Expr := (Expression Number).
Abbreviation St := (State Number).

(** [evalIf] hands back the branch it selected, unevaluated. *)
Lemma evalIf_selects (rec : EvalFn) test conseq rest env (st : St) :
  evalIf rec (ETok "if" :: test :: conseq :: rest) env st =
  bind (rec test env)
       (fun v => ret (if IsTrue v then conseq else alternative rest)) st.
Proof.
  unfold evalIf, conditionOfIfExpression, trueExpOfIfExpression,
    elseExpOfIfExpression, index, bind, ret. cbn.
  destruct (rec test env st) as [[v | e | | ] st1]; try reflexivity.
  destruct (IsTrue v); [reflexivity |].
  destruct rest as [| alt rest']; reflexivity.
Qed.

(** [evalBegin] evaluates all but the last sub-expression and hands back
    the last one, unevaluated. *)
Lemma evalBegin_last (rec : EvalFn) es last env (st : St) :
  evalBegin rec (ETok "begin" :: es ++ [last]) env st =
  bind (evalEach rec es env) (fun _ => ret last) st.
Proof.
  unfold evalBegin.
  assert (length (ETok "begin" :: es ++ [last]) = S (S (length es))) as Hlen
    by (cbn; rewrite length_app; cbn; lia).
  rewrite Hlen.
  replace (Nat.ltb (S (S (length es))) 2) with false
    by (symmetry; apply Nat.ltb_ge; lia).
  replace (S (S (length es)) - 2) with (length es) by lia.
  replace (S (S (length es)) - 1) with (S (length es)) by lia.
  cbn [drop]. rewrite drop_0, take_app_length.
  unfold bind. destruct (evalEach rec es env st) as [[u | e | | ] st1]; try reflexivity.
  assert ((ETok "begin" :: es ++ [last]) !! S (length es) = Some last) as Hl
    by (change ((es ++ [last]) !! length es = Some last);
        apply list_lookup_middle; reflexivity).
  unfold index. rewrite Hl. reflexivity.
Qed.

Lemma Eval_if f k rest env (st : St) :
  Eval (S f) (S k) (ECompound (ETok "if" :: rest)) env st =
  bind (evalIf (Eval f k) (ETok "if" :: rest) env)
       (fun e => Eval f (S k) e env) st.
Proof.
  rewrite Eval_step. unfold body. cbn.
  rewrite bind_assoc. reflexivity.
Qed.

Lemma Eval_begin f k rest env (st : St) :
  Eval (S f) (S k) (ECompound (ETok "begin" :: rest)) env st =
  bind (evalBegin (Eval f k) (ETok "begin" :: rest) env)
       (fun e => Eval f (S k) e env) st.
Proof.
  rewrite Eval_step. unfold body. cbn -[evalBegin].
  rewrite bind_assoc. reflexivity.
Qed.

Lemma Eval_cond f k rest env (st : St) :
  Eval (S f) (S k) (ECompound (ETok "cond" :: rest)) env st =
  bind (condClausesToIf rest) (fun e => Eval f k e env) st.
Proof.
  rewrite Eval_step. unfold body. cbn -[condClausesToIf].
  unfold done, evalCond, expandCond, condClauses, sliceFrom. cbn -[condClausesToIf].
  rewrite drop_0.
  unfold bind, ret.
  destruct (condClausesToIf rest st) as [[e | e | | ] st1]; try reflexivity.
  destruct (Eval f k e env st1) as [[v | e' | | ] st2]; reflexivity.
Qed.

End Conditionals.

(** C6: in an [if] form the test is evaluated first, by a nested call.
    When its value is true the form goes on with the consequent, whatever
    the alternative is; otherwise it goes on with the alternative,
    whatever the consequent is, and when no alternative was written the
    form evaluates to the unspecified sentinel.  The branch is evaluated
    in the store the test left, and a test that panics ends the form
    before any branch is looked at. *)
Theorem if_evaluates_test_then_one_branch `{host : Host} (f k : nat)
    (test conseq : Expression Number) (rest : list (Expression Number))
    (env : EnvRef) (st : State Number) :
  (forall v st1, Eval f k test env st = (Ok v, st1) -> IsTrue v = true ->
     Eval (S f) (S k) (ECompound (ETok "if" :: test :: conseq :: rest)) env st
     = Eval f (S k) conseq env st1)
  /\ (forall v st1 alt more, Eval f k test env st = (Ok v, st1) -> IsTrue v = false ->
        rest = alt :: more ->
        Eval (S f) (S k) (ECompound (ETok "if" :: test :: conseq :: rest)) env st
        = Eval f (S k) alt env st1)
  /\ (forall v st1, Eval f k test env st = (Ok v, st1) -> IsTrue v = false ->
        Eval (S f) (S k) (ECompound [ETok "if"; test; conseq]) env st
        = (Ok EUndef, st1))
  /\ (forall e st1, Eval f k test env st = (Panic e, st1) ->
        Eval (S f) (S k) (ECompound (ETok "if" :: test :: conseq :: rest)) env st
        = (Panic e, st1)).
Proof.
  split; [| split; [| split]].
  - intros v st1 Ht Hv.
    rewrite Eval_if. unfold bind at 1. rewrite evalIf_selects.
    rewrite (bind_ok _ _ _ _ _ Ht). cbn. rewrite Hv. reflexivity.
  - intros v st1 alt more Ht Hv ->.
    rewrite Eval_if. unfold bind at 1. rewrite evalIf_selects.
    rewrite (bind_ok _ _ _ _ _ Ht). cbn. rewrite Hv. reflexivity.
  - intros v st1 Ht Hv.
    destruct (Eval_definite_pos _ _ _ _ _ _ _ Ht eq_refl) as (f' & k' & -> & ->).
    rewrite Eval_if. unfold bind at 1. rewrite evalIf_selects.
    rewrite (bind_ok _ _ _ _ _ Ht). cbn. rewrite Hv. reflexivity.
  - intros e st1 Ht.
    rewrite Eval_if. unfold bind at 1. rewrite evalIf_selects.
    rewrite (bind_panic _ _ _ _ _ Ht). reflexivity.
Qed.

(** [(if #f boom)] is the unspecified sentinel although [boom] is unbound;
    [(if #t 1 boom)] is [1]. *)
Lemma if_evaluates_test_then_one_branch_witness :
  Eval 3 2 (form [tok "if"; tok "#f"; tok "boom"]) 0 rootState = (Ok EUndef, rootState)
  /\ Eval 3 2 (form [tok "if"; tok "#t"; tok "1"; tok "boom"]) 0 rootState
     = Eval 2 2 (tok "1") 0 rootState.
Proof.
  split.
  - apply (proj1 (proj2 (proj2
      (if_evaluates_test_then_one_branch (host := demo) 2 1 (tok "#f") (tok "boom") [] 0 rootState)))
      (EBool false) rootState); reflexivity.
  - apply (proj1
      (if_evaluates_test_then_one_branch (host := demo) 2 1 (tok "#t") (tok "1") [tok "boom"] 0 rootState)
      (EBool true) rootState); reflexivity.
Defined.

(** ** The trampoline *)

(** C1, as the code has it: [if] and [begin] do not call [Eval] on what
    they select.  [evalIf] and [evalBegin] hand the selected branch, or
    the final sub-expression, back to the loop, which goes on with it in
    the same activation (the stack it has, [S k]); only the test and the
    leading sub-expressions are evaluated by nested calls (stack [k]).
    [cond] is different: [evalCond] calls [Eval] on the expanded
    expression, a nested call with one unit of stack less. *)
Theorem trampoline_for_if_and_begin `{host : Host} (f k : nat) (env : EnvRef)
    (st : State Number) :
  (forall rest,
     Eval (S f) (S k) (ECompound (ETok "if" :: rest)) env st
     = bind (evalIf (Eval f k) (ETok "if" :: rest) env)
            (fun next => Eval f (S k) next env) st)
  /\ (forall rec test conseq rest,
        evalIf rec (ETok "if" :: test :: conseq :: rest) env st
        = bind (rec test env)
               (fun v => ret (if IsTrue v then conseq else alternative rest)) st)
  /\ (forall rest,
        Eval (S f) (S k) (ECompound (ETok "begin" :: rest)) env st
        = bind (evalBegin (Eval f k) (ETok "begin" :: rest) env)
               (fun next => Eval f (S k) next env) st)
  /\ (forall rec es last,
        evalBegin rec (ETok "begin" :: es ++ [last]) env st
        = bind (evalEach rec es env) (fun _ => ret last) st)
  /\ (forall clauses,
        Eval (S f) (S k) (ECompound (ETok "cond" :: clauses)) env st
        = bind (condClausesToIf clauses) (fun expanded => Eval f k expanded env) st).
Proof.
  split; [| split; [| split; [| split]]].
  - intros rest. apply Eval_if.
  - intros rec test conseq rest. apply evalIf_selects.
  - intros rest. apply Eval_begin.
  - intros rec es last. apply evalBegin_last.
  - intros clauses. apply Eval_cond.
Qed.

(** C1 fails for [cond]: a countdown that calls itself in tail position
    through [if] runs from 50 in a stack of three activations; the same
    countdown written with [cond] exhausts a stack of forty, and one
    [cond] needs an activation more than the expression it expands to. *)
Lemma cond_grows_the_stack :
  fst (program 2000 3 [countdown_if; countdown_from "50"] ENil rootState)
    = Ok (ENumber 0%Z)
  /\ fst (program 2000 40 [countdown_cond; countdown_from "50"] ENil rootState)
     = StackOverflow
  /\ run 10 1 (form [tok "cond"; form [tok "else"; tok "1"]]) = StackOverflow
  /\ run 10 1 (form [tok "begin"; tok "1"]) = Ok (ENumber 1%Z).
Proof. vm_compute. repeat split. Qed.

(** ** [and] and [or] *)

Section Connectives.
Context `{host : Host}.

Abbreviation Expr := (Expression Number).
Abbreviation St := (State Number).

Lemma Eval_and f k es env (st : St) :
  Eval (S f) (S k) (ECompound (ETok "and" :: es)) env st =
  evalAnd (Eval f k) (ECompound (ETok "and" :: es)) env st.
Proof.
  rewrite Eval_step. unfold body. cbn -[evalAnd]. unfold done.
  rewrite bind_assoc. unfold bind, ret.
  destruct (evalAnd _ _ _ st) as [[v | e | | ] st1]; reflexivity.
Qed.

Lemma Eval_or f k es env (st : St) :
  Eval (S f) (S k) (ECompound (ETok "or" :: es)) env st =
  evalOr (Eval f k) (ECompound (ETok "or" :: es)) env st.
Proof.
  rewrite Eval_step. unfold body. cbn -[evalOr]. unfold done.
  rewrite bind_assoc. unfold bind, ret.
  destruct (evalOr _ _ _ st) as [[v | e | | ] st1]; reflexivity.
Qed.

Lemma evalAnd_operands (rec : EvalFn) e es env :
  evalAnd rec (ECompound (ETok "and" :: e :: es)) env = andLoop rec (e :: es) env.
Proof. reflexivity. Qed.

Lemma evalOr_operands (rec : EvalFn) e es env :
  evalOr rec (ECompound (ETok "or" :: e :: es)) env = orLoop rec (e :: es) env.
Proof. reflexivity. Qed.

(** The loop stops at the first operand that is not true. *)
Lemma andLoop_stops (rec : EvalFn) env pre e post (st st1 st2 : St) v :
  EvalsAllTo rec env true pre st st1 ->
  rec e env st1 = (Ok v, st2) -> IsTrue v = false ->
  andLoop rec (pre ++ e :: post) env st = (Ok (EBool false), st2).
Proof.
  intros Hpre He Hv. induction Hpre as [st | e0 es st v0 st0 st1 H0 Hv0 _ IH].
  - cbn. rewrite (bind_ok _ _ _ _ _ He). rewrite Hv. reflexivity.
  - cbn. rewrite (bind_ok _ _ _ _ _ H0). rewrite Hv0. cbn. apply IH. exact He.
Qed.

Lemma andLoop_through (rec : EvalFn) env es (st st1 : St) :
  EvalsAllTo rec env true es st st1 ->
  andLoop rec es env st = (Ok (EBool true), st1).
Proof.
  induction 1 as [st | e0 es st v0 st0 st1 H0 Hv0 _ IH].
  - reflexivity.
  - cbn. rewrite (bind_ok _ _ _ _ _ H0). rewrite Hv0. cbn. exact IH.
Qed.

(** The loop stops at the first operand that is true. *)
Lemma orLoop_stops (rec : EvalFn) env pre e post (st st1 st2 : St) v :
  EvalsAllTo rec env false pre st st1 ->
  rec e env st1 = (Ok v, st2) -> IsTrue v = true ->
  orLoop rec (pre ++ e :: post) env st = (Ok (EBool true), st2).
Proof.
  intros Hpre He Hv. induction Hpre as [st | e0 es st v0 st0 st1 H0 Hv0 _ IH].
  - cbn. rewrite (bind_ok _ _ _ _ _ He). rewrite Hv. reflexivity.
  - cbn. rewrite (bind_ok _ _ _ _ _ H0). rewrite Hv0. apply IH. exact He.
Qed.

Lemma orLoop_through (rec : EvalFn) env es (st st1 : St) :
  EvalsAllTo rec env false es st st1 ->
  orLoop rec es env st = (Ok (EBool false), st1).
Proof.
  induction 1 as [st | e0 es st v0 st0 st1 H0 Hv0 _ IH].
  - reflexivity.
  - cbn. rewrite (bind_ok _ _ _ _ _ H0). rewrite Hv0. exact IH.
Qed.

(** Whatever the operands are, a value of the loop is a boolean. *)
Lemma andLoop_boolean (rec : EvalFn) env es (st st' : St) v :
  andLoop rec es env st = (Ok v, st') -> exists b, v = EBool b.
Proof.
  revert st. induction es as [| e es IH]; intros st.
  - cbn. intros [= <- _]. exists true. reflexivity.
  - cbn. intros H. apply bind_ok_inv in H as (v0 & st0 & _ & H).
    destruct (IsTrue v0); cbn in H.
    + apply (IH _ H).
    + injection H as <- _. exists false. reflexivity.
Qed.

Lemma orLoop_boolean (rec : EvalFn) env es (st st' : St) v :
  orLoop rec es env st = (Ok v, st') -> exists b, v = EBool b.
Proof.
  revert st. induction es as [| e es IH]; intros st.
  - cbn. intros [= <- _]. exists false. reflexivity.
  - cbn. intros H. apply bind_ok_inv in H as (v0 & st0 & _ & H).
    destruct (IsTrue v0); cbn in H.
    + injection H as <- _. exists true. reflexivity.
    + apply (IH _ H).
Qed.

End Connectives.

(** C5: [and] and [or] evaluate their operands from left to right.
    [and] is false at the first operand that is not true, and no operand
    after it is evaluated (the result and the store do not depend on
    them); it is true when every operand is true.  [or] is true at the
    first operand that is true, false when none is.  With no operand both
    panic.  Their value is always one of the two booleans, never the
    value of an operand. *)
Theorem and_or_short_circuit `{host : Host} (f k : nat) (env : EnvRef)
    (st : State Number) :
  Eval (S f) (S k) (ECompound [ETok "and"]) env st
    = (Panic (ErrText "and require at least 1 argument"), st)
  /\ Eval (S f) (S k) (ECompound [ETok "or"]) env st
     = (Panic (ErrText "or require at least 1 argument"), st)
  /\ (forall pre e post st1 v st2,
        EvalsAllTo (Eval f k) env true pre st st1 ->
        Eval f k e env st1 = (Ok v, st2) -> IsTrue v = false ->
        Eval (S f) (S k) (ECompound (ETok "and" :: pre ++ e :: post)) env st
        = (Ok (EBool false), st2))
  /\ (forall e es st1,
        EvalsAllTo (Eval f k) env true (e :: es) st st1 ->
        Eval (S f) (S k) (ECompound (ETok "and" :: e :: es)) env st
        = (Ok (EBool true), st1))
  /\ (forall pre e post st1 v st2,
        EvalsAllTo (Eval f k) env false pre st st1 ->
        Eval f k e env st1 = (Ok v, st2) -> IsTrue v = true ->
        Eval (S f) (S k) (ECompound (ETok "or" :: pre ++ e :: post)) env st
        = (Ok (EBool true), st2))
  /\ (forall e es st1,
        EvalsAllTo (Eval f k) env false (e :: es) st st1 ->
        Eval (S f) (S k) (ECompound (ETok "or" :: e :: es)) env st
        = (Ok (EBool false), st1))
  /\ (forall es v st',
        Eval (S f) (S k) (ECompound (ETok "and" :: es)) env st = (Ok v, st') ->
        exists b, v = EBool b)
  /\ (forall es v st',
        Eval (S f) (S k) (ECompound (ETok "or" :: es)) env st = (Ok v, st') ->
        exists b, v = EBool b).
Proof.
  split; [| split; [| split; [| split; [| split; [| split; [| split]]]]]].
  - rewrite Eval_and. reflexivity.
  - rewrite Eval_or. reflexivity.
  - intros pre e post st1 v st2 Hpre He Hv. rewrite Eval_and.
    destruct pre as [| p pre]; cbn [app]; rewrite evalAnd_operands.
    + apply (andLoop_stops _ _ [] e post st st1 st2 v Hpre He Hv).
    + apply (andLoop_stops _ _ (p :: pre) e post st st1 st2 v Hpre He Hv).
  - intros e es st1 Hall. rewrite Eval_and, evalAnd_operands.
    apply andLoop_through. exact Hall.
  - intros pre e post st1 v st2 Hpre He Hv. rewrite Eval_or.
    destruct pre as [| p pre]; cbn [app]; rewrite evalOr_operands.
    + apply (orLoop_stops _ _ [] e post st st1 st2 v Hpre He Hv).
    + apply (orLoop_stops _ _ (p :: pre) e post st st1 st2 v Hpre He Hv).
  - intros e es st1 Hall. rewrite Eval_or, evalOr_operands.
    apply orLoop_through. exact Hall.
  - intros es v st' H. rewrite Eval_and in H.
    destruct es as [| e es]; [discriminate |].
    rewrite evalAnd_operands in H. apply (andLoop_boolean _ _ _ _ _ _ H).
  - intros es v st' H. rewrite Eval_or in H.
    destruct es as [| e es]; [discriminate |].
    rewrite evalOr_operands in H. apply (orLoop_boolean _ _ _ _ _ _ H).
Qed.

(** [(and #t #t #f X)] is false and [(or #f #f #t X)] is true, with [X]
    unbound. *)
Lemma and_or_short_circuit_witness :
  Eval 3 2 (form [tok "and"; tok "#t"; tok "#t"; tok "#f"; tok "X"]) 0 rootState
    = (Ok (EBool false), rootState)
  /\ Eval 3 2 (form [tok "or"; tok "#f"; tok "#f"; tok "#t"; tok "X"]) 0 rootState
     = (Ok (EBool true), rootState).
Proof.
  split.
  - apply (proj1 (proj2 (proj2 (and_or_short_circuit (host := demo) 2 1 0 rootState)))
             [tok "#t"; tok "#t"] (tok "#f") [tok "X"] rootState (EBool false) rootState).
    + apply (EvalsAllTo_cons (host := demo) _ _ _ _ _ _ (EBool true) rootState rootState);
        [reflexivity | reflexivity |].
      apply (EvalsAllTo_cons (host := demo) _ _ _ _ _ _ (EBool true) rootState rootState);
        [reflexivity | reflexivity |].
      apply (EvalsAllTo_nil (host := demo)).
    + reflexivity.
    + reflexivity.
  - apply (proj1 (proj2 (proj2 (proj2 (proj2
             (and_or_short_circuit (host := demo) 2 1 0 rootState)))))
             [tok "#f"; tok "#f"] (tok "#t") [tok "X"] rootState (EBool true) rootState).
    + apply (EvalsAllTo_cons (host := demo) _ _ _ _ _ _ (EBool false) rootState rootState);
        [reflexivity | reflexivity |].
      apply (EvalsAllTo_cons (host := demo) _ _ _ _ _ _ (EBool false) rootState rootState);
        [reflexivity | reflexivity |].
      apply (EvalsAllTo_nil (host := demo)).
    + reflexivity.
    + reflexivity.
Defined.

(** ** Application *)

Section Application.
Context `{host : Host}.

Abbreviation Expr := (Expression Number).
Abbreviation St := (State Number).

(** The dispatch of the final [else] on the kind of the operator's
    value. *)
Lemma Eval_application f k h args env (st : St) :
  isKeyword h = false -> eqTok h "quote" = false ->
  Eval (S f) (S k) (ECompound (h :: args)) env st =
  bind (Eval f k h env)
    (fun fn =>
       match fn with
       | EFunction name =>
         bind (evalArgs (Eval f k) args env) (fun vs => callBuiltin (Eval f k) name vs)
       | ELambda params body cenv =>
         bind (allocEnv cenv)
           (fun a =>
              if negb (Nat.eqb (length args) (length params))
              then panic (ErrArity fn (length params) (length args))
              else bind (bindArgs (Eval f k) a params 0 args env)
                        (fun _ => Eval f (S k) (Body body) a))
       | _ => panic (ErrNotCallable fn)
       end) st.
Proof.
  intros Hk Hq. rewrite Eval_step, body_application by exact Hk.
  unfold application, isQuoteExpression, sliceFrom, index, done, bind, ret, panic,
    allocEnv.
  cbn -[Eval evalArgs bindArgs callBuiltin]. rewrite Hq, drop_0.
  destruct (Eval f k h env st) as [[fn | e | | ] st1]; try reflexivity.
  destruct fn as [ | | | s | n | b | s | s | es | car cdr | name
                  | params lbody cenv | e cenv ]; try reflexivity.
  - (* builtin *)
    destruct (evalArgs (Eval f k) args env st1) as [[vs | e | | ] st2]; try reflexivity.
    destruct (callBuiltin (Eval f k) name vs st2) as [[v | e | | ] st3]; reflexivity.
  - (* closure *)
    destruct (negb (Nat.eqb (length args) (length params))); [reflexivity |].
    match goal with
    | |- context [bindArgs ?r ?a ?p ?i ?o ?e ?s] =>
      destruct (bindArgs r a p i o e s) as [[u | e0 | | ] st3]
    end; reflexivity.
Qed.

Lemma evalArgs_in_order (rec : EvalFn) env es (st st' : St) vs :
  EvalsInOrder rec env es st vs st' -> evalArgs rec es env st = (Ok vs, st').
Proof.
  induction 1 as [st | e es st v st1 vs st2 He _ IH].
  - reflexivity.
  - cbn. rewrite (bind_ok _ _ _ _ _ He). rewrite (bind_ok _ _ _ _ _ IH). reflexivity.
Qed.

Lemma evalArgs_ok_in_order (rec : EvalFn) env es (st st' : St) vs :
  evalArgs rec es env st = (Ok vs, st') -> EvalsInOrder rec env es st vs st'.
Proof.
  revert st vs. induction es as [| e es IH]; intros st vs.
  - cbn. intros [= <- <-]. constructor.
  - cbn. intros H.
    apply bind_ok_inv in H as (v & st1 & He & H).
    apply bind_ok_inv in H as (vs' & st2 & Hes & H).
    injection H as <- <-.
    econstructor; [exact He | apply IH; exact Hes].
Qed.

(** The first operand that fails ends the loop with its failure. *)
Lemma evalArgs_fails (rec : EvalFn) env pre e post (st st1 st2 : St) vs err :
  EvalsInOrder rec env pre st vs st1 ->
  rec e env st1 = (Panic err, st2) ->
  evalArgs rec (pre ++ e :: post) env st = (Panic err, st2).
Proof.
  intros Hpre He. induction Hpre as [st | e0 es st v st0 vs st1 H0 _ IH].
  - cbn. rewrite (bind_panic _ _ _ _ _ He). reflexivity.
  - cbn. rewrite (bind_ok _ _ _ _ _ H0).
    rewrite (bind_panic _ _ _ _ _ (IH He)). reflexivity.
Qed.

Lemma bindArgs_in_order (rec : EvalFn) env a ps es vs (st st' : St) :
  BindsInOrder rec env a ps es vs st st' ->
  forall done_ps, bindArgs rec a (done_ps ++ ps) (length done_ps) es env st = (Ok tt, st').
Proof.
  induction 1 as [st | p ps e es v vs st st1 st2 He _ IH]; intros done_ps.
  - reflexivity.
  - cbn [bindArgs].
    rewrite list_lookup_middle by reflexivity.
    rewrite (bind_ok _ _ _ _ _ He).
    unfold bind at 1. cbn [EnvSet].
    specialize (IH (done_ps ++ [p])).
    rewrite <- app_assoc, length_app in IH. cbn [length app] in IH.
    replace (length done_ps + 1) with (S (length done_ps)) in IH by lia.
    exact IH.
Qed.

Lemma BindsInOrder_length (rec : EvalFn) env a ps es vs (st st' : St) :
  BindsInOrder rec env a ps es vs st st' ->
  length es = length ps /\ length vs = length ps.
Proof. induction 1 as [| ? ? ? ? ? ? ? ? ? _ _ [IH1 IH2]]; cbn; split; congruence. Qed.

End Application.

(** ** The store only grows *)

Section Store.
Context `{host : Host}.

Abbreviation Expr := (Expression Number).
Abbreviation St := (State Number).

(** Induction on expressions that reaches the elements of compound forms
    and of closure bodies. *)
Lemma Expression_nested_ind (P : Expr -> Prop) :
  P ENil -> P ENilObj -> P EUndef ->
  (forall s, P (ETok s)) -> (forall n, P (ENumber n)) -> (forall b, P (EBool b)) ->
  (forall s, P (EString s)) -> (forall s, P (EQuote s)) ->
  (forall es, Forall P es -> P (ECompound es)) ->
  (forall car cdr, P car -> P cdr -> P (EPair car cdr)) ->
  (forall name, P (EFunction name)) ->
  (forall params lbody env, Forall P lbody -> P (ELambda params lbody env)) ->
  (forall e env, P e -> P (EThunk e env)) ->
  forall e, P e.
Proof.
  intros HNil HNilObj HUndef HTok HNum HBool HStr HQuote HComp HPair HFun HLam HThunk.
  fix IH 1.
  intros [ | | | s | n | b | s | s | es | car cdr | name | params lbody env | e env ].
  - exact HNil.
  - exact HNilObj.
  - exact HUndef.
  - apply HTok.
  - apply HNum.
  - apply HBool.
  - apply HStr.
  - apply HQuote.
  - apply HComp. induction es as [| x l IHl]; constructor; [apply IH | exact IHl].
  - apply HPair; apply IH.
  - apply HFun.
  - apply HLam. induction lbody as [| x l IHl]; constructor; [apply IH | exact IHl].
  - apply HThunk. apply IH.
Qed.

Lemma extends_refl (st : St) : extends st st.
Proof. intros a fr H. exists fr. split; [exact H | reflexivity]. Qed.

Lemma extends_trans (st1 st2 st3 : St) :
  extends st1 st2 -> extends st2 st3 -> extends st1 st3.
Proof.
  intros H12 H23 a fr H.
  destruct (H12 a fr H) as (fr2 & H2 & E2).
  destruct (H23 a fr2 H2) as (fr3 & H3 & E3).
  exists fr3. split; [exact H3 | congruence].
Qed.

(** Printing leaves the frames alone. *)
Lemma extends_out (st : St) o : extends st (mkState (heap st) o).
Proof. intros a fr H. exists fr. split; [exact H | reflexivity]. Qed.

Lemma preserving_unchanged {A} (m : M A) : unchanged m -> preserving m.
Proof. intros H st. rewrite H. apply extends_refl. Qed.

Lemma preserving_ret {A} (a : A) : preserving (ret a).
Proof. intros st. apply extends_refl. Qed.

Lemma preserving_panic {A} e : preserving (panic (A := A) e).
Proof. intros st. apply extends_refl. Qed.

Lemma preserving_bind {A B} (m : M A) (k : A -> M B) :
  preserving m -> (forall a, preserving (k a)) -> preserving (bind m k).
Proof.
  intros Hm Hk st. unfold bind.
  specialize (Hm st). destruct (m st) as [[a | e | | ] st1]; cbn in *; try exact Hm.
  apply (extends_trans _ st1); [exact Hm | apply Hk].
Qed.

Lemma unchanged_ret {A} (a : A) : unchanged (ret a).
Proof. intros st. reflexivity. Qed.

Lemma unchanged_panic {A} e : unchanged (panic (A := A) e).
Proof. intros st. reflexivity. Qed.

Lemma unchanged_bind {A B} (m : M A) (k : A -> M B) :
  unchanged m -> (forall a, unchanged (k a)) -> unchanged (bind m k).
Proof.
  intros Hm Hk st. unfold bind.
  specialize (Hm st). destruct (m st) as [[a | e | | ] st1]; cbn in *; try exact Hm.
  subst st1. apply Hk.
Qed.

Lemma unchanged_index l i : unchanged (index l i).
Proof. unfold index. destruct (l !! i); intros st; reflexivity. Qed.

Lemma unchanged_sliceFrom n l : unchanged (sliceFrom n l).
Proof. unfold sliceFrom. destruct (Nat.ltb (length l) n); intros st; reflexivity. Qed.

Lemma unchanged_Find env s : unchanged (Find env s).
Proof.
  intros st. unfold Find. destruct (Find_from (S env) (heap st) env s); reflexivity.
Qed.

Lemma unchanged_expToString e : unchanged (expToString e).
Proof. unfold expToString. destruct (firstQuoted _); intros st; reflexivity. Qed.

Lemma unchanged_expressionToNumber e : unchanged (expressionToNumber e).
Proof.
  unfold expressionToNumber.
  destruct (negb (IsNumber e)); [apply unchanged_panic |].
  destruct e; apply unchanged_ret.
Qed.

Lemma unchanged_transExpressionToSymbol e : unchanged (transExpressionToSymbol e).
Proof.
  unfold transExpressionToSymbol.
  destruct (IsSymbol e); [apply unchanged_ret | apply unchanged_panic].
Qed.

Lemma unchanged_transAll es : unchanged (transAll es).
Proof.
  induction es as [| e es IH]; cbn.
  - apply unchanged_ret.
  - apply unchanged_bind; [apply unchanged_transExpressionToSymbol | intros s].
    apply unchanged_bind; [exact IH | intros ss]. apply unchanged_ret.
Qed.

(** The loop inside [evalQuote] is [quoteAll]. *)
Lemma evalQuote_compound es env :
  evalQuote (ECompound es) env = bind (quoteAll es env) (fun args => ret (listImpl args)).
Proof.
  cbn [evalQuote]. f_equal.
  induction es as [| e es IH]; [reflexivity |].
  cbn [quoteAll]. rewrite <- IH. reflexivity.
Qed.

Lemma unchanged_evalQuote e env : unchanged (evalQuote e env).
Proof.
  induction e as [ | | | s | n | b | s | s | es IH | car cdr _ _ | name
                 | params lbody cenv _ | e0 cenv _ ] using Expression_nested_ind;
    try apply unchanged_panic.
  - cbn. destruct (IsNumberTok s); [apply unchanged_expressionToNumber |].
    destruct (IsStringTok s); [apply unchanged_expToString | apply unchanged_ret].
  - apply unchanged_ret.
  - rewrite evalQuote_compound.
    apply unchanged_bind; [| intros args; apply unchanged_ret].
    induction IH as [| e es He _ IHes]; cbn.
    + apply unchanged_ret.
    + apply unchanged_bind; [exact He | intros a].
      apply unchanged_bind; [exact IHes | intros rest]. apply unchanged_ret.
Qed.

Lemma unchanged_condClausesToIf cs : unchanged (condClausesToIf cs).
Proof.
  induction cs as [| c rest IH]; cbn [condClausesToIf].
  - apply unchanged_ret.
  - destruct c; try apply unchanged_panic.
    apply unchanged_bind.
    + unfold isElseClause.
      apply unchanged_bind; [apply unchanged_index | intros h; apply unchanged_ret].
    + intros isElse. destruct isElse.
      * destruct (negb _); [apply unchanged_panic |].
        apply unchanged_bind; [| intros ps; apply unchanged_ret].
        apply unchanged_bind; [apply unchanged_sliceFrom | intros ps; apply unchanged_ret].
      * apply unchanged_bind; [apply unchanged_index | intros cnd].
        apply unchanged_bind.
        { apply unchanged_bind; [apply unchanged_sliceFrom | intros ps; apply unchanged_ret]. }
        intros ps. apply unchanged_bind; [exact IH | intros alt; apply unchanged_ret].
Qed.

Lemma preserving_print o : preserving (print o).
Proof. intros st. apply extends_out. Qed.

Lemma preserving_EnvSet env s v : preserving (EnvSet env s v).
Proof.
  intros st a fr H. cbn.
  destruct (decide (a = env)) as [-> | Hne].
  - exists (mkEnv (outer fr) (<[s := v]> (frame fr))). split; [| reflexivity].
    rewrite list_lookup_alter_eq, H. reflexivity.
  - exists fr. split; [| reflexivity].
    rewrite list_lookup_alter_ne by congruence. exact H.
Qed.

Lemma preserving_allocEnv o : preserving (allocEnv o).
Proof.
  intros st a fr H. cbn. exists fr. split; [| reflexivity].
  apply lookup_app_l_Some. exact H.
Qed.

Lemma preserving_runNative rec t : preservingFn rec -> preserving (runNative rec t).
Proof.
  intros Hrec. induction t as [o r | o e env next IH]; cbn [runNative].
  - intros st. apply extends_out.
  - apply preserving_bind; [| intros v; apply IH].
    intros st. apply (extends_trans _ (mkState (heap st) (out st ++ o)));
      [apply extends_out | apply Hrec].
Qed.

Lemma preserving_callBuiltin rec name args :
  preservingFn rec -> preserving (callBuiltin rec name args).
Proof. apply preserving_runNative. Qed.

Lemma extends_length (st st' : St) :
  extends st st' -> length (heap st) <= length (heap st').
Proof.
  intros H. destruct (le_lt_dec (length (heap st)) (length (heap st'))) as [Hle | Hlt];
    [exact Hle | exfalso].
  destruct (lookup_lt_is_Some_2 (heap st) (length (heap st')) Hlt) as [fr Hfr].
  destruct (H _ _ Hfr) as (fr' & Hfr' & _).
  apply lookup_lt_Some in Hfr'. lia.
Qed.

End Store.

Section StoreOfEval.
Context `{host : Host}.

Abbreviation Expr := (Expression Number).
Abbreviation St := (State Number).

Ltac preserve :=
  repeat first
    [ apply preserving_ret
    | apply preserving_panic
    | apply preserving_print
    | apply preserving_EnvSet
    | apply preserving_allocEnv
    | apply preserving_callBuiltin; assumption
    | apply preserving_unchanged, unchanged_index
    | apply preserving_unchanged, unchanged_sliceFrom
    | apply preserving_unchanged, unchanged_Find
    | apply preserving_unchanged, unchanged_expToString
    | apply preserving_unchanged, unchanged_expressionToNumber
    | apply preserving_unchanged, unchanged_transExpressionToSymbol
    | apply preserving_unchanged, unchanged_transAll
    | apply preserving_unchanged, unchanged_evalQuote
    | apply preserving_unchanged, unchanged_condClausesToIf
    | match goal with
      | H : preservingFn ?rec |- preserving (?rec _ _) => apply H
      | H : preserving ?m |- preserving ?m => exact H
      | H : forall _, preserving _ |- preserving _ => apply H
      | H : forall _ _, preserving _ |- preserving _ => apply H
      | |- preserving (bind _ _) => apply preserving_bind; [| intros ?]
      | |- preserving (if ?b then _ else _) => destruct b
      | |- preserving (match ?x with _ => _ end) => destruct x
      end ].

Lemma preserving_andLoop rec es env : preservingFn rec -> preserving (andLoop rec es env).
Proof. intros Hrec. induction es as [| e es IH]; cbn [andLoop]; preserve. Qed.

Lemma preserving_orLoop rec es env : preservingFn rec -> preserving (orLoop rec es env).
Proof. intros Hrec. induction es as [| e es IH]; cbn [orLoop]; preserve. Qed.

Lemma preserving_evalEach rec es env : preservingFn rec -> preserving (evalEach rec es env).
Proof. intros Hrec. induction es as [| e es IH]; cbn [evalEach]; preserve. Qed.

Lemma preserving_evalArgs rec es env : preservingFn rec -> preserving (evalArgs rec es env).
Proof. intros Hrec. induction es as [| e es IH]; cbn [evalArgs]; preserve. Qed.

Lemma preserving_bindArgs rec a ps i es env :
  preservingFn rec -> preserving (bindArgs rec a ps i es env).
Proof.
  intros Hrec. revert i. induction es as [| e es IH]; intros i; cbn [bindArgs]; preserve.
Qed.

Lemma preserving_EvalAll_from rec es env r0 :
  preservingFn rec -> preserving (EvalAll_from rec es env r0).
Proof.
  intros Hrec. revert r0. induction es as [| e es IH]; intros r0 st; cbn [EvalAll_from].
  - apply extends_refl.
  - specialize (Hrec e env st).
    destruct (rec e env st) as [[v | err | | ] st1]; cbn in *; try exact Hrec.
    apply (extends_trans _ st1); [exact Hrec | apply IH].
Qed.

Lemma preserving_Run rec forms env : preservingFn rec -> preserving (Run rec forms env).
Proof.
  intros Hrec. induction forms as [| e es IH]; intros st; cbn [Run].
  - apply extends_refl.
  - specialize (Hrec e env st).
    destruct (rec e env st) as [[v | err | | ] st1]; cbn in *; try exact Hrec.
    + apply (extends_trans _ st1); [exact Hrec | apply IH].
    + apply (extends_trans _ st1); [exact Hrec |].
      apply (extends_trans _ (mkState (heap st1) (out st1 ++ [OutPanic err])));
        [apply extends_out | apply IH].
Qed.

Lemma preserving_loadFile rec path env : preservingFn rec -> preserving (loadFile rec path env).
Proof.
  intros Hrec. unfold loadFile.
  destruct (ReadForms _); [apply preserving_Run; exact Hrec | apply preserving_print].
Qed.

Lemma preserving_evalLoad d rec e env : preservingFn rec -> preserving (evalLoad d rec e env).
Proof.
  intros Hrec. revert e. induction d as [| d IH]; intros e; cbn [evalLoad].
  - intros st. apply extends_refl.
  - apply preserving_bind; [apply Hrec | intros v].
    apply preserving_bind; [| intros u; apply preserving_ret].
    destruct v; try apply preserving_panic; try (apply preserving_loadFile; exact Hrec).
    destruct (isList _); [| apply preserving_ret].
    generalize (extractList (EPair v1 v2)). intros l.
    induction l as [| p l IHl]; [apply preserving_ret |].
    apply preserving_bind; [apply IH | intros r; exact IHl].
Qed.

Lemma preserving_body rec d e env : preservingFn rec -> preserving (body rec d e env).
Proof.
  intros Hrec. unfold body.
  repeat match goal with
         | |- preserving (if ?b then _ else _) => destruct b
         end.
  - preserve.
  - preserve.
  - unfold done. preserve.
  - preserve.
  - unfold done. preserve.
  - unfold done. preserve.
  - unfold done, evalDefine. preserve.
  - unfold done, evalEval, EvalAll. preserve. apply preserving_EvalAll_from. exact Hrec.
  - unfold done, evalApply. preserve.
  - unfold evalIf, conditionOfIfExpression, trueExpOfIfExpression, elseExpOfIfExpression.
    preserve.
  - unfold done, evalCond, expandCond, condClauses. preserve.
  - unfold evalBegin. preserve. apply preserving_evalEach. exact Hrec.
  - unfold done, evalLambda. preserve.
  - unfold done. preserve. apply preserving_evalLoad. exact Hrec.
  - unfold done, evalDelay. preserve.
  - unfold done, evalAnd. preserve. apply preserving_andLoop. exact Hrec.
  - unfold done, evalOr. preserve. apply preserving_orLoop. exact Hrec.
  - unfold application, isQuoteExpression, done. preserve.
    + apply preserving_evalArgs. exact Hrec.
    + apply preserving_bindArgs. exact Hrec.
Qed.

(** Whatever it evaluates, [Eval] leaves every frame that exists in place
    and with the [outer] link it had. *)
Lemma preserving_Eval f : forall k, preservingFn (Eval f k).
Proof.
  induction f as [| f IH]; intros k e env st.
  - apply extends_refl.
  - destruct k as [| k]; [apply extends_refl |].
    rewrite Eval_step.
    apply preserving_bind.
    + apply preserving_body. apply IH.
    + intros [v | e' env']; [apply preserving_ret | apply IH].
Qed.

Lemma BindsInOrder_extends (rec : EvalFn) env a ps es vs (st st' : St) :
  preservingFn rec -> BindsInOrder rec env a ps es vs st st' -> extends st st'.
Proof.
  intros Hrec. induction 1 as [st | p ps e es v vs st st1 st2 He _ IH].
  - apply extends_refl.
  - apply (extends_trans _ st1).
    + specialize (Hrec e env st). rewrite He in Hrec. exact Hrec.
    + apply (extends_trans _ (snd (EnvSet a p v st1))); [apply preserving_EnvSet | exact IH].
Qed.

End StoreOfEval.

(** ** Environment references: what a call can reach *)

Section References.
Context `{host : Host}.

Abbreviation Expr := (Expression Number).
Abbreviation St := (State Number).

Lemma forallb_Forall {A} (f : A -> bool) (l : list A) :
  forallb f l = true <-> Forall (fun x => f x = true) l.
Proof.
  induction l as [| x l IH]; cbn.
  - split; [constructor | reflexivity].
  - rewrite andb_true_iff, IH. split.
    + intros [Hx Hl]. constructor; assumption.
    + intros H. apply Forall_cons in H. exact H.
Qed.

Lemma refsIn_compound R (es : list Expr) :
  refsIn R (ECompound es) = true <-> Forall (fun v => refsIn R v = true) es.
Proof. cbn [refsIn]. apply forallb_Forall. Qed.

Lemma refsIn_lambda R ps (lbody : list Expr) env :
  refsIn R (ELambda ps lbody env) = true
  <-> R env = true /\ Forall (fun v => refsIn R v = true) lbody.
Proof. cbn [refsIn]. rewrite andb_true_iff, forallb_Forall. reflexivity. Qed.

Lemma refsIn_mono (R R' : EnvRef -> bool) :
  (forall r, R r = true -> R' r = true) ->
  forall v : Expr, refsIn R v = true -> refsIn R' v = true.
Proof.
  intros HR v.
  induction v as [ | | | s | n | b | s | s | es IH | car cdr IHcar IHcdr | name
                 | params lbody cenv IH | e0 cenv IH ] using Expression_nested_ind;
    try (intros _; reflexivity).
  - rewrite !refsIn_compound. intros H.
    induction IH as [| e es He _ IHes]; [constructor |].
    apply Forall_cons in H as [H1 H2]. constructor; [apply He, H1 | apply IHes, H2].
  - cbn [refsIn]. rewrite !andb_true_iff. intros [H1 H2]. split; [apply IHcar, H1 | apply IHcdr, H2].
  - rewrite !refsIn_lambda. intros [Hc H]. split; [apply HR, Hc |].
    induction IH as [| e es He _ IHes]; [constructor |].
    apply Forall_cons in H as [H1 H2]. constructor; [apply He, H1 | apply IHes, H2].
  - cbn [refsIn]. rewrite !andb_true_iff. intros [H1 H2]. split; [apply HR, H1 | apply IH, H2].
Qed.

Lemma refsAll_mono (R R' : EnvRef -> bool) (vs : list Expr) :
  (forall r, R r = true -> R' r = true) ->
  Forall (fun v => refsIn R v = true) vs -> Forall (fun v => refsIn R' v = true) vs.
Proof.
  intros HR H. induction H as [| v vs Hv _ IH]; constructor;
    [apply (refsIn_mono R R' HR), Hv | exact IH].
Qed.

Lemma frameRefs_spec R (fr : Env Number) :
  frameRefs R fr = true
  <-> (forall o, outer fr = Some o -> R o = true)
      /\ (forall s v, frame fr !! s = Some v -> refsIn R v = true).
Proof.
  unfold frameRefs. rewrite andb_true_iff, forallb_Forall, Forall_forall. split.
  - intros [Ho Hf]. split.
    + intros o E. rewrite E in Ho. exact Ho.
    + intros s v E. apply (Hf (s, v)). apply elem_of_map_to_list. exact E.
  - intros [Ho Hf]. split.
    + destruct (outer fr) as [o |]; [apply Ho; reflexivity | reflexivity].
    + intros [s v] E. apply elem_of_map_to_list in E. apply (Hf s v E).
Qed.

Lemma storeRefs_spec R (st : St) :
  storeRefs R st = true
  <-> forall b fr, heap st !! b = Some fr -> frameRefs R fr = true.
Proof. unfold storeRefs. rewrite forallb_Forall. apply Forall_lookup. Qed.

Lemma storeRefs_mono (R R' : EnvRef -> bool) (st : St) :
  (forall r, R r = true -> R' r = true) ->
  storeRefs R st = true -> storeRefs R' st = true.
Proof.
  intros HR. rewrite !storeRefs_spec. intros H b fr Hb.
  specialize (H b fr Hb). rewrite frameRefs_spec in *. destruct H as [Ho Hf]. split.
  - intros o E. apply HR, (Ho o E).
  - intros s v E. apply (refsIn_mono R R' HR), (Hf s v E).
Qed.

(** A value found by a lookup is bound in some frame of the store. *)
Lemma Find_from_bound n (h : list (Env Number)) env s v :
  Find_from n h env s = Some v ->
  exists b fr, h !! b = Some fr /\ frame fr !! s = Some v.
Proof.
  revert env. induction n as [| n IH]; intros env; cbn [Find_from]; [discriminate |].
  destruct (h !! env) as [fr |] eqn:E; [| discriminate].
  destruct (frame fr !! s) as [w |] eqn:Ew.
  - intros [= <-]. exists env, fr. split; assumption.
  - destruct (outer fr) as [o |]; [apply IH | discriminate].
Qed.

Lemma refsIn_listImpl R (vs : list Expr) :
  Forall (fun v => refsIn R v = true) vs -> refsIn R (listImpl vs) = true.
Proof.
  induction 1 as [| v vs Hv _ IH]; [reflexivity |].
  cbn [listImpl refsIn]. rewrite Hv, IH. reflexivity.
Qed.

Lemma refsIn_extractList R (v : Expr) :
  refsIn R v = true -> Forall (fun x => refsIn R x = true) (extractList v).
Proof.
  induction v as [ | | | s | n | b | s | s | es IH | car cdr IHcar IHcdr | name
                 | params lbody cenv IH | e0 cenv IH ] using Expression_nested_ind;
    try (intros _; constructor).
  cbn [refsIn extractList]. rewrite andb_true_iff. intros [H1 H2].
  destruct (IsNull car cdr); [constructor |].
  constructor; [exact H1 | apply IHcdr, H2].
Qed.

Lemma refsAll_asSlice R (exp : Expr) :
  refsIn R exp = true -> Forall (fun x => refsIn R x = true) (asSlice exp).
Proof. destruct exp; try (intros _; constructor). apply refsIn_compound. Qed.

Lemma storeRefs_EnvSet R env s (v : Expr) (st : St) :
  storeRefs R st = true -> refsIn R v = true ->
  storeRefs R (snd (EnvSet env s v st)) = true.
Proof.
  rewrite !storeRefs_spec. intros Hs Hv b fr' Hb. cbn [EnvSet snd heap] in Hb.
  destruct (decide (b = env)) as [-> | Hne].
  - rewrite list_lookup_alter_eq in Hb. unfold EnvRef in *.
    destruct (heap st !! env) as [fr |] eqn:E; cbn in Hb; [| discriminate].
    injection Hb as <-. specialize (Hs env fr E).
    rewrite frameRefs_spec in *. destruct Hs as [Ho Hf]. split; [exact Ho |].
    intros s' v' E'. cbn [frame] in E'.
    destruct (decide (s' = s)) as [-> | Hs'].
    + rewrite lookup_insert_eq in E'. injection E' as <-. exact Hv.
    + rewrite lookup_insert_ne in E' by congruence. apply (Hf s' v' E').
  - rewrite list_lookup_alter_ne in Hb by congruence. apply (Hs b fr' Hb).
Qed.

Lemma storeRefs_allocEnv R o (st : St) :
  storeRefs R st = true -> R o = true -> storeRefs R (snd (allocEnv o st)) = true.
Proof.
  intros Hs Ho. unfold storeRefs in *. cbn [allocEnv snd heap].
  rewrite forallb_app, Hs. cbn [forallb].
  unfold frameRefs. cbn [outer frame]. rewrite map_to_list_empty, Ho. reflexivity.
Qed.

(** *** Values of the helpers that leave the state alone *)

Lemma yields_ret {A} (Q : A -> Prop) x : Q x -> yields Q (ret x).
Proof. intros H st y st' [= <- _]. exact H. Qed.

Lemma yields_panic {A} (Q : A -> Prop) e : yields Q (panic e).
Proof. intros st y st'. discriminate. Qed.

Lemma yields_bind {A B} (Q1 : A -> Prop) (Q2 : B -> Prop) (m : M A) (k : A -> M B) :
  yields Q1 m -> (forall a, Q1 a -> yields Q2 (k a)) -> yields Q2 (bind m k).
Proof.
  intros Hm Hk st y st' H. apply bind_ok_inv in H as (a & st1 & Ha & H).
  apply (Hk a (Hm _ _ _ Ha) _ _ _ H).
Qed.

Lemma yields_any {A} (m : M A) : yields (fun _ => True) m.
Proof. intros st y st' _. exact I. Qed.

Lemma yields_index R (l : list Expr) i :
  Forall (fun v => refsIn R v = true) l -> yields (fun v => refsIn R v = true) (index l i).
Proof.
  intros Hl st y st'. unfold index. destruct (l !! i) as [e |] eqn:E; [| discriminate].
  intros [= <- _]. apply (Forall_lookup_1 _ _ _ _ Hl E).
Qed.

Lemma yields_sliceFrom R n (l : list Expr) :
  Forall (fun v => refsIn R v = true) l ->
  yields (Forall (fun v => refsIn R v = true)) (sliceFrom n l).
Proof.
  intros Hl st y st'. unfold sliceFrom. destruct (Nat.ltb _ _); [discriminate |].
  intros [= <- _]. apply Forall_drop, Hl.
Qed.

Lemma yields_expToString R (e : Expr) : yields (fun v => refsIn R v = true) (expToString e).
Proof.
  intros st y st'. unfold expToString. destruct (firstQuoted _); [| discriminate].
  intros [= <- _]. reflexivity.
Qed.

Lemma yields_expressionToNumber R (e : Expr) :
  yields (fun v => refsIn R v = true) (expressionToNumber e).
Proof.
  intros st y st'. unfold expressionToNumber. destruct (negb _); [discriminate |].
  destruct e; intros [= <- _]; reflexivity.
Qed.

Lemma yields_evalQuote R (e : Expr) env : yields (fun v => refsIn R v = true) (evalQuote e env).
Proof.
  induction e as [ | | | s | n | b | s | s | es IH | car cdr _ _ | name
                 | params lbody cenv _ | e0 cenv _ ] using Expression_nested_ind;
    try apply yields_panic.
  - cbn [evalQuote]. destruct (IsNumber _); [apply yields_expressionToNumber |].
    destruct (IsString _); [apply yields_expToString | apply yields_ret; reflexivity].
  - apply yields_ret. reflexivity.
  - rewrite evalQuote_compound.
    apply (yields_bind (Forall (fun v => refsIn R v = true))).
    + induction IH as [| e es He _ IHes]; cbn [quoteAll].
      * apply yields_ret. constructor.
      * apply (yields_bind _ _ _ _ He). intros a Ha.
        apply (yields_bind _ _ _ _ IHes). intros rest Hrest.
        apply yields_ret. constructor; assumption.
    + intros args Hargs. apply yields_ret, refsIn_listImpl, Hargs.
Qed.

Lemma yields_processesOfClause R (l : list Expr) :
  Forall (fun v => refsIn R v = true) l ->
  yields (fun v => refsIn R v = true) (processesOfClause l).
Proof.
  intros Hl. unfold processesOfClause.
  apply (yields_bind _ _ _ _ (yields_sliceFrom R 1 l Hl)). intros ps Hps.
  apply yields_ret, refsIn_compound, Hps.
Qed.

Lemma refsIn_sequenceToExp R (e : Expr) :
  refsIn R e = true -> refsIn R (sequenceToExp e) = true.
Proof. destruct e; cbn; trivial. Qed.

Lemma yields_condClausesToIf R (cs : list Expr) :
  Forall (fun v => refsIn R v = true) cs ->
  yields (fun v => refsIn R v = true) (condClausesToIf cs).
Proof.
  induction 1 as [| c rest Hc _ IH]; cbn [condClausesToIf].
  - apply yields_ret. reflexivity.
  - destruct c; try apply yields_panic.
    apply refsIn_compound in Hc.
    apply (yields_bind _ _ _ _ (yields_any _)). intros isElse _.
    destruct isElse.
    + destruct (negb _); [apply yields_panic |].
      apply (yields_bind _ _ _ _ (yields_processesOfClause R _ Hc)). intros ps Hps.
      apply yields_ret, refsIn_sequenceToExp, Hps.
    + apply (yields_bind _ _ _ _ (yields_index R _ 0 Hc)). intros cnd Hcnd.
      apply (yields_bind _ _ _ _ (yields_processesOfClause R _ Hc)). intros ps Hps.
      apply (yields_bind _ _ _ _ IH). intros alt Halt.
      apply yields_ret. unfold makeIf. cbn [refsIn forallb].
      rewrite Hcnd, (refsIn_sequenceToExp R _ Hps), Halt. reflexivity.
Qed.

Lemma yields_evalLambda R (exp : Expr) env :
  refsIn R exp = true -> R env = true ->
  yields (fun v => refsIn R v = true) (evalLambda exp env).
Proof.
  intros He Henv. unfold evalLambda.
  apply (yields_bind _ _ _ _ (yields_any _)). intros paramOperand _.
  apply (yields_bind _ _ _ _ (yields_sliceFrom R 2 _ (refsAll_asSlice R exp He))).
  intros lbody Hbody.
  apply (yields_bind _ _ _ _ (yields_any _)). intros names _.
  apply yields_ret. unfold makeLambdaProcess. apply refsIn_lambda. split; assumption.
Qed.

Lemma yields_evalDelay R (exp : Expr) env :
  refsIn R exp = true -> R env = true ->
  yields (fun v => refsIn R v = true) (evalDelay exp env).
Proof.
  intros He Henv. unfold evalDelay. destruct exp; try apply yields_panic.
  destruct (Nat.ltb _ _); [apply yields_panic |].
  apply refsIn_compound in He.
  apply (yields_bind _ _ _ _ (yields_index R _ 1 He)). intros e He1.
  apply yields_ret. unfold NewThunk. cbn [refsIn]. rewrite Henv, He1. reflexivity.
Qed.

Lemma unchanged_evalDelay (exp : Expr) env : unchanged (evalDelay exp env).
Proof.
  unfold evalDelay. destruct exp; try apply unchanged_panic.
  destruct (Nat.ltb _ _); [apply unchanged_panic |].
  apply unchanged_bind; [apply unchanged_index | intros e; apply unchanged_ret].
Qed.

Lemma unchanged_evalLambda (exp : Expr) env : unchanged (evalLambda exp env).
Proof.
  unfold evalLambda.
  apply unchanged_bind; [apply unchanged_index | intros paramOperand].
  apply unchanged_bind; [apply unchanged_sliceFrom | intros lbody].
  apply unchanged_bind; [| intros names; apply unchanged_ret].
  destruct paramOperand; try apply unchanged_ret; try apply unchanged_transAll;
    (apply unchanged_bind; [apply unchanged_transExpressionToSymbol
                           | intros s0; apply unchanged_ret]).
Qed.

Lemma unchanged_isQuoteExpression (exp : Expr) : unchanged (isQuoteExpression exp).
Proof.
  unfold isQuoteExpression. destruct (eqTok _ _); [apply unchanged_ret |].
  destruct exp; try apply unchanged_ret.
  apply unchanged_bind; [apply unchanged_index | intros h; apply unchanged_ret].
Qed.

(** *** Confinement *)

Section Confinement.
Variable P : nat -> EnvRef -> bool.
Variable V : nat -> Prop.
Hypothesis P_mono : forall n n' r, n <= n' -> P n r = true -> P n' r = true.
Hypothesis V_mono : forall n n', n <= n' -> V n -> V n'.
Hypothesis P_alloc : forall n, V n -> P (S n) n = true.
Hypothesis law : Lawful host.

Lemma admits_level n n' (v : Expr) :
  n <= n' -> refsIn (P n) v = true -> refsIn (P n') v = true.
Proof. intros Hn. apply refsIn_mono. intros r. apply P_mono, Hn. Qed.

Lemma admitsAll_level n n' (vs : list Expr) :
  n <= n' -> Forall (fun v => refsIn (P n) v = true) vs ->
  Forall (fun v => refsIn (P n') v = true) vs.
Proof. intros Hn. apply refsAll_mono. intros r. apply P_mono, Hn. Qed.

Lemma P_false_level n n' r : n <= n' -> P n' r = false -> P n r = false.
Proof.
  intros Hn H. destruct (P n r) eqn:E; [| reflexivity].
  rewrite (P_mono _ _ _ Hn E) in H. discriminate.
Qed.

Ltac lift :=
  unfold admits, admitsAll, admitsNext, anything in *;
  first
    [ assumption
    | exact I
    | reflexivity
    | match goal with
      | H : refsIn (P ?n) ?v = true |- refsIn (P ?n') ?v = true =>
        apply (admits_level n n' v); [lia | exact H]
      | H : Forall (fun v => refsIn (P ?n) v = true) ?l
        |- Forall (fun v => refsIn (P ?n') v = true) ?l =>
        apply (admitsAll_level n n' l); [lia | exact H]
      | H : P ?n ?r = true |- P ?n' ?r = true =>
        apply (P_mono n n' r); [lia | exact H]
      end ].

Lemma confined_pure {A} n (G : nat -> A -> Prop) (m : M A) :
  unchanged m -> (forall n', n <= n' -> yields (G n') m) -> confined P V n G m.
Proof.
  intros Hu Hy st Hn Hs. rewrite (Hu st).
  split; [exact Hs | split; [lia | split; [reflexivity |]]].
  intros x Hx. destruct (m st) as [r st'] eqn:E. cbn in Hx. subst r.
  apply (Hy _ Hn st x st' E).
Qed.

Lemma confined_ret {A} n (G : nat -> A -> Prop) x :
  (forall n', n <= n' -> G n' x) -> confined P V n G (ret x).
Proof.
  intros H. apply confined_pure; [apply unchanged_ret |].
  intros n' Hn. apply yields_ret, H, Hn.
Qed.

Lemma confined_panic {A} n (G : nat -> A -> Prop) e : confined P V n G (panic e).
Proof.
  apply confined_pure; [apply unchanged_panic |]. intros n' _. apply yields_panic.
Qed.

Lemma confined_bind {A B} n (G : nat -> A -> Prop) (G' : nat -> B -> Prop)
    (m : M A) (k : A -> M B) :
  confined P V n G m ->
  (forall x n1, n <= n1 -> G n1 x -> confined P V n1 G' (k x)) ->
  confined P V n G' (bind m k).
Proof.
  intros Hm Hk st Hn Hs. unfold bind.
  destruct (Hm st Hn Hs) as (Hs1 & Hl1 & Hw1 & Hg1).
  destruct (m st) as [[x | e | | ] st1]; cbn [fst snd] in *;
    try (split; [exact Hs1 | split; [exact Hl1 | split; [exact Hw1 |]]];
         intros y Hy; discriminate).
  destruct (Hk x (length (heap st1)) ltac:(lia) (Hg1 x eq_refl) st1 (le_n _) Hs1)
    as (Hs2 & Hl2 & Hw2 & Hg2).
  split; [exact Hs2 | split; [lia | split; [| exact Hg2]]].
  intros b Hb. rewrite (Hw2 b Hb). apply Hw1. apply (P_false_level _ _ _ Hl2 Hb).
Qed.

Lemma confined_print n o : confined P V n anything (print o).
Proof.
  intros st Hn Hs. cbn [print snd fst heap].
  split; [exact Hs | split; [lia | split; [reflexivity |]]]. intros x _. exact I.
Qed.

Lemma confined_EnvSet n env s (v : Expr) :
  P n env = true -> refsIn (P n) v = true -> confined P V n anything (EnvSet env s v).
Proof.
  intros Henv Hv st Hn [HV Hs].
  assert (length (heap (snd (EnvSet env s v st))) = length (heap st)) as Hlen
    by apply length_alter.
  split; [| split; [| split]].
  - split; rewrite Hlen; [exact HV |]. apply storeRefs_EnvSet; [exact Hs | lift].
  - lia.
  - rewrite Hlen. intros b Hb. cbn [EnvSet snd heap].
    apply list_lookup_alter_ne. intros ->.
    rewrite (P_mono _ _ _ Hn Henv) in Hb. discriminate.
  - intros x _. exact I.
Qed.

Lemma confined_allocEnv n o :
  P n o = true -> confined P V n (fun n' r => P n' r = true) (allocEnv o).
Proof.
  intros Ho st Hn [HV Hs].
  assert (length (heap (snd (allocEnv o st))) = S (length (heap st))) as Hlen
    by (cbn [allocEnv snd heap]; rewrite length_app; cbn; lia).
  split; [| split; [| split]].
  - split; rewrite Hlen; [apply (V_mono _ _ (le_S _ _ (le_n _)) HV) |].
    apply storeRefs_allocEnv; [| lift].
    apply (storeRefs_mono (P (length (heap st)))); [intros r; apply P_mono; lia | exact Hs].
  - lia.
  - rewrite Hlen. cbn [allocEnv snd heap]. intros b Hb.
    destruct (lt_eq_lt_dec b (length (heap st))) as [[Hlt | ->] | Hgt].
    + apply lookup_app_l. exact Hlt.
    + rewrite (P_alloc _ HV) in Hb. discriminate.
    + rewrite !lookup_ge_None_2; [reflexivity | lia | rewrite length_app; cbn; lia].
  - intros x [= <-]. rewrite Hlen. apply P_alloc, HV.
Qed.

Lemma confined_Find n env s : confined P V n (admits P) (Find env s).
Proof.
  intros st Hn Hs. unfold Find.
  destruct (Find_from (S env) (heap st) env s) as [v |] eqn:E; cbn [fst snd];
    (split; [exact Hs | split; [lia | split; [reflexivity |]]]);
    [| intros x Hx; discriminate].
  intros x [= <-]. destruct (Find_from_bound _ _ _ _ _ E) as (b & fr & Hb & Hv).
  destruct Hs as [_ Hs]. rewrite storeRefs_spec in Hs. specialize (Hs b fr Hb).
  rewrite frameRefs_spec in Hs. apply (proj2 Hs s v Hv).
Qed.

Lemma confined_index n (l : list Expr) i :
  Forall (fun v => refsIn (P n) v = true) l -> confined P V n (admits P) (index l i).
Proof.
  intros Hl. apply confined_pure; [apply unchanged_index |].
  intros n' Hn'. apply yields_index. lift.
Qed.

Lemma confined_sliceFrom n k (l : list Expr) :
  Forall (fun v => refsIn (P n) v = true) l ->
  confined P V n (admitsAll P) (sliceFrom k l).
Proof.
  intros Hl. apply confined_pure; [apply unchanged_sliceFrom |].
  intros n' Hn'. apply yields_sliceFrom. lift.
Qed.

Lemma confined_evalQuote n (e : Expr) env : confined P V n (admits P) (evalQuote e env).
Proof.
  apply confined_pure; [apply unchanged_evalQuote |].
  intros n' _. apply yields_evalQuote.
Qed.

Lemma confined_condClausesToIf n (cs : list Expr) :
  Forall (fun v => refsIn (P n) v = true) cs ->
  confined P V n (admits P) (condClausesToIf cs).
Proof.
  intros Hl. apply confined_pure; [apply unchanged_condClausesToIf |].
  intros n' Hn'. apply yields_condClausesToIf. lift.
Qed.

Lemma confined_evalLambda n (exp : Expr) env :
  refsIn (P n) exp = true -> P n env = true ->
  confined P V n (admits P) (evalLambda exp env).
Proof.
  intros He Henv. apply confined_pure; [apply unchanged_evalLambda |].
  intros n' Hn'. apply yields_evalLambda; lift.
Qed.

Lemma confined_evalDelay n (exp : Expr) env :
  refsIn (P n) exp = true -> P n env = true ->
  confined P V n (admits P) (evalDelay exp env).
Proof.
  intros He Henv. apply confined_pure; [apply unchanged_evalDelay |].
  intros n' Hn'. apply yields_evalDelay; lift.
Qed.

Lemma confined_done n (m : M Expr) :
  confined P V n (admits P) m -> confined P V n (admitsNext P) (done m).
Proof.
  intros Hm. unfold done. apply (confined_bind _ _ _ _ _ Hm).
  intros v n1 Hn1 Hv. apply confined_ret. intros n' Hn'. lift.
Qed.

Lemma confined_loop n (m : M Expr) env :
  P n env = true -> confined P V n (admits P) m ->
  confined P V n (admitsNext P) (bind m (fun e => ret (Loop e env))).
Proof.
  intros Henv Hm. apply (confined_bind _ _ _ _ _ Hm).
  intros v n1 Hn1 Hv. apply confined_ret. intros n' Hn'. cbn. split; lift.
Qed.

Lemma confined_any {A} n (m : M A) : unchanged m -> confined P V n anything m.
Proof. intros Hu. apply confined_pure; [exact Hu |]. intros n' _ st x st' _. exact I. Qed.

(** What the facts at hand say about the parts of a value. *)
Ltac parts :=
  unfold admits, admitsAll, admitsNext, anything in *;
  repeat match goal with
         | H : refsIn _ (ECompound _) = true |- _ => apply refsIn_compound in H
         | H : refsIn _ (ELambda _ _ _) = true |- _ =>
           apply refsIn_lambda in H; destruct H
         | H : refsIn _ (EThunk _ _) = true |- _ =>
           cbn [refsIn] in H; apply andb_true_iff in H; destruct H
         | H : Forall _ (_ :: _) |- _ => apply Forall_cons in H; destruct H
         end.

Ltac good := parts; solve [lift | constructor; lift | split; lift].

Section Nested.
Variable rec : EvalFn.
Hypothesis Hrec : confinedFn P V rec.

Lemma confined_andLoop es : forall n env,
  Forall (fun v => refsIn (P n) v = true) es -> P n env = true ->
  confined P V n (admits P) (andLoop rec es env).
Proof.
  induction es as [| e es IH]; intros n env Hes Henv; cbn [andLoop].
  - apply confined_ret. intros. reflexivity.
  - parts. apply (confined_bind _ _ _ _ _ (Hrec n e env ltac:(lift) Henv)).
    intros v n1 Hn1 Hv.
    destruct (negb _); [apply confined_ret; intros; reflexivity | apply IH; lift].
Qed.

Lemma confined_orLoop es : forall n env,
  Forall (fun v => refsIn (P n) v = true) es -> P n env = true ->
  confined P V n (admits P) (orLoop rec es env).
Proof.
  induction es as [| e es IH]; intros n env Hes Henv; cbn [orLoop].
  - apply confined_ret. intros. reflexivity.
  - parts. apply (confined_bind _ _ _ _ _ (Hrec n e env ltac:(lift) Henv)).
    intros v n1 Hn1 Hv.
    destruct (IsTrue _); [apply confined_ret; intros; reflexivity | apply IH; lift].
Qed.

Lemma confined_evalEach es : forall n env,
  Forall (fun v => refsIn (P n) v = true) es -> P n env = true ->
  confined P V n anything (evalEach rec es env).
Proof.
  induction es as [| e es IH]; intros n env Hes Henv; cbn [evalEach].
  - apply confined_ret. intros. exact I.
  - parts. apply (confined_bind _ _ _ _ _ (Hrec n e env ltac:(lift) Henv)).
    intros v n1 Hn1 Hv. apply IH; lift.
Qed.

Lemma confined_evalArgs es : forall n env,
  Forall (fun v => refsIn (P n) v = true) es -> P n env = true ->
  confined P V n (admitsAll P) (evalArgs rec es env).
Proof.
  induction es as [| e es IH]; intros n env Hes Henv; cbn [evalArgs].
  - apply confined_ret. intros. constructor.
  - parts. apply (confined_bind _ _ _ _ _ (Hrec n e env ltac:(lift) Henv)).
    intros v n1 Hn1 Hv.
    apply (confined_bind _ _ _ _ _ (IH n1 env ltac:(lift) ltac:(lift))).
    intros vs n2 Hn2 Hvs. apply confined_ret. intros n' Hn'. good.
Qed.

Lemma confined_bindArgs a ps es : forall n i env,
  Forall (fun v => refsIn (P n) v = true) es -> P n env = true -> P n a = true ->
  confined P V n anything (bindArgs rec a ps i es env).
Proof.
  induction es as [| e es IH]; intros n i env Hes Henv Ha; cbn [bindArgs].
  - apply confined_ret. intros. exact I.
  - parts. destruct (ps !! i) as [name |]; [| apply confined_panic].
    apply (confined_bind _ _ _ _ _ (Hrec n e env ltac:(lift) Henv)).
    intros v n1 Hn1 Hv.
    apply (confined_bind _ _ _ _ _
             (confined_EnvSet n1 a name v ltac:(lift) ltac:(lift))).
    intros u n2 Hn2 _. apply IH; lift.
Qed.

Lemma confined_EvalAll_from es : forall n env r0,
  Forall (fun v => refsIn (P n) v = true) es -> P n env = true ->
  refsIn (P n) r0 = true ->
  confined P V n (admits P) (EvalAll_from rec es env r0).
Proof.
  induction es as [| e es IH]; intros n env r0 Hes Henv Hr0; cbn [EvalAll_from].
  - apply confined_ret. intros. lift.
  - parts. intros st Hn Hs.
    destruct (Hrec n e env ltac:(lift) Henv st Hn Hs) as (Hs1 & Hl1 & Hw1 & Hg1).
    destruct (rec e env st) as [[v | err | | ] st1]; cbn [fst snd] in *.
    + destruct (IH (length (heap st1)) env v ltac:(lift) ltac:(lift) (Hg1 v eq_refl)
                  st1 (le_n _) Hs1) as (Hs2 & Hl2 & Hw2 & Hg2).
      split; [exact Hs2 | split; [lia | split; [| exact Hg2]]].
      intros b Hb. rewrite (Hw2 b Hb). apply Hw1, (P_false_level _ _ _ Hl2 Hb).
    + split; [exact Hs1 | split; [exact Hl1 | split; [exact Hw1 |]]].
      intros x [= <-]. cbn [heap]. lift.
    + split; [exact Hs1 | split; [exact Hl1 | split; [exact Hw1 |]]].
      intros x Hx. discriminate.
    + split; [exact Hs1 | split; [exact Hl1 | split; [exact Hw1 |]]].
      intros x Hx. discriminate.
Qed.

Lemma confined_Run es : forall n env,
  Forall (fun v => refsIn (P n) v = true) es -> P n env = true ->
  confined P V n anything (Run rec es env).
Proof.
  induction es as [| e es IH]; intros n env Hes Henv; cbn [Run].
  - apply confined_ret. intros. exact I.
  - parts. intros st Hn Hs.
    destruct (Hrec n e env ltac:(lift) Henv st Hn Hs) as (Hs1 & Hl1 & Hw1 & Hg1).
    destruct (rec e env st) as [[v | err | | ] st1]; cbn [fst snd] in *.
    + destruct (IH (length (heap st1)) env ltac:(lift) ltac:(lift)
                  st1 (le_n _) Hs1) as (Hs2 & Hl2 & Hw2 & Hg2).
      split; [exact Hs2 | split; [lia | split; [| exact Hg2]]].
      intros b Hb. rewrite (Hw2 b Hb). apply Hw1, (P_false_level _ _ _ Hl2 Hb).
    + destruct (IH (length (heap st1)) env ltac:(lift) ltac:(lift)
                  (mkState (heap st1) (out st1 ++ [OutPanic err])) (le_n _) Hs1)
        as (Hs2 & Hl2 & Hw2 & Hg2).
      cbn [heap] in *.
      split; [exact Hs2 | split; [lia | split; [| exact Hg2]]].
      intros b Hb. rewrite (Hw2 b Hb). apply Hw1, (P_false_level _ _ _ Hl2 Hb).
    + split; [exact Hs1 | split; [exact Hl1 | split; [exact Hw1 |]]].
      intros x Hx. discriminate.
    + split; [exact Hs1 | split; [exact Hl1 | split; [exact Hw1 |]]].
      intros x Hx. discriminate.
Qed.

Lemma confined_loadFile n path env :
  P n env = true -> confined P V n anything (loadFile rec path env).
Proof.
  intros Henv. unfold loadFile.
  destruct (ReadForms _) as [forms |] eqn:E; [| apply confined_print].
  apply confined_Run; [| exact Henv]. apply (ReadForms_refs law _ _ _ E).
Qed.

Lemma confined_evalLoad d : forall n e env,
  refsIn (P n) e = true -> P n env = true ->
  confined P V n (admits P) (evalLoad d rec e env).
Proof.
  induction d as [| d IH]; intros n e env He Henv; cbn [evalLoad].
  - intros st Hn Hs. cbn [fst snd].
    split; [exact Hs | split; [lia | split; [reflexivity |]]]. intros x Hx. discriminate.
  - apply (confined_bind _ _ _ _ _ (Hrec n e env He Henv)). intros v n1 Hn1 Hv.
    apply (confined_bind _ (anything (A := unit))).
    + destruct v; try apply confined_panic; try (apply confined_loadFile; lift).
      destruct (isList _); [| apply confined_ret; intros; exact I].
      pose proof (refsIn_extractList _ _ Hv) as Hl. revert Hl.
      generalize (extractList (EPair v1 v2)). intros l. revert n1 Hn1 Hv.
      induction l as [| p l IHl]; intros n1 Hn1 Hv Hl.
      * apply confined_ret. intros. exact I.
      * parts. apply (confined_bind _ _ _ _ _ (IH n1 p env ltac:(lift) ltac:(lift))).
        intros r n2 Hn2 Hr. apply IHl; try lia; lift.
    + intros u n2 Hn2 _. apply confined_ret. intros. reflexivity.
Qed.

Lemma confined_runNative t : forall n,
  nativeRefs (P n) t -> confined P V n (admits P) (runNative rec t).
Proof.
  induction t as [o r | o e env next IH]; intros n Ht; cbn [runNative nativeRefs] in *.
  - intros st Hn Hs. cbn [fst snd heap].
    split; [exact Hs | split; [lia | split; [reflexivity |]]].
    intros x ->. specialize (Ht x eq_refl). lift.
  - destruct Ht as (He & Henv & Hnext).
    apply (confined_bind _ (admits P)).
    + intros st Hn Hs.
      apply (Hrec n e env He Henv (mkState (heap st) (out st ++ o)) Hn Hs).
    + intros v n1 Hn1 Hv. apply IH. apply Hnext; [| exact Hv].
      intros r. apply P_mono, Hn1.
Qed.

Lemma confined_callBuiltin n name args :
  Forall (fun v => refsIn (P n) v = true) args ->
  confined P V n (admits P) (callBuiltin rec name args).
Proof. intros Hargs. apply confined_runNative, (Call_refs law), Hargs. Qed.

Lemma confined_evalDefine n s val env :
  refsIn (P n) s = true -> Forall (fun v => refsIn (P n) v = true) val ->
  P n env = true ->
  confined P V n (admits P) (evalDefine rec s val env).
Proof.
  intros Hs Hval Henv.
  assert (confined P V n (admits P)
            (if negb (Nat.eqb (length val) 1)
             then panic (ErrText "define: bad syntax (multiple expressions after identifier")
             else
               bind (transExpressionToSymbol s) (fun sym =>
               bind (index val 0) (fun e =>
               bind (rec e env) (fun v =>
               bind (EnvSet env sym v) (fun u => ret EUndef)))))) as Hplain.
  { destruct (negb _); [apply confined_panic |].
    apply (confined_bind _ _ _ _ _
             (confined_any n _ (unchanged_transExpressionToSymbol s))).
    intros sym n1 Hn1 _.
    apply (confined_bind _ _ _ _ _ (confined_index n1 val 0 ltac:(lift))).
    intros e n2 Hn2 He.
    apply (confined_bind _ _ _ _ _ (Hrec n2 e env He ltac:(lift))).
    intros v n3 Hn3 Hv.
    apply (confined_bind _ _ _ _ _ (confined_EnvSet n3 env sym v ltac:(lift) Hv)).
    intros u n4 Hn4 _. apply confined_ret. intros. reflexivity. }
  destruct s; try exact Hplain.
  - apply confined_ret. intros. reflexivity.
  - cbn [evalDefine].
    apply (confined_bind _ _ _ _ _ (confined_any n _ (unchanged_transAll es))).
    intros symbols n1 Hn1 _. destruct symbols as [| name params]; [apply confined_panic |].
    apply (confined_bind _ (anything (A := unit))).
    + apply confined_EnvSet; [lift |]. unfold makeLambdaProcess.
      apply refsIn_lambda. split; lift.
    + intros u n2 Hn2 _. apply confined_ret. intros. reflexivity.
Qed.

Lemma confined_evalApply n exp env :
  refsIn (P n) exp = true -> P n env = true ->
  confined P V n (admits P) (evalApply rec exp env).
Proof.
  intros He Henv. unfold evalApply. destruct exp; try apply confined_panic.
  parts. destruct (negb _); [apply confined_panic |].
  apply (confined_bind _ _ _ _ _ (confined_index n es 0 He)). intros a0 n1 Hn1 Ha0.
  apply (confined_bind _ _ _ _ _ (Hrec n1 a0 env Ha0 ltac:(lift))). intros p n2 Hn2 Hp.
  apply (confined_bind _ _ _ _ _ (confined_index n2 es 1 ltac:(lift))). intros a1 n3 Hn3 Ha1.
  apply (confined_bind _ _ _ _ _ (Hrec n3 a1 env Ha1 ltac:(lift))). intros arg n4 Hn4 Harg.
  destruct (negb _); [apply confined_panic |].
  destruct arg; try apply confined_panic.
  apply Hrec; [| lift]. apply refsIn_compound. constructor; [lift |].
  apply refsIn_extractList, Harg.
Qed.

Lemma confined_evalEval n exp env :
  refsIn (P n) exp = true -> P n env = true ->
  confined P V n (admits P) (evalEval rec exp env).
Proof.
  intros He Henv. unfold evalEval.
  apply (confined_bind _ _ _ _ _ (Hrec n exp env He Henv)). intros arg n1 Hn1 Harg.
  destruct (negb _); [apply confined_panic |].
  destruct (Parse _) as [forms | err] eqn:E; [| apply confined_panic].
  apply confined_EvalAll_from; [apply (Parse_refs law _ _ _ E) | lift | reflexivity].
Qed.

Lemma confined_evalIf n exp env :
  Forall (fun v => refsIn (P n) v = true) exp -> P n env = true ->
  confined P V n (admits P) (evalIf rec exp env).
Proof.
  intros He Henv.
  unfold evalIf, conditionOfIfExpression, trueExpOfIfExpression, elseExpOfIfExpression.
  apply (confined_bind _ _ _ _ _ (confined_index n exp 1 He)). intros c n1 Hn1 Hc.
  apply (confined_bind _ _ _ _ _ (Hrec n1 c env Hc ltac:(lift))). intros v n2 Hn2 Hv.
  destruct (IsTrue v); [apply confined_index; lift |].
  destruct (Nat.ltb _ _); [apply confined_ret; intros; reflexivity | apply confined_index; lift].
Qed.

Lemma confined_evalBegin n exp env :
  Forall (fun v => refsIn (P n) v = true) exp -> P n env = true ->
  confined P V n (admits P) (evalBegin rec exp env).
Proof.
  intros He Henv. unfold evalBegin. destruct (Nat.ltb _ _); [apply confined_panic |].
  apply (confined_bind _ (anything (A := unit))).
  - apply confined_evalEach; [| exact Henv]. apply Forall_take, Forall_drop, He.
  - intros u n1 Hn1 _. apply confined_index. lift.
Qed.

Lemma confined_evalCond n exp env :
  refsIn (P n) exp = true -> P n env = true ->
  confined P V n (admits P) (evalCond rec exp env).
Proof.
  intros He Henv. unfold evalCond.
  apply (confined_bind _ (admits P)).
  - unfold expandCond. destruct exp; try apply confined_panic. parts.
    unfold condClauses.
    apply (confined_bind _ _ _ _ _ (confined_sliceFrom n 1 es He)). intros cs n1 Hn1 Hcs.
    apply confined_condClausesToIf, Hcs.
  - intros e n1 Hn1 He1. apply Hrec; lift.
Qed.

Lemma confined_application n exp env :
  refsIn (P n) exp = true -> P n env = true ->
  confined P V n (admitsNext P) (application rec exp env).
Proof.
  intros He Henv. unfold application.
  destruct exp; try (apply confined_ret; intros; lift).
  pose proof He as Hes. apply refsIn_compound in Hes.
  apply (confined_bind _ _ _ _ _
           (confined_any n _ (unchanged_isQuoteExpression (ECompound es)))).
  intros q n1 Hn1 _. destruct q.
  - apply confined_done.
    apply (confined_bind _ _ _ _ _ (confined_index n1 es 1 ltac:(lift))).
    intros o n2 Hn2 _. apply confined_evalQuote.
  - apply (confined_bind _ _ _ _ _ (confined_index n1 es 0 ltac:(lift))).
    intros op n2 Hn2 Hop.
    apply (confined_bind _ _ _ _ _ (Hrec n2 op env Hop ltac:(lift))).
    intros fn n3 Hn3 Hfn.
    destruct fn; try apply confined_panic.
    + apply (confined_bind _ _ _ _ _ (confined_sliceFrom n3 1 es ltac:(lift))).
      intros operands n4 Hn4 Hops.
      apply (confined_bind _ _ _ _ _ (confined_evalArgs operands n4 env Hops ltac:(lift))).
      intros args n5 Hn5 Hargs. apply confined_done, confined_callBuiltin, Hargs.
    + parts.
      apply (confined_bind _ _ _ _ _ (confined_allocEnv n3 env0 ltac:(lift))).
      intros newEnv n4 Hn4 Hnew.
      apply (confined_bind _ _ _ _ _ (confined_sliceFrom n4 1 es ltac:(lift))).
      intros operands n5 Hn5 Hops.
      destruct (negb _); [apply confined_panic |].
      apply (confined_bind _ _ _ _ _
               (confined_bindArgs newEnv params operands n5 0 env Hops
                  ltac:(lift) ltac:(lift))).
      intros u n6 Hn6 _. apply confined_ret. intros n' Hn'.
      unfold admitsNext. split; [| lift].
      unfold Body. apply refsIn_compound. constructor; [reflexivity | lift].
Qed.

Lemma confined_body n d exp env :
  refsIn (P n) exp = true -> P n env = true ->
  confined P V n (admitsNext P) (body rec d exp env).
Proof.
  intros He Henv. pose proof (refsAll_asSlice _ _ He) as Hes. unfold body.
  repeat match goal with
         | |- confined _ _ _ _ (if ?b then _ else _) => destruct b
         end.
  - apply confined_ret. intros. reflexivity.
  - apply confined_ret. intros. reflexivity.
  - apply confined_done, confined_pure; [apply unchanged_expressionToNumber |].
    intros n' _. apply yields_expressionToNumber.
  - apply confined_ret. intros. reflexivity.
  - apply confined_done, confined_pure; [apply unchanged_expToString |].
    intros n' _. apply yields_expToString.
  - apply confined_done, confined_Find.
  - apply confined_done.
    apply (confined_bind _ _ _ _ _ (confined_sliceFrom n 2 _ Hes)). intros val n1 Hn1 Hval.
    apply (confined_bind _ _ _ _ _ (confined_index n1 (asSlice exp) 1 ltac:(lift))).
    intros s n2 Hn2 Hs.
    apply confined_evalDefine; lift.
  - apply confined_done.
    apply (confined_bind _ _ _ _ _ (confined_index n _ 1 Hes)). intros e n1 Hn1 He1.
    apply confined_evalEval; lift.
  - apply confined_done.
    apply (confined_bind _ _ _ _ _ (confined_sliceFrom n 1 _ Hes)). intros a n1 Hn1 Ha.
    apply confined_evalApply; [apply refsIn_compound, Ha | lift].
  - apply confined_loop; [exact Henv |]. apply confined_evalIf; assumption.
  - apply confined_done, confined_evalCond; assumption.
  - apply confined_loop; [exact Henv |]. apply confined_evalBegin; assumption.
  - apply confined_done, confined_evalLambda; assumption.
  - apply confined_done.
    apply (confined_bind _ _ _ _ _ (confined_index n _ 1 Hes)). intros e n1 Hn1 He1.
    apply confined_evalLoad; lift.
  - apply confined_done, confined_evalDelay; assumption.
  - apply confined_done. unfold evalAnd. destruct exp; try apply confined_panic.
    destruct (Nat.ltb _ _); [apply confined_panic |].
    apply confined_andLoop; [apply Forall_drop, Hes | exact Henv].
  - apply confined_done. unfold evalOr. destruct exp; try apply confined_panic.
    destruct (Nat.ltb _ _); [apply confined_panic |].
    apply confined_orLoop; [apply Forall_drop, Hes | exact Henv].
  - apply confined_application; assumption.
Qed.

End Nested.

(** Run on a sound store, on an expression and in an environment that
    are admitted, [Eval] leaves a sound store, writes to no frame whose
    address is not admitted, and gives a value that is admitted. *)
Lemma confined_Eval f : forall k, confinedFn P V (Eval f k).
Proof.
  induction f as [| f IH]; intros k n exp env He Henv.
  - intros st Hn Hs. cbn [Eval fst snd].
    split; [exact Hs | split; [lia | split; [reflexivity |]]]. intros x Hx. discriminate.
  - destruct k as [| k].
    + intros st Hn Hs. cbn [Eval fst snd].
      split; [exact Hs | split; [lia | split; [reflexivity |]]]. intros x Hx. discriminate.
    + intros st Hn Hs.
      assert (confined P V n (admits P)
                (bind (body (Eval f k) f exp env)
                      (fun nx => match nx with
                                 | Done v => ret v
                                 | Loop e' env' => Eval f (S k) e' env'
                                 end))) as H.
      { apply (confined_bind _ _ _ _ _ (confined_body (Eval f k) (IH k) n f exp env He Henv)).
        intros [v | e' env'] n1 Hn1 Hx; cbn in Hx.
        - apply confined_ret. intros. lift.
        - destruct Hx as [He' Henv']. apply IH; assumption. }
      specialize (H st Hn Hs). rewrite <- Eval_step in H. exact H.
Qed.

End Confinement.

End References.

(** ** The frame of a closure call *)

Section LocalityOfEval.
Context `{host : Host}.

Abbreviation Expr := (Expression Number).
Abbreviation St := (State Number).

Lemma done_never_loops (m : M Expr) (st st' : St) e' env' :
  done m st = (Ok (Loop e' env'), st') -> False.
Proof.
  unfold done, bind, ret. destruct (m st) as [[v | err | | ] st1]; discriminate.
Qed.

Lemma below_level n n' r : n <= n' -> below n r = true -> below n' r = true.
Proof. unfold below. rewrite !Nat.ltb_lt. lia. Qed.

Lemma below_apart n a r : n <= a -> below n r = true -> apart a r = true.
Proof.
  unfold below, apart. rewrite Nat.ltb_lt, negb_true_iff, Nat.eqb_neq. lia.
Qed.

(** No evaluation makes a reference dangle: on a store without dangling
    references, an expression without any and an environment of the
    store, [Eval] leaves a store without dangling references, and its
    value has none. *)
Lemma closed_Eval f k exp env (st : St) :
  Lawful host -> closed st = true ->
  refsIn (below (length (heap st))) exp = true -> env < length (heap st) ->
  closed (snd (Eval f k exp env st)) = true
  /\ length (heap st) <= length (heap (snd (Eval f k exp env st)))
  /\ forall v, fst (Eval f k exp env st) = Ok v ->
       refsIn (below (length (heap (snd (Eval f k exp env st))))) v = true.
Proof.
  intros law Hc He Henv. apply Nat.ltb_lt in Henv.
  destruct (confined_Eval below (fun _ => True) below_level (fun _ _ _ _ => I)
              (fun n _ => proj2 (Nat.ltb_lt n (S n)) (Nat.lt_succ_diag_r n)) law
              f k (length (heap st)) exp env He Henv st (le_n _) (conj I Hc))
    as ([_ H1] & H2 & _ & H4).
  split; [exact H1 | split; [exact H2 | exact H4]].
Qed.

(** No evaluation writes to a frame that nothing refers to: when no
    link, no closure and no thunk of the store or of the expression
    refers to the frame at [a], and the evaluation is not made in it,
    the frame is after the evaluation what it was, and still nothing
    refers to it. *)
Lemma isolated_Eval a f k exp env (st : St) :
  Lawful host -> a < length (heap st) -> unreferenced a st = true ->
  refsIn (apart a) exp = true -> env <> a ->
  heap (snd (Eval f k exp env st)) !! a = heap st !! a
  /\ unreferenced a (snd (Eval f k exp env st)) = true
  /\ forall v, fst (Eval f k exp env st) = Ok v -> refsIn (apart a) v = true.
Proof.
  intros law Ha Hu He Henv.
  assert (apart a env = true) as Henv'
    by (unfold apart; apply negb_true_iff, Nat.eqb_neq; exact Henv).
  destruct (confined_Eval (fun _ => apart a) (fun n => a < n)
              (fun _ _ _ _ H => H) (fun n n' Hn H => Nat.lt_le_trans _ _ _ H Hn)
              (fun n (H : a < n) =>
                 proj2 (negb_true_iff _) (proj2 (Nat.eqb_neq n a) (Nat.neq_sym _ _ (Nat.lt_neq _ _ H))))
              law f k (length (heap st)) exp env He Henv' st (le_n _) (conj Ha Hu))
    as ([_ H1] & _ & H3 & H4).
  split; [| split; [exact H1 | exact H4]].
  apply H3. unfold apart. rewrite Nat.eqb_refl. reflexivity.
Qed.

(** While the operands of a closure call are evaluated and bound, the
    new frame is written to by the binding alone: in the end it holds
    the parameters bound to the values, and it still links to the
    environment the closure captured. *)
Lemma BindsInOrder_frame f k env a ps es vs (st st' : St) fr :
  Lawful host ->
  BindsInOrder (Eval f k) env a ps es vs st st' ->
  env <> a -> a < length (heap st) -> unreferenced a st = true ->
  Forall (fun e => refsIn (apart a) e = true) es ->
  heap st !! a = Some fr ->
  heap st' !! a = Some (mkEnv (outer fr) (bound ps vs (frame fr))).
Proof.
  intros law H Hne. revert fr.
  induction H as [st | p ps e es v vs st st1 st2 He _ IH]; intros fr Ha Hu Hes Hfr.
  - cbn. destruct fr. exact Hfr.
  - cbn [bound]. apply Forall_cons in Hes as [He1 Hes].
    destruct (isolated_Eval a f k e env st law Ha Hu He1 Hne) as (Hsame & Hu1 & Hv).
    rewrite He in Hsame, Hu1, Hv. cbn [fst snd] in *.
    assert (heap st1 !! a = Some fr) as Hfr1 by exact (eq_trans Hsame Hfr).
    specialize (IH (mkEnv (outer fr) (<[p := v]> (frame fr)))). apply IH.
    + cbn [EnvSet snd heap]. rewrite length_alter. apply (lookup_lt_Some _ _ _ Hfr1).
    + apply storeRefs_EnvSet; [exact Hu1 | apply Hv; reflexivity].
    + exact Hes.
    + cbn [EnvSet snd heap]. rewrite list_lookup_alter_eq.
      unfold EnvRef in *. rewrite Hfr1. reflexivity.
Qed.

(** With parameters that are pairwise distinct, each one is bound to the
    value of the operand of its position. *)
Lemma bound_lookup ps : forall vs (fr : gmap Symbol Expr) i p v,
  NoDup ps -> ps !! i = Some p -> vs !! i = Some v ->
  bound ps vs fr !! p = Some v.
Proof.
  assert (forall ps vs (fr : gmap Symbol Expr) p,
             p ∉ ps -> bound ps vs fr !! p = fr !! p) as Hout.
  { clear. induction ps as [| q ps IH]; intros vs fr p Hp; [reflexivity |].
    destruct vs as [| v vs]; [reflexivity |]. cbn.
    rewrite IH by (intros Hin; apply Hp; right; exact Hin).
    apply lookup_insert_ne. intros ->. apply Hp. left. }
  induction ps as [| q ps IH]; intros vs fr i p v Hnd Hp Hv; [discriminate |].
  destruct vs as [| w vs]; [destruct i; discriminate |].
  apply NoDup_cons in Hnd as [Hq Hnd].
  destruct i as [| i]; cbn in Hp, Hv.
  - injection Hp as ->. injection Hv as ->. cbn.
    rewrite Hout by exact Hq. apply lookup_insert_eq.
  - cbn. apply (IH vs _ i p v Hnd Hp Hv).
Qed.

End LocalityOfEval.

(** C2, as the code has it.  For an application (a non-empty compound
    form whose head is neither a special-form keyword nor [quote]) the
    operator is evaluated first, and the kind of its value is looked at
    before any operand is evaluated.  For a builtin the operands are then
    evaluated from left to right and the builtin is called on the values;
    the first operand that fails ends the application.  For a closure the
    arity is checked before any operand is evaluated, and the operands
    are then evaluated from left to right, each bound as soon as it has
    its value.  For any other value the application panics as not
    callable, and no operand is evaluated. *)
Theorem application_dispatches_before_operands `{host : Host} (f k : nat)
    (h : Expression Number) (args : list (Expression Number)) (env : EnvRef)
    (st : State Number) :
  isKeyword h = false -> eqTok h "quote" = false ->
  (forall e st1, Eval f k h env st = (Panic e, st1) ->
     Eval (S f) (S k) (ECompound (h :: args)) env st = (Panic e, st1))
  /\ (forall name st1 vs st2,
        Eval f k h env st = (Ok (EFunction name), st1) ->
        EvalsInOrder (Eval f k) env args st1 vs st2 ->
        Eval (S f) (S k) (ECompound (h :: args)) env st
        = callBuiltin (Eval f k) name vs st2)
  /\ (forall name st1 pre e post vs st2 err st3,
        Eval f k h env st = (Ok (EFunction name), st1) ->
        args = pre ++ e :: post ->
        EvalsInOrder (Eval f k) env pre st1 vs st2 ->
        Eval f k e env st2 = (Panic err, st3) ->
        Eval (S f) (S k) (ECompound (h :: args)) env st = (Panic err, st3))
  /\ (forall params lbody cenv st1,
        Eval f k h env st = (Ok (ELambda params lbody cenv), st1) ->
        length args <> length params ->
        Eval (S f) (S k) (ECompound (h :: args)) env st
        = (Panic (ErrArity (ELambda params lbody cenv) (length params) (length args)),
           snd (allocEnv cenv st1)))
  /\ (forall params lbody cenv st1 vs st3,
        Eval f k h env st = (Ok (ELambda params lbody cenv), st1) ->
        BindsInOrder (Eval f k) env (length (heap st1)) params args vs
          (snd (allocEnv cenv st1)) st3 ->
        Eval (S f) (S k) (ECompound (h :: args)) env st
        = Eval f (S k) (Body lbody) (length (heap st1)) st3)
  /\ (forall fn st1,
        Eval f k h env st = (Ok fn, st1) -> isCallable fn = false ->
        Eval (S f) (S k) (ECompound (h :: args)) env st = (Panic (ErrNotCallable fn), st1)).
Proof.
  intros Hk Hq.
  split; [| split; [| split; [| split; [| split]]]].
  - intros e st1 Hop. rewrite Eval_application by assumption.
    apply (bind_panic _ _ _ _ _ Hop).
  - intros name st1 vs st2 Hop Hargs. rewrite Eval_application by assumption.
    rewrite (bind_ok _ _ _ _ _ Hop).
    apply (bind_ok _ _ _ _ _ (evalArgs_in_order _ _ _ _ _ _ Hargs)).
  - intros name st1 pre e post vs st2 err st3 Hop -> Hpre He.
    rewrite Eval_application by assumption.
    rewrite (bind_ok _ _ _ _ _ Hop).
    apply (bind_panic _ _ _ _ _ (evalArgs_fails _ _ _ _ post _ _ _ _ _ Hpre He)).
  - intros params lbody cenv st1 Hop Hlen. rewrite Eval_application by assumption.
    rewrite (bind_ok _ _ _ _ _ Hop). unfold bind, allocEnv. cbn.
    apply Nat.eqb_neq in Hlen. rewrite Hlen. reflexivity.
  - intros params lbody cenv st1 vs st3 Hop Hbind. rewrite Eval_application by assumption.
    rewrite (bind_ok _ _ _ _ _ Hop). unfold bind at 1. cbn [allocEnv].
    destruct (BindsInOrder_length _ _ _ _ _ _ _ _ Hbind) as [Hlen _].
    apply Nat.eqb_eq in Hlen. rewrite Hlen. cbn [negb].
    pose proof (bindArgs_in_order _ _ _ _ _ _ _ _ Hbind []) as Hb.
    cbn [app length snd allocEnv] in Hb.
    unfold bind. rewrite Hb. reflexivity.
  - intros fn st1 Hop Hfn. rewrite Eval_application by assumption.
    rewrite (bind_ok _ _ _ _ _ Hop).
    destruct fn; try reflexivity; discriminate.
Qed.

(** [(+ 1 2)] is [3]: the operator, the two operands in order, the call. *)
Lemma application_dispatches_before_operands_witness :
  Eval 3 2 (form [tok "+"; tok "1"; tok "2"]) 0 rootState = (Ok (ENumber 3%Z), rootState).
Proof.
  apply (proj1 (proj2 (application_dispatches_before_operands (host := demo)
                         2 1 (tok "+") [tok "1"; tok "2"] 0 rootState eq_refl eq_refl))
           "+" rootState [ENumber 1%Z; ENumber 2%Z] rootState).
  - reflexivity.
  - apply (EvalsInOrder_cons (host := demo) _ _ _ _ _ (ENumber 1%Z) rootState);
      [reflexivity |].
    apply (EvalsInOrder_cons (host := demo) _ _ _ _ _ (ENumber 2%Z) rootState);
      [reflexivity |].
    apply (EvalsInOrder_nil (host := demo)).
Defined.

(** C2 fails: the operand [y] is unbound, so evaluating it panics; yet
    [(#t y)] panics as not callable, and a closure of one parameter
    applied to [y y] panics on the arity.  In [(#t (define x 1))] the
    operand is never evaluated: the store is what it was, [x] unbound. *)
Lemma operands_wait_for_the_dispatch :
  run 3 2 (tok "y") = Panic (ErrUnbound "y")
  /\ run 3 2 (form [tok "#t"; tok "y"]) = Panic (ErrNotCallable (EBool true))
  /\ run 4 2 (form [form [tok "lambda"; form [tok "a"]; tok "a"]; tok "y"; tok "y"])
     = Panic (ErrArity (ELambda ["a"] [tok "a"] 0) 1 2)
  /\ Eval 4 3 (form [tok "#t"; form [tok "define"; tok "x"; tok "1"]]) 0 rootState
     = (Panic (ErrNotCallable (EBool true)), rootState).
Proof. vm_compute. repeat split. Qed.

(** ** More fuel and more stack change no result *)

Section Monotonicity.
Context `{host : Host}.

Abbreviation Expr := (Expression Number).
Abbreviation St := (State Number).

Lemma refines_refl {A} (m : M A) : refines m m.
Proof. intros st r st' H _. exact H. Qed.

Lemma refines_bind {A B} (m m' : M A) (k k' : A -> M B) :
  refines m m' -> (forall a, refines (k a) (k' a)) -> refines (bind m k) (bind m' k').
Proof.
  intros Hm Hk st r st' H Hd. unfold bind in *.
  destruct (m st) as [[a | e | | ] st1] eqn:E.
  - rewrite (Hm _ _ _ E eq_refl). apply Hk; assumption.
  - rewrite (Hm _ _ _ E eq_refl). exact H.
  - injection H as <- _. discriminate.
  - injection H as <- _. discriminate.
Qed.

Ltac mono Hrec :=
  repeat first
    [ apply refines_refl
    | apply Hrec
    | match goal with
      | H : refines ?m ?m' |- refines ?m ?m' => exact H
      | H : forall _, refines _ _ |- refines _ _ => apply H
      | |- refines (bind _ _) (bind _ _) => apply refines_bind; [| intros ?]
      | |- refines (if ?b then _ else _) (if ?b then _ else _) => destruct b
      | |- refines (match ?x with _ => _ end) (match ?x with _ => _ end) => destruct x
      end ].

Section Loops.
Variables (rec rec' : EvalFn) (env : EnvRef).
Hypothesis Hrec : refinesFn rec rec'.

Lemma refines_andLoop es : refines (andLoop rec es env) (andLoop rec' es env).
Proof. induction es as [| e es IH]; cbn [andLoop]; mono Hrec. Qed.

Lemma refines_orLoop es : refines (orLoop rec es env) (orLoop rec' es env).
Proof. induction es as [| e es IH]; cbn [orLoop]; mono Hrec. Qed.

Lemma refines_evalEach es : refines (evalEach rec es env) (evalEach rec' es env).
Proof. induction es as [| e es IH]; cbn [evalEach]; mono Hrec. Qed.

Lemma refines_evalArgs es : refines (evalArgs rec es env) (evalArgs rec' es env).
Proof. induction es as [| e es IH]; cbn [evalArgs]; mono Hrec. Qed.

Lemma refines_bindArgs a ps i es :
  refines (bindArgs rec a ps i es env) (bindArgs rec' a ps i es env).
Proof. revert i. induction es as [| e es IH]; intros i; cbn [bindArgs]; mono Hrec. Qed.

Lemma refines_EvalAll_from es r0 :
  refines (EvalAll_from rec es env r0) (EvalAll_from rec' es env r0).
Proof.
  revert r0. induction es as [| e es IH]; intros r0 st r st' H Hd; cbn [EvalAll_from] in *.
  - exact H.
  - destruct (rec e env st) as [[v | err | | ] st1] eqn:E.
    + rewrite (Hrec _ _ _ _ _ E eq_refl). apply IH; assumption.
    + rewrite (Hrec _ _ _ _ _ E eq_refl). exact H.
    + injection H as <- _. discriminate.
    + injection H as <- _. discriminate.
Qed.

Lemma refines_Run forms : refines (Run rec forms env) (Run rec' forms env).
Proof.
  induction forms as [| e es IH]; intros st r st' H Hd; cbn [Run] in *.
  - exact H.
  - destruct (rec e env st) as [[v | err | | ] st1] eqn:E.
    + rewrite (Hrec _ _ _ _ _ E eq_refl). apply IH; assumption.
    + rewrite (Hrec _ _ _ _ _ E eq_refl). apply IH; assumption.
    + injection H as <- _. discriminate.
    + injection H as <- _. discriminate.
Qed.

Lemma refines_loadFile path : refines (loadFile rec path env) (loadFile rec' path env).
Proof.
  unfold loadFile. destruct (ReadForms _); [apply refines_Run | apply refines_refl].
Qed.

Lemma refines_evalLoad d : forall d' x, d <= d' ->
  refines (evalLoad d rec x env) (evalLoad d' rec' x env).
Proof.
  induction d as [| d IH]; intros d' x Hd.
  - intros st r st' H Hr. injection H as <- _. discriminate.
  - destruct d' as [| d']; [lia |]. cbn [evalLoad].
    apply refines_bind; [apply Hrec | intros v].
    apply refines_bind; [| intros u; apply refines_refl].
    destruct v; try apply refines_refl; try apply refines_loadFile.
    destruct (isList _); [| apply refines_refl].
    generalize (extractList (EPair v1 v2)). intros l.
    induction l as [| p l IHl]; [apply refines_refl |].
    apply refines_bind; [apply IH; lia | intros r; exact IHl].
Qed.

Lemma refines_runNative t : refines (runNative rec t) (runNative rec' t).
Proof.
  induction t as [o r | o e cenv next IH]; cbn [runNative]; [apply refines_refl |].
  apply refines_bind; [| intros v; apply IH].
  intros st r st' H Hd. apply (Hrec _ _ _ _ _ H Hd).
Qed.

Lemma refines_callBuiltin name args :
  refines (callBuiltin rec name args) (callBuiltin rec' name args).
Proof. apply refines_runNative. Qed.

Lemma refines_body d d' x : d <= d' -> refines (body rec d x env) (body rec' d' x env).
Proof.
  intros Hd. unfold body.
  repeat match goal with
         | |- refines (if ?b then _ else _) (if ?b then _ else _) => destruct b
         end.
  - mono Hrec.
  - mono Hrec.
  - mono Hrec.
  - mono Hrec.
  - mono Hrec.
  - mono Hrec.
  - unfold done, evalDefine. mono Hrec.
  - unfold done, evalEval, EvalAll. mono Hrec. apply refines_EvalAll_from.
  - unfold done, evalApply. mono Hrec.
  - unfold evalIf. mono Hrec.
  - unfold done, evalCond. mono Hrec.
  - unfold evalBegin. mono Hrec. apply refines_evalEach.
  - mono Hrec.
  - unfold done. mono Hrec. apply refines_evalLoad. exact Hd.
  - mono Hrec.
  - unfold done, evalAnd. mono Hrec. apply refines_andLoop.
  - unfold done, evalOr. mono Hrec. apply refines_orLoop.
  - unfold application, done. mono Hrec;
      first [apply refines_evalArgs | apply refines_callBuiltin | apply refines_bindArgs].
Qed.

End Loops.

(** A value or a panic that [Eval] reaches with some fuel and stack, it
    reaches with any larger fuel and stack. *)
Lemma Eval_mono f : forall f' k k', f <= f' -> k <= k' -> refinesFn (Eval f k) (Eval f' k').
Proof.
  induction f as [| f IH]; intros f' k k' Hf Hk x env st r st' H Hd.
  - injection H as <- _. discriminate.
  - destruct k as [| k]; [injection H as <- _; discriminate |].
    destruct f' as [| f']; [lia |]. destruct k' as [| k']; [lia |].
    rewrite Eval_step in H. rewrite Eval_step.
    revert H Hd. apply refines_bind.
    + apply refines_body; [apply IH; lia | lia].
    + intros [v | e' env']; [apply refines_refl | apply IH; lia].
Qed.

Lemma EvalsAllTo_mono (rec rec' : EvalFn) env b es (st st' : St) :
  refinesFn rec rec' -> EvalsAllTo rec env b es st st' -> EvalsAllTo rec' env b es st st'.
Proof.
  intros Hrec. induction 1 as [st | e es st v st1 st2 He Hv _ IH].
  - constructor.
  - econstructor; [apply (Hrec _ _ _ _ _ He eq_refl) | exact Hv | exact IH].
Qed.

End Monotonicity.

(** ** [cond] *)

Section Cond.
Context `{host : Host}.

Abbreviation Expr := (Expression Number).
Abbreviation St := (State Number).

Lemma Eval_if_branch f k test conseq rest env (st st1 : St) v :
  Eval f k test env st = (Ok v, st1) ->
  Eval (S f) (S k) (ECompound (ETok "if" :: test :: conseq :: rest)) env st
  = Eval f (S k) (if IsTrue v then conseq else alternative rest) env st1.
Proof.
  intros Ht. rewrite Eval_if. unfold bind at 1. rewrite evalIf_selects.
  rewrite (bind_ok _ _ _ _ _ Ht). reflexivity.
Qed.

(** A clause whose first element is not [else] becomes an [if]: its test,
    its body under an implicit [begin], and the expansion of the clauses
    after it. *)
Lemma condClausesToIf_plain test cbody rest (st : St) :
  eqTok test "else" = false ->
  condClausesToIf (ECompound (test :: cbody) :: rest) st
  = bind (condClausesToIf rest)
         (fun alt => ret (ECompound (makeIf test (ECompound (ETok "begin" :: cbody)) alt))) st.
Proof.
  intros Hne. cbn [condClausesToIf].
  unfold isElseClause, conditionOfClause, processesOfClause, sliceFrom, index, bind, ret.
  cbn -[condClausesToIf]. rewrite Hne, drop_0.
  destruct (condClausesToIf rest st) as [[alt | e | | ] st1]; reflexivity.
Qed.

Lemma condClausesToIf_else_last cbody (st : St) :
  condClausesToIf [ECompound (ETok "else" :: cbody)] st
  = (Ok (ECompound (ETok "begin" :: cbody)), st).
Proof.
  cbn. unfold bind, ret, processesOfClause, sliceFrom, bind, ret. cbn.
  rewrite drop_0. reflexivity.
Qed.

Lemma condClausesToIf_else_early cbody c rest (st : St) :
  condClausesToIf (ECompound (ETok "else" :: cbody) :: c :: rest) st
  = (Panic (ErrText "else clause must in the last position: cond->if"), st).
Proof. reflexivity. Qed.

(** An [else] clause with a clause after it makes the expansion panic,
    whatever the clauses before it are. *)
Lemma condClausesToIf_else_not_last pre cbody c rest (st : St) :
  exists e, condClausesToIf (pre ++ ECompound (ETok "else" :: cbody) :: c :: rest) st
            = (Panic e, st).
Proof.
  induction pre as [| p pre [e IH]].
  - eexists. apply condClausesToIf_else_early.
  - cbn [app].
    destruct p as [ | | | s | n | b | s | s | es | car cdr | name | ps lb ce | e0 ce ];
      try (eexists; reflexivity).
    destruct es as [| test cb]; [eexists; reflexivity |].
    destruct (eqTok test "else") eqn:Het.
    + cbn [condClausesToIf]. unfold isElseClause, index, bind, ret.
      cbn -[condClausesToIf]. rewrite Het.
      destruct pre; cbn; eexists; reflexivity.
    + rewrite condClausesToIf_plain by exact Het.
      exists e. apply (bind_panic _ _ _ _ _ IH).
Qed.

Lemma condClausesToIf_else_not_last_plain pre cbody c rest (st : St) :
  Forall (fun p => isPlainClause p = true) pre ->
  condClausesToIf (pre ++ ECompound (ETok "else" :: cbody) :: c :: rest) st
  = (Panic (ErrText "else clause must in the last position: cond->if"), st).
Proof.
  induction 1 as [| p pre Hp _ IH].
  - apply condClausesToIf_else_early.
  - cbn [app]. destruct p; try discriminate. destruct es as [| test cb]; [discriminate |].
    cbn in Hp. apply negb_true_iff in Hp.
    rewrite condClausesToIf_plain by exact Hp.
    apply (bind_panic _ _ _ _ _ IH).
Qed.

(** Clauses whose tests are all false are skipped: the expansion of
    [pre ++ post] evaluates as the expansion of [post] does, in the store
    the tests of [pre] left. *)
Lemma condClausesToIf_skips pre post alt :
  Forall (fun p => isPlainClause p = true) pre ->
  (forall st : St, condClausesToIf post st = (Ok alt, st)) ->
  exists whole,
    (forall st : St, condClausesToIf (pre ++ post) st = (Ok whole, st))
    /\ forall f k env (st0 st1 : St) r st',
         EvalsAllTo (Eval f k) env false (map testOf pre) st0 st1 ->
         Eval f (S k) alt env st1 = (r, st') -> definite r = true ->
         Eval (length pre + f) (S k) whole env st0 = (r, st').
Proof.
  intros Hpre Hpost. induction Hpre as [| p pre Hp _ (whole & Hwhole & IH)].
  - exists alt. split; [exact Hpost |].
    intros f k env st0 st1 r st' Hskip He _. inversion Hskip; subst. exact He.
  - destruct p; try discriminate. destruct es as [| test cb]; [discriminate |].
    cbn in Hp. apply negb_true_iff in Hp.
    exists (ECompound (makeIf test (ECompound (ETok "begin" :: cb)) whole)). split.
    + intros st. cbn [app]. rewrite condClausesToIf_plain by exact Hp.
      rewrite (bind_ok _ _ _ _ _ (Hwhole st)). reflexivity.
    + intros f k env st0 st1 r st' Hskip He Hd.
      cbn [map testOf] in Hskip. inversion Hskip as [| ? ? ? v sta ? Ht Hv Hrest]; subst.
      cbn [length Nat.add]. unfold makeIf.
      assert (Eval (length pre + f) k test env st0 = (Ok v, sta)) as Ht'
        by (apply (Eval_mono f (length pre + f) k k ltac:(lia) ltac:(lia) _ _ _ _ _ Ht eq_refl)).
      rewrite (Eval_if_branch _ _ _ _ _ _ _ _ _ Ht'). rewrite Hv. cbn [alternative].
      apply (IH f k env sta st1 r st' Hrest He Hd).
Qed.

End Cond.

(** C7: a [cond] form is expanded into nested [if] expressions and the
    expansion is evaluated (by a nested call of [Eval]).  No clause
    expands to the unspecified sentinel; a clause whose head is not
    [else] expands to an [if] of its test, of its body wrapped in an
    implicit [begin], and of the expansion of the clauses after it; a
    final [else] clause expands to its body wrapped in [begin].  An
    [else] clause that is not the last one makes the form panic,
    whatever the other clauses are.  So the clauses whose tests are false
    are skipped, the body of the first clause whose test is true, or of
    the [else] clause, gives the value, and when every test is false the
    value is the unspecified sentinel. *)
Theorem cond_desugars_to_nested_ifs :
  (forall (host : Host) (f k : nat) (env : EnvRef) (st : State Number),
      (forall clauses,
          Eval (S f) (S k) (ECompound (ETok "cond" :: clauses)) env st
          = bind (condClausesToIf clauses) (fun expanded => Eval f k expanded env) st)
      /\ condClausesToIf [] st = (Ok EUndef, st)
      /\ (forall test cbody rest, eqTok test "else" = false ->
            condClausesToIf (ECompound (test :: cbody) :: rest) st
            = bind (condClausesToIf rest)
                (fun alt => ret (ECompound [ETok "if"; test;
                                            ECompound (ETok "begin" :: cbody); alt])) st)
      /\ (forall cbody,
            condClausesToIf [ECompound (ETok "else" :: cbody)] st
            = (Ok (ECompound (ETok "begin" :: cbody)), st))
      /\ (forall pre cbody c rest,
            exists e,
              Eval (S f) (S k)
                (ECompound (ETok "cond" :: pre ++ ECompound (ETok "else" :: cbody) :: c :: rest))
                env st = (Panic e, st))
      /\ (forall pre cbody c rest,
            Forall (fun p => isPlainClause p = true) pre ->
            Eval (S f) (S k)
              (ECompound (ETok "cond" :: pre ++ ECompound (ETok "else" :: cbody) :: c :: rest))
              env st
            = (Panic (ErrText "else clause must in the last position: cond->if"), st))
      /\ (forall pre test cbody post alt st1 v st2 r st3,
            Forall (fun p => isPlainClause p = true) pre ->
            eqTok test "else" = false ->
            (forall s, condClausesToIf post s = (Ok alt, s)) ->
            EvalsAllTo (Eval f k) env false (map testOf pre) st st1 ->
            Eval f k test env st1 = (Ok v, st2) -> IsTrue v = true ->
            Eval f (S k) (ECompound (ETok "begin" :: cbody)) env st2 = (r, st3) ->
            definite r = true ->
            Eval (S (length pre + S f)) (S (S k))
              (ECompound (ETok "cond" :: pre ++ ECompound (test :: cbody) :: post)) env st
            = (r, st3))
      /\ (forall pre cbody st1 r st3,
            Forall (fun p => isPlainClause p = true) pre ->
            EvalsAllTo (Eval f k) env false (map testOf pre) st st1 ->
            Eval f (S k) (ECompound (ETok "begin" :: cbody)) env st1 = (r, st3) ->
            definite r = true ->
            Eval (S (length pre + f)) (S (S k))
              (ECompound (ETok "cond" :: pre ++ [ECompound (ETok "else" :: cbody)])) env st
            = (r, st3))
      /\ (forall pre st1,
            Forall (fun p => isPlainClause p = true) pre ->
            EvalsAllTo (Eval f k) env false (map testOf pre) st st1 ->
            Eval (S (length pre + S f)) (S (S k)) (ECompound (ETok "cond" :: pre)) env st
            = (Ok EUndef, st1)))
  /\ run 20 5 (form [tok "cond"; form [tok "#f"; tok "1"]; form [tok "#t"; tok "2"];
                     form [tok "else"; tok "3"]]) = Ok (ENumber 2%Z)
  /\ run 20 5 (form [tok "cond"; form [tok "#f"; tok "1"]; form [tok "else"; tok "3"]])
     = Ok (ENumber 3%Z)
  /\ run 20 5 (form [tok "cond"; form [tok "else"; tok "3"]; form [tok "#f"; tok "1"]])
     = Panic (ErrText "else clause must in the last position: cond->if")
  /\ run 20 5 (form [tok "cond"; form [tok "#f"; tok "1"]]) = Ok EUndef.
Proof.
  split; [| vm_compute; repeat split].
  intros host f k env st.
  split; [| split; [| split; [| split; [| split; [| split; [| split; [| split]]]]]]].
  - intros clauses. apply Eval_cond.
  - reflexivity.
  - intros test cbody rest Hne. apply condClausesToIf_plain. exact Hne.
  - intros cbody. apply condClausesToIf_else_last.
  - intros pre cbody c rest.
    destruct (condClausesToIf_else_not_last pre cbody c rest st) as [e He].
    exists e. rewrite Eval_cond. apply (bind_panic _ _ _ _ _ He).
  - intros pre cbody c rest Hpre. rewrite Eval_cond.
    apply (bind_panic _ _ _ _ _ (condClausesToIf_else_not_last_plain _ _ _ _ _ Hpre)).
  - intros pre test cbody post alt st1 v st2 r st3 Hpre Hne Hpost Hskip Ht Hv Hbody Hd.
    destruct (condClausesToIf_skips pre (ECompound (test :: cbody) :: post)
                (ECompound (makeIf test (ECompound (ETok "begin" :: cbody)) alt)) Hpre)
      as (whole & Hwhole & Hrun).
    { intros s. rewrite condClausesToIf_plain by exact Hne.
      rewrite (bind_ok _ _ _ _ _ (Hpost s)). reflexivity. }
    rewrite Eval_cond, (bind_ok _ _ _ _ _ (Hwhole st)).
    apply (Hrun (S f) k env st st1 r st3).
    + apply (EvalsAllTo_mono (Eval f k)); [| exact Hskip].
      apply Eval_mono; lia.
    + unfold makeIf. rewrite (Eval_if_branch _ _ _ _ _ _ _ _ _ Ht), Hv. exact Hbody.
    + exact Hd.
  - intros pre cbody st1 r st3 Hpre Hskip Hbody Hd.
    destruct (condClausesToIf_skips pre [ECompound (ETok "else" :: cbody)]
                (ECompound (ETok "begin" :: cbody)) Hpre)
      as (whole & Hwhole & Hrun).
    { intros s. apply condClausesToIf_else_last. }
    rewrite Eval_cond, (bind_ok _ _ _ _ _ (Hwhole st)).
    apply (Hrun f k env st st1 r st3 Hskip Hbody Hd).
  - intros pre st1 Hpre Hskip.
    destruct (condClausesToIf_skips pre [] EUndef Hpre) as (whole & Hwhole & Hrun).
    { intros s. reflexivity. }
    rewrite Eval_cond. rewrite app_nil_r in Hwhole. rewrite (bind_ok _ _ _ _ _ (Hwhole st)).
    apply (Hrun (S f) k env st st1 (Ok EUndef) st1).
    + apply (EvalsAllTo_mono (Eval f k)); [| exact Hskip].
      apply Eval_mono; lia.
    + reflexivity.
    + reflexivity.
Qed.

(** [(cond (#f 1) (#t 2) (else 3))]: the first clause is skipped, the
    second gives 2. *)
Lemma cond_desugars_to_nested_ifs_witness :
  Eval 5 4 (form [tok "cond"; form [tok "#f"; tok "1"]; form [tok "#t"; tok "2"];
                  form [tok "else"; tok "3"]]) 0 rootState
  = (Ok (ENumber 2%Z), rootState).
Proof.
  apply (proj1 (proj2 (proj2 (proj2 (proj2 (proj2 (proj2
           (proj1 cond_desugars_to_nested_ifs demo 2 2 0 rootState)))))))
           [form [tok "#f"; tok "1"]] (tok "#t") [tok "2"] [form [tok "else"; tok "3"]]
           (form [tok "begin"; tok "3"]) rootState (EBool true) rootState
           (Ok (ENumber 2%Z)) rootState).
  - repeat constructor.
  - reflexivity.
  - intros s. reflexivity.
  - apply (EvalsAllTo_cons (host := demo) _ _ _ _ _ _ (EBool false) rootState rootState);
      [reflexivity | reflexivity |].
    apply (EvalsAllTo_nil (host := demo)).
  - reflexivity.
  - reflexivity.
  - reflexivity.
  - reflexivity.
Defined.

(** ** [quote] and [apply] *)

Section Quotation.
Context `{host : Host}.

Abbreviation Expr := (Expression Number).
Abbreviation St := (State Number).

Lemma Eval_quote f k x rest env (st : St) :
  Eval (S f) (S k) (ECompound (ETok "quote" :: x :: rest)) env st = evalQuote x env st.
Proof.
  rewrite Eval_step, body_application by reflexivity.
  unfold application, isQuoteExpression, done, index, bind, ret. cbn -[evalQuote].
  destruct (evalQuote x env st) as [[v | e | | ] st1]; reflexivity.
Qed.

Lemma Eval_apply f k pexp lexp env (st : St) :
  Eval (S f) (S k) (ECompound [ETok "apply"; pexp; lexp]) env st
  = evalApply (Eval f k) (ECompound [pexp; lexp]) env st.
Proof.
  rewrite Eval_step. unfold body. cbn -[evalApply].
  unfold done, sliceFrom. cbn -[evalApply]. unfold bind, ret.
  destruct (evalApply _ _ _ st) as [[v | e | | ] st1]; reflexivity.
Qed.

Lemma Literal_listImpl (vs : list Expr) : Forall Literal vs -> Literal (listImpl vs).
Proof. induction 1; cbn; constructor; assumption. Qed.

(** What [evalQuote] returns holds no compound form and no raw token, and
    quoting touches no state. *)
Lemma evalQuote_literal x env (st st' : St) v :
  evalQuote x env st = (Ok v, st') -> st' = st /\ Literal v.
Proof.
  revert st st' v.
  induction x as [ | | | s | n | b | s | s | es IH | car cdr _ _ | name
                 | params lbody cenv _ | e0 cenv _ ] using Expression_nested_ind;
    intros st st' v; try discriminate.
  - cbn [evalQuote IsNumber IsString]. unfold expressionToNumber, expToString.
    cbn [IsNumber]. destruct (IsNumberTok s); cbn [negb].
    + intros [= <- <-]. split; [reflexivity | constructor].
    + destruct (IsStringTok s).
      * destruct (firstQuoted s); [| discriminate].
        intros [= <- <-]. split; [reflexivity | constructor].
      * intros [= <- <-]. split; [reflexivity | constructor].
  - intros [= <- <-]. split; [reflexivity | constructor].
  - rewrite evalQuote_compound. intros H.
    apply bind_ok_inv in H as (vs & st1 & Hvs & H). injection H as <- <-.
    assert (st1 = st /\ Forall Literal vs) as [-> Hlit].
    { clear -IH Hvs. revert st st1 vs Hvs.
      induction IH as [| e es He _ IHes]; intros st st1 vs; cbn.
      - intros [= <- <-]. split; [reflexivity | constructor].
      - intros H. apply bind_ok_inv in H as (a & sta & Ha & H).
        apply bind_ok_inv in H as (rest & stb & Hrest & H). injection H as <- <-.
        destruct (He _ _ _ Ha) as [-> Hla].
        destruct (IHes _ _ _ Hrest) as [-> Hlrest].
        split; [reflexivity | constructor; assumption]. }
    split; [reflexivity | apply Literal_listImpl; exact Hlit].
Qed.

Lemma IsNull_listImpl (v : Expr) vs : IsNull v (listImpl vs) = false.
Proof. destruct vs; destruct v; reflexivity. Qed.

(** The Pair chain of a sequence gives the sequence back. *)
Lemma extractList_listImpl (vs : list Expr) : extractList (listImpl vs) = vs.
Proof.
  induction vs as [| v vs IH]; [reflexivity |].
  cbn. rewrite IsNull_listImpl, IH. reflexivity.
Qed.

Lemma IsList_listImpl (v : Expr) vs : IsList (listImpl (v :: vs)) = true.
Proof.
  revert v. induction vs as [| w vs IH]; intros v.
  - cbn. destruct v; reflexivity.
  - change (listImpl (v :: w :: vs)) with (EPair v (listImpl (w :: vs))).
    cbn [IsList]. rewrite IsNull_listImpl.
    change (listImpl (w :: vs)) with (EPair w (listImpl vs)) at 1.
    cbv iota. apply IH.
Qed.

(** [apply] unpacks the list in order behind the procedure and evaluates
    the application it built. *)
Lemma evalApply_unpacks (rec : EvalFn) pexp lexp env (st st1 st2 : St) procedure v vs :
  rec pexp env st = (Ok procedure, st1) ->
  rec lexp env st1 = (Ok (listImpl (v :: vs)), st2) ->
  evalApply rec (ECompound [pexp; lexp]) env st
  = rec (ECompound (procedure :: v :: vs)) env st2.
Proof.
  intros Hp Hl. unfold evalApply. cbn [length Nat.eqb negb].
  unfold index. cbn [lookup list_lookup].
  unfold bind at 1. cbn [ret]. rewrite (bind_ok _ _ _ _ _ Hp).
  unfold bind at 1. cbn [ret]. rewrite (bind_ok _ _ _ _ _ Hl).
  unfold isList. change (listImpl (v :: vs)) with (EPair v (listImpl vs)) at 1.
  cbv iota.
  change (EPair v (listImpl vs)) with (listImpl (v :: vs)).
  rewrite IsList_listImpl. cbn [negb].
  rewrite extractList_listImpl. reflexivity.
Qed.

(** A literal value evaluates to itself. *)
Lemma Eval_literal f k v env (st : St) :
  Literal v -> Eval (S f) (S k) v env st = (Ok v, st).
Proof.
  intros Hv. destruct Hv as [n | s | s | | car cdr Hcar Hcdr]; try reflexivity.
  destruct Hcar; reflexivity.
Qed.

Lemma quoteAll_literal xs env (st st' : St) vs :
  quoteAll xs env st = (Ok vs, st') -> st' = st /\ Forall Literal vs.
Proof.
  revert st st' vs. induction xs as [| x xs IH]; intros st st' vs; cbn.
  - intros [= <- <-]. split; [reflexivity | constructor].
  - intros H. apply bind_ok_inv in H as (a & sta & Ha & H).
    apply bind_ok_inv in H as (rest & stb & Hrest & H). injection H as <- <-.
    destruct (evalQuote_literal _ _ _ _ _ Ha) as [-> Hla].
    destruct (IH _ _ _ Hrest) as [-> Hlrest].
    split; [reflexivity | constructor; assumption].
Qed.

(** Literal operands are bound as they are. *)
Lemma BindsInOrder_literals f k env a vs : forall ps (st : St),
  Forall Literal vs -> length ps = length vs ->
  exists st', BindsInOrder (Eval (S f) (S k)) env a ps vs vs st st'.
Proof.
  induction vs as [| v vs IH]; intros ps st Hlit Hlen.
  - destruct ps; [| discriminate]. exists st. constructor.
  - destruct ps as [| p ps]; [discriminate |].
    apply Forall_cons in Hlit as [Hv Hvs].
    destruct (IH ps (snd (EnvSet a p v st)) Hvs ltac:(cbn in Hlen; lia)) as [st' Hst'].
    exists st'. econstructor; [apply Eval_literal; exact Hv | exact Hst'].
Qed.

(** Literal operands change no state, so the frame they are bound in
    holds, in the end, the parameters bound to them. *)
Lemma BindsInOrder_frame_literals f k env a ps es vs (st st' : St) fr :
  Forall Literal es ->
  BindsInOrder (Eval (S f) (S k)) env a ps es vs st st' ->
  heap st !! a = Some fr ->
  heap st' !! a = Some (mkEnv (outer fr) (bound ps vs (frame fr))).
Proof.
  intros Hlit H. revert fr.
  induction H as [st | p ps e es v vs st st1 st2 He _ IH]; intros fr Hfr.
  - cbn. destruct fr. exact Hfr.
  - apply Forall_cons in Hlit as [Hl Hlit].
    rewrite (Eval_literal _ _ _ _ _ Hl) in He. injection He as <- <-.
    cbn [bound]. specialize (IH Hlit (mkEnv (outer fr) (<[p := e]> (frame fr)))).
    apply IH. cbn [EnvSet snd heap]. rewrite list_lookup_alter_eq.
    unfold EnvRef in *. rewrite Hfr. reflexivity.
Qed.

(** [apply] of a closure to a quoted list: the frame of the call binds
    the parameters, by position, to the quoted elements. *)
Lemma apply_quote_binds f k env pexp xs params lbody cenv (st st1 : St) v vs :
  env < length (heap st) ->
  Eval f k pexp env st = (Ok (ELambda params lbody cenv), st1) ->
  quoteAll xs env st1 = (Ok (v :: vs), st1) ->
  length params = length (v :: vs) ->
  exists st3,
    Eval (S (S f)) (S (S k))
      (ECompound [ETok "apply"; pexp; ECompound [ETok "quote"; ECompound xs]]) env st
    = Eval f (S k) (Body lbody) (length (heap st1)) st3
    /\ heap st3 !! length (heap st1)
       = Some (mkEnv (Some cenv) (bound params (v :: vs) ∅)).
Proof.
  intros Henv Hop Hq Hlen.
  destruct (Eval_definite_pos _ _ _ _ _ _ _ Hop eq_refl) as (f' & k' & -> & ->).
  destruct (quoteAll_literal _ _ _ _ _ Hq) as [_ Hlit].
  assert (length (heap st) <= length (heap st1)) as Hgrow.
  { pose proof (extends_length _ _ (preserving_Eval (S f') (S k') pexp env st)) as H.
    rewrite Hop in H. exact H. }
  destruct (BindsInOrder_literals f' k' env (length (heap st1)) (v :: vs) params
              (snd (allocEnv cenv st1)) Hlit Hlen) as [st3 Hbind].
  exists st3. split.
  - rewrite Eval_apply.
    rewrite (evalApply_unpacks (Eval (S (S f')) (S (S k'))) pexp _ env st st1 st1
               (ELambda params lbody cenv) v vs).
    + rewrite Eval_application by reflexivity.
      rewrite (bind_ok _ _ _ (ELambda params lbody cenv) st1) by reflexivity.
      unfold bind at 1. cbn [allocEnv].
      destruct (BindsInOrder_length _ _ _ _ _ _ _ _ Hbind) as [Hl _].
      apply Nat.eqb_eq in Hl. rewrite Hl. cbn [negb].
      pose proof (bindArgs_in_order _ _ _ _ _ _ _ _ Hbind []) as Hb.
      cbn [app length snd allocEnv] in Hb.
      unfold bind. rewrite Hb. reflexivity.
    + apply (Eval_mono (S f') (S (S f')) (S k') (S (S k')) ltac:(lia) ltac:(lia)
               _ _ _ _ _ Hop eq_refl).
    + rewrite Eval_quote, evalQuote_compound, (bind_ok _ _ _ _ _ Hq). reflexivity.
  - apply (BindsInOrder_frame_literals f' k' env _ params (v :: vs) (v :: vs) _ st3
             (mkEnv (Some cenv) ∅) Hlit Hbind).
    cbn. apply list_lookup_middle. reflexivity.
Qed.

End Quotation.

(** C9: [quote] takes its operand unevaluated.  A compound form is quoted
    element by element and the results are put in a Pair chain, so the
    value holds no compound form and no raw token; a number, or a token
    that reads as a number, gives the number; a token that is a string
    literal gives the string; any other token gives a Quote symbol.  The
    Pair chain of a non-empty sequence is a proper list that unpacks to
    the same sequence, and [apply] puts it, in order, behind the
    procedure; when the procedure is a closure with as many parameters
    as the quoted list has elements, the frame of the call binds the
    parameters to the elements by position: [(quote (1 2 3))] applied to
    a procedure of three parameters binds them to 1, 2 and 3. *)
Theorem quote_materializes_pair_chain :
  (forall (host : Host) (f k : nat) (env : EnvRef) (st : State Number),
      (forall x rest,
          Eval (S f) (S k) (ECompound (ETok "quote" :: x :: rest)) env st
          = evalQuote x env st)
      /\ (forall es,
            evalQuote (ECompound es) env st
            = bind (quoteAll es env) (fun vs => ret (listImpl vs)) st)
      /\ (forall x v st', evalQuote x env st = (Ok v, st') -> st' = st /\ Literal v)
      /\ (forall n, evalQuote (ENumber n) env st = (Ok (ENumber n), st))
      /\ (forall s, IsNumberTok s = true ->
            evalQuote (ETok s) env st = (Ok (ENumber (ParseFloat s)), st))
      /\ (forall s t, IsNumberTok s = false -> IsStringTok s = true ->
            firstQuoted s = Some t ->
            evalQuote (ETok s) env st = (Ok (EString t), st))
      /\ (forall s, IsNumberTok s = false -> IsStringTok s = false ->
            evalQuote (ETok s) env st = (Ok (EQuote s), st))
      /\ (forall v vs,
            isList (listImpl (v :: vs)) = true
            /\ extractList (listImpl (v :: vs)) = v :: vs)
      /\ (forall pexp lexp procedure st1 v vs st2,
            Eval f k pexp env st = (Ok procedure, st1) ->
            Eval f k lexp env st1 = (Ok (listImpl (v :: vs)), st2) ->
            Eval (S f) (S k) (ECompound [ETok "apply"; pexp; lexp]) env st
            = Eval f k (ECompound (procedure :: v :: vs)) env st2)
      /\ (forall pexp xs params lbody cenv st1 v vs,
            env < length (heap st) ->
            Eval f k pexp env st = (Ok (ELambda params lbody cenv), st1) ->
            quoteAll xs env st1 = (Ok (v :: vs), st1) ->
            length params = length (v :: vs) ->
            exists st3,
              Eval (S (S f)) (S (S k))
                (ECompound [ETok "apply"; pexp; ECompound [ETok "quote"; ECompound xs]])
                env st
              = Eval f (S k) (Body lbody) (length (heap st1)) st3
              /\ heap st3 !! length (heap st1)
                 = Some (mkEnv (Some cenv) (bound params (v :: vs) ∅))))
  /\ run 20 5 (form [tok "quote"; form [tok "1"; tok "2"; tok "3"]])
     = Ok (EPair (ENumber 1%Z) (EPair (ENumber 2%Z) (EPair (ENumber 3%Z) ENilObj)))
  /\ run 20 5 (apply_pick "a") = Ok (ENumber 1%Z)
  /\ run 20 5 (apply_pick "b") = Ok (ENumber 2%Z)
  /\ run 20 5 (apply_pick "c") = Ok (ENumber 3%Z).
Proof.
  split; [| vm_compute; repeat split].
  intros host f k env st.
  split; [| split; [| split; [| split; [| split; [| split; [| split; [| split;
    [| split]]]]]]]].
  - intros x rest. apply Eval_quote.
  - intros es. rewrite evalQuote_compound. reflexivity.
  - intros x v st' H. apply (evalQuote_literal _ _ _ _ _ H).
  - intros n. reflexivity.
  - intros s Hn. cbn [evalQuote IsNumber]. rewrite Hn.
    unfold expressionToNumber. cbn [IsNumber]. rewrite Hn. reflexivity.
  - intros s t Hn Hs Ht. cbn [evalQuote IsNumber IsString]. rewrite Hn, Hs.
    unfold expToString. rewrite Ht. reflexivity.
  - intros s Hn Hs. cbn [evalQuote IsNumber IsString]. rewrite Hn, Hs. reflexivity.
  - intros v vs. split.
    + apply (IsList_listImpl v vs).
    + apply extractList_listImpl.
  - intros pexp lexp procedure st1 v vs st2 Hp Hl.
    rewrite Eval_apply. apply (evalApply_unpacks _ _ _ _ _ _ _ _ _ _ Hp Hl).
  - intros pexp xs params lbody cenv st1 v vs Henv Hop Hq Hlen.
    apply (apply_quote_binds f k env pexp xs params lbody cenv st st1 v vs Henv Hop Hq Hlen).
Qed.

(** [(apply + (quote (1 2 3)))]: the synthetic application is the builtin
    followed by 1, 2 and 3. *)
Lemma quote_materializes_pair_chain_witness :
  Eval 4 3 (form [tok "apply"; tok "+"; form [tok "quote"; form [tok "1"; tok "2"; tok "3"]]])
    0 rootState
  = Eval 3 2 (form [EFunction "+"; ENumber 1%Z; ENumber 2%Z; ENumber 3%Z]) 0 rootState.
Proof.
  apply (proj1 (proj2 (proj2 (proj2 (proj2 (proj2 (proj2 (proj2 (proj2
           (proj1 quote_materializes_pair_chain demo 3 2 0 rootState)))))))))
           (tok "+") (form [tok "quote"; form [tok "1"; tok "2"; tok "3"]])
           (EFunction "+") rootState (ENumber 1%Z) [ENumber 2%Z; ENumber 3%Z] rootState).
  - reflexivity.
  - reflexivity.
Defined.

(** ** [eval] *)

Section MetaEvaluation.
Context `{host : Host}.

Abbreviation Expr := (Expression Number).
Abbreviation St := (State Number).

Lemma Eval_eval f k operand rest env (st : St) :
  Eval (S f) (S k) (ECompound (ETok "eval" :: operand :: rest)) env st
  = evalEval (Eval f k) operand env st.
Proof.
  rewrite Eval_step. unfold body. cbn -[evalEval].
  unfold done, bind, ret.
  destruct (evalEval _ _ _ st) as [[v | e | | ] st1]; reflexivity.
Qed.

(** [validEvalExp] accepts the values all of whose Pair cells are proper
    lists; a value that is not a Pair has no such cell. *)
Lemma validEvalExp_spec (v : Expr) :
  validEvalExp v = true <-> (forall p, SubPair p v -> IsList p = true).
Proof.
  induction v as [ | | | s | n | b | s | s | es _ | car cdr IHcar IHcdr | name
                 | params lbody cenv _ | e0 cenv _ ] using Expression_nested_ind;
    try (split; [intros _ p Hp; inversion Hp | reflexivity]).
  cbn [validEvalExp]. split.
  - intros H p Hp.
    destruct (IsList (EPair car cdr)) eqn:Hl; [| discriminate]. cbn [negb] in H.
    apply andb_prop in H as [Hcar Hcdr].
    inversion Hp; subst.
    + exact Hl.
    + apply IHcar; assumption.
    + apply IHcdr; assumption.
  - intros H. rewrite (H _ (SubPair_here car cdr)). cbn [negb].
    apply andb_true_intro. split.
    + apply IHcar. intros p Hp. apply H. apply SubPair_car. exact Hp.
    + apply IHcdr. intros p Hp. apply H. apply SubPair_cdr. exact Hp.
Qed.

(** The deferred [recover] of [EvalAll]: no panic leaves it. *)
Lemma EvalAll_from_no_panic (rec : EvalFn) es env r0 (st st' : St) e :
  EvalAll_from rec es env r0 st <> (Panic e, st').
Proof.
  revert r0 st. induction es as [| x es IH]; intros r0 st; cbn [EvalAll_from].
  - discriminate.
  - destruct (rec x env st) as [[v | err | | ] st1]; try discriminate. apply IH.
Qed.

Lemma last_cons_default (v : Expr) vs r0 : List.last (v :: vs) r0 = List.last vs v.
Proof.
  revert v r0. induction vs as [| w vs IH]; intros v r0; [reflexivity |].
  change (List.last (v :: w :: vs) r0) with (List.last (w :: vs) r0).
  rewrite IH. symmetry. apply IH.
Qed.

(** The form that panics ends the sequence: the panic is printed, the
    forms after it are not evaluated, and the result is the value of the
    last form that succeeded. *)
Lemma EvalAll_from_catches (rec : EvalFn) env pre x post vs r0 (st st1 st2 : St) e :
  EvalsInOrder rec env pre st vs st1 ->
  rec x env st1 = (Panic e, st2) ->
  EvalAll_from rec (pre ++ x :: post) env r0 st
  = (Ok (List.last vs r0), mkState (heap st2) (out st2 ++ [OutPanic e])).
Proof.
  intros Hpre Hx. revert r0.
  induction Hpre as [st | e0 es st v sta vs st1 He _ IH]; intros r0.
  - cbn. rewrite Hx. reflexivity.
  - cbn [app EvalAll_from]. rewrite He. rewrite (IH Hx v).
    rewrite last_cons_default. reflexivity.
Qed.

End MetaEvaluation.

(** C8, as the code has it.  The operand of [eval] is evaluated first.
    When its value has a Pair cell that is not a proper list the form
    panics with "error: malformed list"; every other value is accepted,
    a value that is not a Pair (a number, a string, a symbol) too.  An
    accepted value is printed, read back, and the forms are evaluated in
    sequence by [EvalAll]: a panic of one of these forms is caught there
    and printed, the forms after it are dropped, and [eval] returns
    normally, so no panic of this secondary evaluation reaches the form
    that invoked [eval]. *)
Theorem eval_checks_pairs_and_catches_failures :
  (forall (host : Host) (f k : nat) (operand : Expression Number)
          (rest : list (Expression Number)) (env : EnvRef) (st : State Number),
      (forall e st1, Eval f k operand env st = (Panic e, st1) ->
         Eval (S f) (S k) (ECompound (ETok "eval" :: operand :: rest)) env st
         = (Panic e, st1))
      /\ (forall v st1, Eval f k operand env st = (Ok v, st1) ->
            validEvalExp v = false ->
            Eval (S f) (S k) (ECompound (ETok "eval" :: operand :: rest)) env st
            = (Panic (ErrText "error: malformed list"), st1))
      /\ (forall v, validEvalExp v = true <-> (forall p, SubPair p v -> IsList p = true))
      /\ (forall v st1 forms, Eval f k operand env st = (Ok v, st1) ->
            validEvalExp v = true ->
            Parse (Tokens (valueToString v)) = inl forms ->
            Eval (S f) (S k) (ECompound (ETok "eval" :: operand :: rest)) env st
            = EvalAll (Eval f k) forms env st1)
      /\ (forall v st1 forms e st', Eval f k operand env st = (Ok v, st1) ->
            validEvalExp v = true ->
            Parse (Tokens (valueToString v)) = inl forms ->
            Eval (S f) (S k) (ECompound (ETok "eval" :: operand :: rest)) env st
            <> (Panic e, st'))
      /\ (forall rec forms st0 e st', EvalAll rec forms env st0 <> (Panic e, st'))
      /\ (forall rec pre x post vs st0 st1 e st2,
            EvalsInOrder rec env pre st0 vs st1 ->
            rec x env st1 = (Panic e, st2) ->
            EvalAll rec (pre ++ x :: post) env st0
            = (Ok (List.last vs ENil), mkState (heap st2) (out st2 ++ [OutPanic e]))))
  /\ run 20 5 (form [tok "eval"; form [tok "quote"; form [tok "+"; tok "1"; tok "2"]]])
     = Ok (ENumber 3%Z)
  /\ Eval 20 5 (form [tok "eval"; form [tok "quote"; form [tok "boom"]]]) 0 rootState
     = (Ok ENil, mkState (heap rootState) [OutPanic (ErrUnbound "boom")])
  /\ Eval 20 5 (form [tok "begin";
                      form [tok "eval"; form [tok "quote"; form [tok "boom"]]];
                      tok "7"]) 0 rootState
     = (Ok (ENumber 7%Z), mkState (heap rootState) [OutPanic (ErrUnbound "boom")]).
Proof.
  split; [| vm_compute; repeat split].
  intros host f k operand rest env st.
  split; [| split; [| split; [| split; [| split; [| split]]]]].
  - intros e st1 Hop. rewrite Eval_eval. unfold evalEval.
    apply (bind_panic _ _ _ _ _ Hop).
  - intros v st1 Hop Hbad. rewrite Eval_eval. unfold evalEval.
    rewrite (bind_ok _ _ _ _ _ Hop). rewrite Hbad. reflexivity.
  - intros v. apply validEvalExp_spec.
  - intros v st1 forms Hop Hgood Hparse. rewrite Eval_eval. unfold evalEval.
    rewrite (bind_ok _ _ _ _ _ Hop). rewrite Hgood, Hparse. reflexivity.
  - intros v st1 forms e st' Hop Hgood Hparse. rewrite Eval_eval. unfold evalEval.
    rewrite (bind_ok _ _ _ _ _ Hop). rewrite Hgood, Hparse. cbn [negb].
    apply EvalAll_from_no_panic.
  - intros rec forms st0 e st'. apply EvalAll_from_no_panic.
  - intros rec pre x post vs st0 st1 e st2 Hpre Hx.
    apply (EvalAll_from_catches _ _ _ _ _ _ _ _ _ _ _ Hpre Hx).
Qed.

(** [(eval (cons 1 2))]: the value is a Pair that is not a proper list. *)
Lemma eval_checks_pairs_and_catches_failures_witness :
  Eval 4 3 (form [tok "eval"; form [tok "cons"; tok "1"; tok "2"]]) 0 rootState
  = (Panic (ErrText "error: malformed list"), rootState).
Proof.
  apply (proj1 (proj2 (proj1 eval_checks_pairs_and_catches_failures demo 3 2
                         (form [tok "cons"; tok "1"; tok "2"]) [] 0 rootState))
           (EPair (ENumber 1%Z) (ENumber 2%Z)) rootState).
  - reflexivity.
  - reflexivity.
Defined.

(** C8 fails for a value that is no list at all: [(eval 5)] raises no
    malformed-list error and evaluates to 5, and [5] is accepted by
    [validEvalExp] although it is not a Pair chain. *)
Lemma eval_accepts_atoms :
  run 20 5 (form [tok "eval"; tok "5"]) = Ok (ENumber 5%Z)
  /\ validEvalExp (host := demo) (ENumber 5%Z) = true
  /\ isList (host := demo) (ENumber 5%Z) = false.
Proof. vm_compute. repeat split. Qed.

(** ** What every evaluation keeps

    Whatever [Eval] does to the state, it does by printing, by setting a
    binding and by allocating a frame: a relation that these three steps
    respect, and that is reflexive and transitive, holds between the state
    before and the state after any evaluation. *)

Section Invariants.
Context `{host : Host}.

Abbreviation Expr := (Expression Number).
Abbreviation St := (State Number).

Variable R : St -> St -> Prop.
Hypothesis R_refl : forall st, R st st.
Hypothesis R_trans : forall st1 st2 st3, R st1 st2 -> R st2 st3 -> R st1 st3.
Hypothesis R_out : forall st o, R st (mkState (heap st) (out st ++ o)).
Hypothesis R_set : forall env s v st, R st (snd (EnvSet env s v st)).
Hypothesis R_alloc : forall o st, R st (snd (allocEnv o st)).

Lemma respects_ret {A} (a : A) : respects R (ret a).
Proof. intros st. apply R_refl. Qed.

Lemma respects_panic {A} e : respects R (panic (A := A) e).
Proof. intros st. apply R_refl. Qed.

Lemma respects_unchanged {A} (m : M A) : unchanged m -> respects R m.
Proof. intros H st. rewrite H. apply R_refl. Qed.

Lemma respects_bind {A B} (m : M A) (k : A -> M B) :
  respects R m -> (forall a, respects R (k a)) -> respects R (bind m k).
Proof.
  intros Hm Hk st. unfold bind.
  specialize (Hm st). destruct (m st) as [[a | e | | ] st1]; cbn in *; try exact Hm.
  apply (R_trans _ st1); [exact Hm | apply Hk].
Qed.

Lemma respects_print o : respects R (print o).
Proof. intros st. apply R_out. Qed.

Lemma respects_runNative rec t : respectsFn R rec -> respects R (runNative rec t).
Proof.
  intros Hrec. induction t as [o r | o e env next IH]; cbn [runNative].
  - intros st. apply R_out.
  - apply respects_bind; [| intros v; apply IH].
    intros st. apply (R_trans _ (mkState (heap st) (out st ++ o))); [apply R_out | apply Hrec].
Qed.

Lemma respects_callBuiltin rec name args :
  respectsFn R rec -> respects R (callBuiltin rec name args).
Proof. apply respects_runNative. Qed.

Ltac respect Hrec :=
  repeat first
    [ apply respects_ret
    | apply respects_panic
    | apply respects_print
    | apply respects_callBuiltin; exact Hrec
    | (intros ?; apply R_set)
    | (intros ?; apply R_alloc)
    | apply respects_unchanged, unchanged_index
    | apply respects_unchanged, unchanged_sliceFrom
    | apply respects_unchanged, unchanged_Find
    | apply respects_unchanged, unchanged_expToString
    | apply respects_unchanged, unchanged_expressionToNumber
    | apply respects_unchanged, unchanged_transExpressionToSymbol
    | apply respects_unchanged, unchanged_transAll
    | apply respects_unchanged, unchanged_evalQuote
    | apply respects_unchanged, unchanged_condClausesToIf
    | apply Hrec
    | match goal with
      | H : respects R ?m |- respects R ?m => exact H
      | H : forall _, respects R _ |- respects R _ => apply H
      | |- respects R (bind _ _) => apply respects_bind; [| intros ?]
      | |- respects R (if ?b then _ else _) => destruct b
      | |- respects R (match ?x with _ => _ end) => destruct x
      end ].

Section Loops.
Variables (rec : EvalFn) (env : EnvRef).
Hypothesis Hrec : respectsFn R rec.

Lemma respects_andLoop es : respects R (andLoop rec es env).
Proof. induction es as [| e es IH]; cbn [andLoop]; respect Hrec. Qed.

Lemma respects_orLoop es : respects R (orLoop rec es env).
Proof. induction es as [| e es IH]; cbn [orLoop]; respect Hrec. Qed.

Lemma respects_evalEach es : respects R (evalEach rec es env).
Proof. induction es as [| e es IH]; cbn [evalEach]; respect Hrec. Qed.

Lemma respects_evalArgs es : respects R (evalArgs rec es env).
Proof. induction es as [| e es IH]; cbn [evalArgs]; respect Hrec. Qed.

Lemma respects_bindArgs a ps i es : respects R (bindArgs rec a ps i es env).
Proof. revert i. induction es as [| e es IH]; intros i; cbn [bindArgs]; respect Hrec. Qed.

Lemma respects_EvalAll_from es r0 : respects R (EvalAll_from rec es env r0).
Proof.
  revert r0. induction es as [| e es IH]; intros r0 st; cbn [EvalAll_from].
  - apply R_refl.
  - pose proof (Hrec e env st) as Hst.
    destruct (rec e env st) as [[v | err | | ] st1]; cbn in *; try exact Hst.
    + apply (R_trans _ st1); [exact Hst | apply IH].
    + apply (R_trans _ st1); [exact Hst | apply R_out].
Qed.

Lemma respects_Run forms : respects R (Run rec forms env).
Proof.
  induction forms as [| e es IH]; intros st; cbn [Run].
  - apply R_refl.
  - pose proof (Hrec e env st) as Hst.
    destruct (rec e env st) as [[v | err | | ] st1]; cbn in *; try exact Hst.
    + apply (R_trans _ st1); [exact Hst | apply IH].
    + apply (R_trans _ st1); [exact Hst |].
      apply (R_trans _ (mkState (heap st1) (out st1 ++ [OutPanic err])));
        [apply R_out | apply IH].
Qed.

Lemma respects_loadFile path : respects R (loadFile rec path env).
Proof.
  unfold loadFile. destruct (ReadForms _); [apply respects_Run | apply respects_print].
Qed.

Lemma respects_evalLoad d x : respects R (evalLoad d rec x env).
Proof.
  revert x. induction d as [| d IH]; intros x; cbn [evalLoad].
  - intros st. apply R_refl.
  - apply respects_bind; [apply Hrec | intros v].
    apply respects_bind; [| intros u; apply respects_ret].
    destruct v; try apply respects_panic; try apply respects_loadFile.
    destruct (isList _); [| apply respects_ret].
    generalize (extractList (EPair v1 v2)). intros l.
    induction l as [| p l IHl]; [apply respects_ret |].
    apply respects_bind; [apply IH | intros r; exact IHl].
Qed.

Lemma respects_body d x : respects R (body rec d x env).
Proof.
  unfold body.
  repeat match goal with
         | |- respects R (if ?b then _ else _) => destruct b
         end.
  - respect Hrec.
  - respect Hrec.
  - unfold done. respect Hrec.
  - respect Hrec.
  - unfold done. respect Hrec.
  - unfold done. respect Hrec.
  - unfold done, evalDefine. respect Hrec.
  - unfold done, evalEval, EvalAll. respect Hrec. apply respects_EvalAll_from.
  - unfold done, evalApply. respect Hrec.
  - unfold evalIf, conditionOfIfExpression, trueExpOfIfExpression, elseExpOfIfExpression.
    respect Hrec.
  - unfold done, evalCond, expandCond, condClauses. respect Hrec.
  - unfold evalBegin. respect Hrec. apply respects_evalEach.
  - unfold done, evalLambda. respect Hrec.
  - unfold done. respect Hrec. apply respects_evalLoad.
  - unfold done, evalDelay. respect Hrec.
  - unfold done, evalAnd. respect Hrec. apply respects_andLoop.
  - unfold done, evalOr. respect Hrec. apply respects_orLoop.
  - unfold application, isQuoteExpression, done. respect Hrec.
    + apply respects_evalArgs.
    + apply respects_bindArgs.
Qed.

End Loops.

Lemma respects_Eval f : forall k, respectsFn R (Eval f k).
Proof.
  induction f as [| f IH]; intros k e env st.
  - apply R_refl.
  - destruct k as [| k]; [apply R_refl |].
    rewrite Eval_step.
    apply respects_bind.
    + apply respects_body. apply IH.
    + intros [v | e' env']; [apply respects_ret | apply IH].
Qed.

End Invariants.

Section KeptByEval.
Context `{host : Host}.

Abbreviation Expr := (Expression Number).
Abbreviation St := (State Number).

Lemma persists_refl (st : St) : persists st st.
Proof. intros a fr H. exists fr. repeat split; [exact H | intros s Hs; exact Hs]. Qed.

Lemma persists_trans (st1 st2 st3 : St) :
  persists st1 st2 -> persists st2 st3 -> persists st1 st3.
Proof.
  intros H12 H23 a fr H.
  destruct (H12 a fr H) as (fr2 & H2 & E2 & D2).
  destruct (H23 a fr2 H2) as (fr3 & H3 & E3 & D3).
  exists fr3. repeat split; [exact H3 | congruence | intros s Hs; apply D3, D2, Hs].
Qed.

Lemma persists_out (st : St) o : persists st (mkState (heap st) (out st ++ o)).
Proof. intros a fr H. exists fr. repeat split; [exact H | intros s Hs; exact Hs]. Qed.

Lemma persists_set env s v (st : St) : persists st (snd (EnvSet env s v st)).
Proof.
  intros a fr H. cbn.
  destruct (decide (a = env)) as [-> | Hne].
  - exists (mkEnv (outer fr) (<[s := v]> (frame fr))). repeat split.
    + rewrite list_lookup_alter_eq. unfold EnvRef in *. rewrite H. reflexivity.
    + intros s0 Hs0. cbn. destruct (decide (s = s0)) as [-> | Hs].
      * rewrite lookup_insert_eq. eexists. reflexivity.
      * rewrite lookup_insert_ne by exact Hs. exact Hs0.
  - exists fr. repeat split; [| intros s0 Hs0; exact Hs0].
    rewrite list_lookup_alter_ne by congruence. exact H.
Qed.

Lemma persists_alloc o (st : St) : persists st (snd (allocEnv o st)).
Proof.
  intros a fr H. cbn. exists fr. repeat split; [| intros s Hs; exact Hs].
  apply lookup_app_l_Some. exact H.
Qed.

(** A lookup that finds a binding finds one in every later state. *)
Lemma Find_from_persists n : forall (st st' : St) env s v,
  persists st st' ->
  Find_from n (heap st) env s = Some v ->
  exists v', Find_from n (heap st') env s = Some v'.
Proof.
  induction n as [| n IH]; intros st st' env s v Hp; [discriminate |].
  cbn [Find_from].
  destruct (heap st !! env) as [fr |] eqn:Hfr; [| discriminate].
  destruct (Hp env fr Hfr) as (fr' & Hfr' & Hout & Hdom).
  unfold EnvRef in *. rewrite Hfr'.
  destruct (frame fr !! s) as [w |] eqn:Hw.
  - intros _. destruct (Hdom s (ex_intro _ w Hw)) as [w' Hw']. rewrite Hw'.
    exists w'. reflexivity.
  - destruct (frame fr' !! s) as [w' |]; [intros _; exists w'; reflexivity |].
    rewrite Hout. destruct (outer fr) as [o |]; [| discriminate].
    apply (IH st st' o s v Hp).
Qed.

End KeptByEval.

(** X1: an evaluation never removes a frame, never changes the [outer]
    link of a frame, and never unbinds a symbol: whatever frame the store
    holds at an address before [Eval] runs, it holds one there after, with
    the same link and with every symbol still bound (to the value it had
    or to a newer one). *)
Theorem Eval_never_unbinds `{host : Host} (f k : nat) (exp : Expression Number)
    (env : EnvRef) (st : State Number) (a : nat) (fr : Env Number) :
  heap st !! a = Some fr ->
  exists fr',
    heap (snd (Eval f k exp env st)) !! a = Some fr'
    /\ outer fr' = outer fr
    /\ forall s, is_Some (frame fr !! s) -> is_Some (frame fr' !! s).
Proof.
  intros Hfr.
  apply (respects_Eval persists persists_refl persists_trans persists_out
           persists_set persists_alloc f k exp env st a fr Hfr).
Qed.

(** After [(define + 1)] in the root environment the root frame is still
    at address 0, still without an outer link, and [-] is still bound. *)
Lemma Eval_never_unbinds_witness :
  exists fr',
    heap (snd (Eval 3 2 (form [tok "define"; tok "+"; tok "1"]) 0 rootState)) !! 0 = Some fr'
    /\ outer fr' = None
    /\ is_Some (frame fr' !! "-").
Proof.
  destruct (Eval_never_unbinds (host := demo) 3 2 (form [tok "define"; tok "+"; tok "1"])
              0 rootState 0 rootFrame eq_refl) as (fr' & Hfr' & Hout & Hdom).
  exists fr'. repeat split; [exact Hfr' | exact Hout |].
  apply Hdom. exists (EFunction "-"). reflexivity.
Defined.

(** X2: a symbol that can be looked up from an environment can still be
    looked up from it after any evaluation, whatever was evaluated and in
    whatever environment: evaluation cannot make a bound variable
    unbound. *)
Theorem Eval_keeps_symbols_bound `{host : Host} (f k : nat) (exp : Expression Number)
    (env : EnvRef) (st : State Number) (env0 : EnvRef) (s : Symbol)
    (v : Expression Number) :
  Find env0 s st = (Ok v, st) ->
  exists v', Find env0 s (snd (Eval f k exp env st))
             = (Ok v', snd (Eval f k exp env st)).
Proof.
  unfold Find.
  destruct (Find_from (S env0) (heap st) env0 s) as [w |] eqn:Hw; [| discriminate].
  intros _.
  destruct (Find_from_persists (S env0) st (snd (Eval f k exp env st)) env0 s w) as [v' Hv'].
  - apply (respects_Eval persists persists_refl persists_trans persists_out
             persists_set persists_alloc f k exp env st).
  - exact Hw.
  - exists v'. rewrite Hv'. reflexivity.
Qed.

(** [+] is bound in the root environment, and still is after
    [(define + 1)], now to the number. *)
Lemma Eval_keeps_symbols_bound_witness :
  exists v',
    Find 0 "+" (snd (Eval 3 2 (form [tok "define"; tok "+"; tok "1"]) 0 rootState))
    = (Ok v', snd (Eval 3 2 (form [tok "define"; tok "+"; tok "1"]) 0 rootState)).
Proof.
  apply (Eval_keeps_symbols_bound (host := demo) 3 2 (form [tok "define"; tok "+"; tok "1"])
           0 rootState 0 "+" (EFunction "+")).
  reflexivity.
Defined.

(** ** The demonstration host keeps to the rules of references *)

Lemma read_refs (R : EnvRef -> bool) : forall ts pending top forms,
  Forall (Forall (fun v => refsIn (host := demo) R v = true)) pending ->
  Forall (fun v => refsIn (host := demo) R v = true) top ->
  read ts pending top = inl forms ->
  Forall (fun v => refsIn (host := demo) R v = true) forms.
Proof.
  induction ts as [| t r IH]; intros pending top forms Hp Ht; cbn [read].
  - destruct pending; [| discriminate]. intros [= <-]. apply List.Forall_rev, Ht.
  - destruct (String.eqb t "(").
    + apply IH; [constructor; assumption | constructor].
    + destruct (String.eqb t ")").
      * destruct pending as [| up pending']; [discriminate |].
        apply Forall_cons in Hp as [Hup Hp]. apply IH; [exact Hp |].
        constructor; [| exact Hup].
        apply (refsIn_compound (host := demo)), List.Forall_rev, Ht.
      * apply IH; [exact Hp |]. constructor; [reflexivity | exact Ht].
Qed.

(** The builtins of the demonstration build their values from their
    arguments, [force] calls [Eval] in the environment of the thunk it
    is given, and the reader returns tokens and compound forms only. *)
Lemma demo_lawful : Lawful demo.
Proof.
  split.
  - intros R name args Hargs. cbn [Call demo]. unfold demo_Call.
    destruct (String.eqb name "cons").
    { destruct args as [| a [| b [| c l]]]; cbn [nativeRefs];
        try (intros v Hv; discriminate).
      intros v [= <-]. apply Forall_cons in Hargs as [Ha Hargs].
      apply Forall_cons in Hargs as [Hb _]. cbn [refsIn]. rewrite Ha, Hb. reflexivity. }
    destruct (String.eqb name "force").
    { destruct args as [| t [| b l]];
        [intros v Hv; discriminate | | destruct t; intros v Hv; discriminate].
      destruct t; cbn [nativeRefs]; try (intros v Hv; discriminate).
      apply Forall_cons in Hargs as [Ht _]. cbn [refsIn] in Ht.
      apply andb_true_iff in Ht as [Henv He].
      split; [exact He | split; [exact Henv |]].
      intros R' v _ Hv w [= <-]. exact Hv. }
    destruct (numbersOf args) as [ns |]; [| intros v Hv; discriminate].
    repeat match goal with
           | |- nativeRefs _ (if ?b then _ else _) => destruct b
           | |- nativeRefs _ (match ?l with _ => _ end) => destruct l
           end;
      intros v Hv; first [discriminate | injection Hv as <-; reflexivity].
  - intros R ts forms H. cbn [Parse demo] in H. unfold demo_Parse in H.
    apply (read_refs R ts [] [] forms); [constructor | constructor | exact H].
  - intros R path forms H. discriminate.
Qed.

(** X4: no evaluation writes to a frame that nothing refers to.  When no
    [outer] link, no closure and no thunk of the store or of the
    expression refers to the frame at [a], and the evaluation is not made
    in that frame, the frame is after the evaluation what it was, and still
    nothing refers to it.  This holds with builtins that call back into
    [Eval], as [force] does, as long as they reach environments through
    their arguments only. *)
Theorem Eval_never_writes_unreferenced_frames `{host : Host} (f k : nat)
    (exp : Expression Number) (env : EnvRef) (st : State Number) (a : EnvRef) :
  Lawful host ->
  a < length (heap st) -> unreferenced a st = true ->
  refsIn (apart a) exp = true -> env <> a ->
  heap (snd (Eval f k exp env st)) !! a = heap st !! a
  /\ unreferenced a (snd (Eval f k exp env st)) = true.
Proof.
  intros law Ha Hu He Henv.
  destruct (isolated_Eval a f k exp env st law Ha Hu He Henv) as (H1 & H2 & _).
  split; assumption.
Qed.

(** A frame allocated over the root that nothing refers to, at address
    1, and [(define x 1)] evaluated in the root environment. *)
Lemma Eval_never_writes_unreferenced_frames_witness :
  heap (snd (Eval 3 2 (form [tok "define"; tok "x"; tok "1"]) 0
               (snd (allocEnv (host := demo) 0 rootState)))) !! 1
  = Some (mkEnv (Some 0) ∅)
  /\ unreferenced 1 (snd (Eval 3 2 (form [tok "define"; tok "x"; tok "1"]) 0
                           (snd (allocEnv (host := demo) 0 rootState)))) = true.
Proof.
  apply (Eval_never_writes_unreferenced_frames (host := demo) 3 2
           (form [tok "define"; tok "x"; tok "1"]) 0
           (snd (allocEnv (host := demo) 0 rootState)) 1 demo_lawful).
  - cbn. lia.
  - reflexivity.
  - reflexivity.
  - discriminate.
Defined.

(** A frame that a promise refers to is written to when the promise is
    forced, whatever the environment [force] is called in: after
    [promise_program], [y] is unbound in the frame of the call of [mk], at
    address 1; [(force p)], evaluated at top level, binds it there. *)
Example force_evaluates_in_the_promise_environment :
  fst (Find (host := demo) 1 "y" (snd (program 20 5 promise_program ENil rootState)))
  = Panic (ErrUnbound "y")
  /\ frame <$> heap (snd (Eval 20 5 (form [tok "force"; tok "p"]) 0
                           (snd (program 20 5 promise_program ENil rootState)))) !! 1
     = Some (<["y" := ENumber 1%Z]> ∅).
Proof. split; vm_compute; reflexivity. Qed.

(** ** Atoms, [define] and [lambda] *)

Section Binding.
Context `{host : Host}.

Abbreviation Expr := (Expression Number).
Abbreviation St := (State Number).

Ltac still :=
  repeat first
    [ apply unchanged_ret
    | apply unchanged_panic
    | apply unchanged_index
    | apply unchanged_sliceFrom
    | apply unchanged_Find
    | apply unchanged_expToString
    | apply unchanged_expressionToNumber
    | apply unchanged_transExpressionToSymbol
    | apply unchanged_transAll
    | apply unchanged_evalQuote
    | match goal with
      | |- unchanged (bind _ _) => apply unchanged_bind; [| intros ?]
      | |- unchanged (if ?b then _ else _) => destruct b
      | |- unchanged (match ?x with _ => _ end) => destruct x
      end ].

(** An iteration on an expression that is not a compound form changes
    no state. *)
Lemma unchanged_body_atom (rec : EvalFn) d x env :
  (forall es, x <> ECompound es) -> unchanged (body rec d x env).
Proof.
  intros Hx. destruct x; try (exfalso; apply (Hx es); reflexivity);
    unfold body, done, application;
    cbn [isNullExp isUndefObj IsNumber IsBoolean IsString IsSymbol
         IsSpecialSyntaxExpression]; still.
Qed.

(** It uses neither the nested calls nor the next iteration. *)
Lemma body_atom (rec rec' : EvalFn) d d' x env :
  (forall es, x <> ECompound es) -> body rec d x env = body rec' d' x env.
Proof.
  intros Hx. destruct x; try (exfalso; apply (Hx es); reflexivity); reflexivity.
Qed.

Lemma body_atom_done (rec : EvalFn) d x env (st st' : St) e' env' :
  (forall es, x <> ECompound es) ->
  body rec d x env st = (Ok (Loop e' env'), st') -> False.
Proof.
  intros Hx. destruct x; try (exfalso; apply (Hx es); reflexivity);
    unfold body, application;
    cbn [isNullExp isUndefObj IsNumber IsBoolean IsString IsSymbol
         IsSpecialSyntaxExpression];
    repeat match goal with
           | |- (if ?b then _ else _) _ = _ -> _ => destruct b
           end;
    try discriminate;
    intros H; exact (done_never_loops _ _ _ _ _ H).
Qed.

Lemma Eval_define f k s val env (st : St) :
  Eval (S f) (S k) (ECompound (ETok "define" :: s :: val)) env st
  = evalDefine (Eval f k) s val env st.
Proof.
  rewrite Eval_step. unfold body. cbn -[evalDefine].
  unfold done, index, sliceFrom, bind, ret. cbn -[evalDefine]. rewrite drop_0.
  destruct (evalDefine _ _ _ _ st) as [[v | e | | ] st1]; reflexivity.
Qed.

Lemma Eval_lambda f k rest env (st : St) :
  Eval (S f) (S k) (ECompound (ETok "lambda" :: rest)) env st
  = evalLambda (ECompound (ETok "lambda" :: rest)) env st.
Proof.
  rewrite Eval_step. unfold body. cbn -[evalLambda].
  unfold done, bind, ret.
  destruct (evalLambda _ _ st) as [[v | e | | ] st1]; reflexivity.
Qed.

End Binding.

(** ** Closures *)

Section Closures.
Context `{host : Host}.

Abbreviation Expr := (Expression Number).
Abbreviation St := (State Number).

(** A [lambda] form with a parameter list makes a closure over the
    environment it is evaluated in. *)
Lemma Eval_lambda_closure f k ps lbody names env (st : St) :
  transAll ps st = (Ok names, st) ->
  Eval (S f) (S k) (ECompound (ETok "lambda" :: ECompound ps :: lbody)) env st
  = (Ok (ELambda names lbody env), st).
Proof.
  intros Hps. rewrite Eval_lambda. unfold evalLambda, index, sliceFrom.
  cbn [asSlice lookup list_lookup length Nat.ltb Nat.leb drop].
  unfold bind at 1. cbn [ret]. unfold bind at 1. cbn [ret].
  rewrite (bind_ok _ _ _ _ _ Hps). rewrite drop_0. reflexivity.
Qed.

(** The procedure form of [define] binds the name, in the frame of the
    environment it is evaluated in, to a closure over that environment. *)
Lemma Eval_define_procedure f k name ps lbody names env (st : St) :
  IsSymbol (ETok name) = true -> transAll ps st = (Ok names, st) ->
  Eval (S f) (S k)
    (ECompound (ETok "define" :: ECompound (ETok name :: ps) :: lbody)) env st
  = (Ok EUndef, snd (EnvSet env name (ELambda names lbody env) st)).
Proof.
  intros Hs Hps.
  assert (transAll (ETok name :: ps) st = (Ok (name :: names), st)) as Ht.
  { cbn [transAll]. unfold transExpressionToSymbol. rewrite Hs.
    unfold bind at 1. cbn [ret]. rewrite (bind_ok _ _ _ _ _ Hps). reflexivity. }
  rewrite Eval_define. cbn [evalDefine]. rewrite (bind_ok _ _ _ _ _ Ht). reflexivity.
Qed.

Lemma Find_EnvSet env s v (st : St) :
  env < length (heap st) ->
  Find env s (snd (EnvSet env s v st)) = (Ok v, snd (EnvSet env s v st)).
Proof.
  intros Henv. destruct (lookup_lt_is_Some_2 (heap st) env Henv) as [fr Hfr].
  unfold Find. cbn [Find_from EnvSet snd heap].
  rewrite list_lookup_alter_eq. unfold EnvRef in *. rewrite Hfr. cbn.
  rewrite lookup_insert_eq. reflexivity.
Qed.

(** The frame allocated for a call is, when the operands are bound, still
    there and still linked to the environment of the closure, whatever
    the operands did. *)
Lemma BindsInOrder_outer f k env cenv ps es vs (st1 st3 : St) :
  BindsInOrder (Eval f k) env (length (heap st1)) ps es vs (snd (allocEnv cenv st1)) st3 ->
  exists fr, heap st3 !! length (heap st1) = Some fr /\ outer fr = Some cenv.
Proof.
  intros H.
  apply (BindsInOrder_extends _ _ _ _ _ _ _ _ (preserving_Eval f k)) in H.
  destruct (H (length (heap st1)) (mkEnv (Some cenv) ∅)) as (fr & Hfr & Ho).
  - cbn [allocEnv snd heap]. apply list_lookup_middle. reflexivity.
  - exists fr. split; [exact Hfr | exact Ho].
Qed.

(** On a store without dangling references, nothing refers to the
    address the next frame gets. *)
Lemma closed_unreferenced (st : St) cenv :
  closed st = true -> cenv < length (heap st) ->
  unreferenced (length (heap st)) (snd (allocEnv cenv st)) = true.
Proof.
  intros Hc Hcenv. unfold unreferenced. apply storeRefs_allocEnv.
  - apply (storeRefs_mono (below (length (heap st)))); [| exact Hc].
    intros r. apply below_apart. lia.
  - unfold apart. apply negb_true_iff, Nat.eqb_neq. lia.
Qed.

End Closures.

(** C3: a closure and its call.  A [lambda] form, and the procedure form
    of [define], make a closure whose environment is the one the form is
    evaluated in: the defining environment.  When such a value is called
    with a number of operands that differs from the number of parameters
    the call panics with the arity error.  Otherwise a new frame is
    allocated whose [outer] link is the environment of the closure (not
    [env], the caller's) and stays so; the operands are evaluated in the
    caller's environment and each parameter is bound to the value of its
    operand in the new frame; the loop goes on with the body under that
    frame.  No operand can reach the new frame, no reference to it
    exists yet, so when the body starts the frame holds exactly the
    parameters bound to the values, and the lookup of a name that is not a
    parameter goes on in the environment of the closure; this rests on
    builtins that reach environments through their arguments only, and
    on a store without dangling references.  So [f], defined at top level
    and reading the top-level [x], still sees that [x] when it is called
    from [g], whose parameter is named [x] too; and the closure that
    [make-adder] returns, made inside a call, still sees the [n] of that
    call when it is applied at top level. *)
Theorem closure_call_binds_in_captured_environment :
  (forall (host : Host) (f k : nat) (env : EnvRef) (st : State Number)
          (ps lbody : list (Expression Number)) (names : list Symbol),
      transAll ps st = (Ok names, st) ->
      Eval (S f) (S k) (ECompound (ETok "lambda" :: ECompound ps :: lbody)) env st
      = (Ok (ELambda names lbody env), st)
      /\ (forall name, IsSymbol (ETok name) = true -> env < length (heap st) ->
            Eval (S f) (S k)
              (ECompound (ETok "define" :: ECompound (ETok name :: ps) :: lbody)) env st
            = (Ok EUndef, snd (EnvSet env name (ELambda names lbody env) st))
            /\ Find env name (snd (EnvSet env name (ELambda names lbody env) st))
               = (Ok (ELambda names lbody env),
                  snd (EnvSet env name (ELambda names lbody env) st))))
  /\ (forall (host : Host) (f k : nat) (h : Expression Number)
          (args : list (Expression Number)) (env : EnvRef) (st : State Number)
          params lbody cenv st1,
      isKeyword h = false -> eqTok h "quote" = false ->
      env < length (heap st) ->
      Eval f k h env st = (Ok (ELambda params lbody cenv), st1) ->
      (length args <> length params ->
       fst (Eval (S f) (S k) (ECompound (h :: args)) env st)
       = Panic (ErrArity (ELambda params lbody cenv) (length params) (length args)))
      /\ (forall vs st3,
            BindsInOrder (Eval f k) env (length (heap st1)) params args vs
              (snd (allocEnv cenv st1)) st3 ->
            Eval (S f) (S k) (ECompound (h :: args)) env st
            = Eval f (S k) (Body lbody) (length (heap st1)) st3
            /\ heap st1 !! length (heap st1) = None
            /\ (exists fr, heap st3 !! length (heap st1) = Some fr
                           /\ outer fr = Some cenv)
            /\ (Lawful host -> closed st = true ->
                refsIn (below (length (heap st))) (ECompound (h :: args)) = true ->
                heap st3 !! length (heap st1)
                = Some (mkEnv (Some cenv) (bound params vs ∅))
                /\ (NoDup params ->
                    forall i p v, params !! i = Some p -> vs !! i = Some v ->
                      Find (length (heap st1)) p st3 = (Ok v, st3))
                /\ (forall s, s ∉ params ->
                      Find_from (S (length (heap st1))) (heap st3) (length (heap st1)) s
                      = Find_from (length (heap st1)) (heap st3) cenv s))))
  /\ fst (program 60 6 scoping_program ENil rootState) = Ok (ENumber 1%Z)
  /\ fst (program 60 6 adder_program ENil rootState) = Ok (ENumber 7%Z).
Proof.
  split; [| split; [| split; vm_compute; reflexivity]].
  { intros host f k env st ps lbody names Hps.
    split; [apply Eval_lambda_closure, Hps |].
    intros name Hname Henv.
    split; [apply Eval_define_procedure; assumption | apply Find_EnvSet, Henv]. }
  intros host f k h args env st params lbody cenv st1 Hk Hq Henv Hop.
  pose proof (application_shape := Eval_application f k h args env st Hk Hq).
  assert (length (heap st) <= length (heap st1)) as Hgrow.
  { pose proof (extends_length _ _ (preserving_Eval f k h env st)) as H.
    rewrite Hop in H. exact H. }
  split.
  - intros Hlen. rewrite application_shape, (bind_ok _ _ _ _ _ Hop).
    unfold bind, allocEnv. cbn.
    apply Nat.eqb_neq in Hlen. rewrite Hlen. reflexivity.
  - intros vs st3 Hbind.
    split; [| split; [| split]].
    + rewrite application_shape, (bind_ok _ _ _ _ _ Hop). unfold bind at 1. cbn [allocEnv].
      destruct (BindsInOrder_length _ _ _ _ _ _ _ _ Hbind) as [Hlen _].
      apply Nat.eqb_eq in Hlen. rewrite Hlen. cbn [negb].
      pose proof (bindArgs_in_order _ _ _ _ _ _ _ _ Hbind []) as Hb.
      cbn [app length snd allocEnv] in Hb.
      unfold bind. rewrite Hb. reflexivity.
    + apply lookup_ge_None. lia.
    + apply (BindsInOrder_outer f k env cenv params args vs st1 st3 Hbind).
    + intros law Hclosed Hrefs.
      apply refsIn_compound in Hrefs. apply Forall_cons in Hrefs as [Hh Hargs].
      destruct (closed_Eval f k h env st law Hclosed Hh Henv) as (Hc1 & _ & Hfn).
      rewrite Hop in Hc1, Hfn. cbn [fst snd] in Hc1, Hfn.
      specialize (Hfn _ eq_refl). apply refsIn_lambda in Hfn as [Hcenv _].
      apply Nat.ltb_lt in Hcenv.
      assert (heap st3 !! length (heap st1) = Some (mkEnv (Some cenv) (bound params vs ∅)))
        as Hframe.
      { apply (BindsInOrder_frame f k env _ params args vs _ st3 (mkEnv (Some cenv) ∅)
                 law Hbind).
        - lia.
        - cbn. rewrite length_app. cbn. lia.
        - apply closed_unreferenced; assumption.
        - apply (refsAll_mono (below (length (heap st)))); [| exact Hargs].
          intros r. apply below_apart. lia.
        - cbn. apply list_lookup_middle. reflexivity. }
      split; [exact Hframe | split].
      * intros Hnd i p v Hp Hv. unfold Find. cbn [Find_from].
        unfold EnvRef in *. rewrite Hframe. cbn [frame].
        rewrite (bound_lookup params vs ∅ i p v Hnd Hp Hv). reflexivity.
      * intros s Hs. cbn [Find_from].
        unfold EnvRef in *. rewrite Hframe. cbn [frame outer].
        assert (forall ps ws (fr : gmap Symbol (Expression Number)),
                   s ∉ ps -> bound ps ws fr !! s = fr !! s) as Hout.
        { clear. induction ps as [| q ps IH]; intros ws fr Hp; [reflexivity |].
          destruct ws as [| w ws]; [reflexivity |]. cbn.
          rewrite IH by (intros Hin; apply Hp; right; exact Hin).
          apply lookup_insert_ne. intros ->. apply Hp. left. }
        rewrite Hout by exact Hs. rewrite lookup_empty. reflexivity.
Qed.

(** [((make-adder 3) 4)] at top level, after [make_adder]: the operator
    evaluates to the closure made in the frame at address 1, which binds
    [n]; the frame of the call, at address 2, binds [x] to 4 and links
    to frame 1, not to the caller's frame 0; and the body [(begin (+ x n))]
    is evaluated under it. *)
Lemma closure_call_binds_in_captured_environment_witness :
  exists st1 st3,
    Eval 5 3 (form [tok "make-adder"; tok "3"]) 0 adder_state
    = (Ok (ELambda ["x"] [form [tok "+"; tok "x"; tok "n"]] 1), st1)
    /\ Eval 6 4 (form [form [tok "make-adder"; tok "3"]; tok "4"]) 0 adder_state
       = Eval 5 4 (form [tok "begin"; form [tok "+"; tok "x"; tok "n"]]) 2 st3
    /\ heap st3 !! 2 = Some (mkEnv (Some 1) (bound ["x"] [ENumber 4%Z] ∅)).
Proof.
  pose (st1 := snd (Eval 5 3 (form [tok "make-adder"; tok "3"]) 0 adder_state)).
  pose (st2 := snd (allocEnv (host := demo) 1 st1)).
  pose (st3 := snd (EnvSet (host := demo) 2 "x" (ENumber 4%Z) st2)).
  exists st1, st3.
  assert (Eval 5 3 (form [tok "make-adder"; tok "3"]) 0 adder_state
          = (Ok (ELambda ["x"] [form [tok "+"; tok "x"; tok "n"]] 1), st1)) as Hop
    by (vm_compute; reflexivity).
  split; [exact Hop |].
  destruct (proj2 (proj1 (proj2 closure_call_binds_in_captured_environment) demo 5 3
                     (form [tok "make-adder"; tok "3"]) [tok "4"] 0 adder_state
                     ["x"] [form [tok "+"; tok "x"; tok "n"]] 1 st1
                     eq_refl eq_refl ltac:(vm_compute; lia) Hop)
                  [ENumber 4%Z] st3) as (Hcall & _ & _ & Hlaw).
  - apply (BindsInOrder_cons (host := demo) _ _ _ "x" [] (tok "4") []
             (ENumber 4%Z) [] st2 st2 st3); [vm_compute; reflexivity |].
    apply (BindsInOrder_nil (host := demo)).
  - destruct (Hlaw demo_lawful ltac:(vm_compute; reflexivity) ltac:(vm_compute; reflexivity))
      as (Hframe & _).
    split; [exact Hcall | exact Hframe].
Defined.

(** X5: an expression that is not a compound form (a token, a number, a
    string, a sentinel, a Pair, a procedure) is evaluated by one
    iteration of the loop: no nested call, so one unit of fuel and one
    activation are as good as any number of them, and the state is left
    as it was. *)
Theorem atoms_evaluate_in_one_iteration `{host : Host} (f k : nat)
    (exp : Expression Number) (env : EnvRef) (st : State Number) :
  (forall es, exp <> ECompound es) ->
  Eval (S f) (S k) exp env st = Eval 1 1 exp env st
  /\ snd (Eval 1 1 exp env st) = st.
Proof.
  intros Hx. split.
  - rewrite !Eval_step. rewrite (body_atom (Eval f k) (Eval 0 0) f 0 exp env Hx).
    unfold bind.
    destruct (body (Eval 0 0) 0 exp env st) as [[[v | e' env'] | e | | ] st'] eqn:Hb;
      try reflexivity.
    exfalso. exact (body_atom_done _ _ _ _ _ _ _ _ Hx Hb).
  - rewrite Eval_step.
    apply (unchanged_bind (body (Eval 0 0) 0 exp env)).
    + apply unchanged_body_atom. exact Hx.
    + intros [v | e' env']; intros st0; reflexivity.
Qed.

(** The symbol [+] in the root environment. *)
Lemma atoms_evaluate_in_one_iteration_witness :
  Eval 9 7 (tok "+") 0 rootState = Eval 1 1 (tok "+") 0 rootState
  /\ snd (Eval 1 1 (tok "+") 0 rootState) = rootState.
Proof.
  apply (atoms_evaluate_in_one_iteration (host := demo) 8 6 (tok "+") 0 rootState).
  intros es. discriminate.
Defined.

(** X6: [define] then lookup.  When [s] is a symbol token and the value
    expression evaluates to [v], [(define s e)] evaluated in [env]
    returns the unspecified sentinel and binds [s] in the frame of [env];
    evaluating [s] in [env] afterwards gives [v], and leaves the state as
    it is. *)
Theorem define_then_lookup `{host : Host} (f k : nat) (s : string)
    (e : Expression Number) (env : EnvRef) (st st1 : State Number)
    (v : Expression Number) :
  IsNumberTok s = false -> IsBooleanTok s = false -> IsStringTok s = false ->
  IsSymbolTok s = true ->
  env < length (heap st) ->
  Eval f k e env st = (Ok v, st1) ->
  Eval (S f) (S k) (ECompound [ETok "define"; ETok s; e]) env st
    = (Ok EUndef, snd (EnvSet env s v st1))
  /\ forall f' k',
       Eval (S f') (S k') (ETok s) env (snd (EnvSet env s v st1))
       = (Ok v, snd (EnvSet env s v st1)).
Proof.
  intros Hnum Hbool Hstr Hsym Henv He. split.
  - rewrite Eval_define. unfold evalDefine, transExpressionToSymbol, index.
    cbn [IsSymbol length Nat.eqb negb lookup list_lookup]. rewrite Hsym.
    unfold bind at 1. cbn [ret]. unfold bind at 1. cbn [ret].
    rewrite (bind_ok _ _ _ _ _ He). reflexivity.
  - intros f' k'.
    assert (env < length (heap st1)) as Henv1.
    { pose proof (extends_length _ _ (preserving_Eval f k e env st)) as H.
      rewrite He in H. cbn in H. lia. }
    destruct (lookup_lt_is_Some_2 (heap st1) env Henv1) as [fr Hfr].
    rewrite Eval_step. unfold body.
    cbn [isNullExp isUndefObj IsNumber IsBoolean IsString IsSymbol].
    rewrite Hnum, Hbool, Hstr, Hsym.
    unfold done, bind, Find. cbn [Find_from EnvSet snd heap].
    rewrite list_lookup_alter_eq. unfold EnvRef in *. rewrite Hfr. cbn.
    rewrite lookup_insert_eq. reflexivity.
Qed.

(** [(define x 7)] in the root environment, then [x]. *)
Lemma define_then_lookup_witness :
  Eval 3 2 (form [tok "define"; tok "x"; tok "7"]) 0 rootState
    = (Ok EUndef, snd (EnvSet (host := demo) 0 "x" (ENumber 7%Z) rootState))
  /\ forall f' k',
       Eval (S f') (S k') (tok "x") 0 (snd (EnvSet (host := demo) 0 "x" (ENumber 7%Z) rootState))
       = (Ok (ENumber 7%Z), snd (EnvSet (host := demo) 0 "x" (ENumber 7%Z) rootState)).
Proof.
  apply (define_then_lookup (host := demo) 2 1 "x" (tok "7") 0 rootState rootState
           (ENumber 7%Z)); try reflexivity.
  cbn. lia.
Defined.

(** X7: the procedure form of [define] is the identifier form with a
    [lambda]: [(define (s p ...) body ...)] and
    [(define s (lambda (p ...) body ...))] give the same result and the
    same state, also when they fail (a name or a parameter that is not a
    symbol), for every token [s]. *)
Theorem define_procedure_is_define_lambda `{host : Host} (f k : nat) (s : string)
    (ps lbody : list (Expression Number)) (env : EnvRef) (st : State Number) :
  Eval (S (S f)) (S (S k))
    (ECompound (ETok "define" :: ECompound (ETok s :: ps) :: lbody)) env st
  = Eval (S (S f)) (S (S k))
      (ECompound [ETok "define"; ETok s; ECompound (ETok "lambda" :: ECompound ps :: lbody)])
      env st.
Proof.
  rewrite !Eval_define. unfold evalDefine.
  cbn [transAll length Nat.eqb negb]. unfold transExpressionToSymbol, index.
  cbn [IsSymbol lookup list_lookup].
  destruct (IsSymbolTok s); [| reflexivity].
  unfold bind, ret. cbn -[Eval transAll].
  rewrite Eval_lambda. unfold evalLambda, index, sliceFrom, bind, ret, makeLambdaProcess.
  cbn -[transAll].
  pose proof (unchanged_transAll ps st) as Hst.
  destruct (transAll ps st) as [[names | e | | ] st']; cbn in Hst; subst st';
    rewrite ?drop_0; reflexivity.
Qed.

(** X8: what [define] refuses.  With an identifier target and a number of
    value expressions other than one it panics with its bad-syntax
    message; with a target that is not a symbol it panics before the
    value expression is evaluated; [(define)], whose value expressions
    [operators[2:]] are sliced before the target [operators[1]] is
    indexed, and a procedure form with an empty target, [(define () ...)],
    end in the run-time panic of an unguarded slice expression.  In every
    case nothing is evaluated and the state is left as it was. *)
Theorem define_refuses_without_evaluating `{host : Host} (f k : nat) (env : EnvRef)
    (st : State Number) :
  (forall target val, isPlainTarget target = true -> length val <> 1 ->
     Eval (S f) (S k) (ECompound (ETok "define" :: target :: val)) env st
     = (Panic (ErrText "define: bad syntax (multiple expressions after identifier"), st))
  /\ (forall target e, isPlainTarget target = true -> IsSymbol target = false ->
        Eval (S f) (S k) (ECompound [ETok "define"; target; e]) env st
        = (Panic (ErrNotSymbol target), st))
  /\ Eval (S f) (S k) (ECompound [ETok "define"]) env st = (Panic ErrSliceBounds, st)
  /\ (forall val,
        Eval (S f) (S k) (ECompound (ETok "define" :: ECompound [] :: val)) env st
        = (Panic ErrSliceBounds, st)).
Proof.
  split; [| split; [| split]].
  - intros target val Ht Hlen. rewrite Eval_define. unfold evalDefine.
    apply Nat.eqb_neq in Hlen. rewrite Hlen.
    destruct target; try discriminate; reflexivity.
  - intros target e Ht Hs. rewrite Eval_define. unfold evalDefine, transExpressionToSymbol.
    cbn [length Nat.eqb negb]. rewrite Hs.
    destruct target; try discriminate; reflexivity.
  - rewrite Eval_step. reflexivity.
  - intros val. rewrite Eval_define. reflexivity.
Qed.

(** [(define x)] and [(define 5 boom)] in the root environment. *)
Lemma define_refuses_without_evaluating_witness :
  Eval 2 2 (form [tok "define"; tok "x"]) 0 rootState
    = (Panic (ErrText "define: bad syntax (multiple expressions after identifier"), rootState)
  /\ Eval 2 2 (form [tok "define"; tok "5"; tok "boom"]) 0 rootState
     = (Panic (ErrNotSymbol (tok "5")), rootState).
Proof.
  split.
  - apply (proj1 (define_refuses_without_evaluating (host := demo) 1 1 0 rootState)
             (tok "x") []); [reflexivity | discriminate].
  - apply (proj1 (proj2 (define_refuses_without_evaluating (host := demo) 1 1 0 rootState))
             (tok "5") (tok "boom")); reflexivity.
Defined.

(** X9: a [lambda] form evaluates nothing and changes no state; when it
    gives a value, the value is a closure whose body is the expressions
    after the parameter operand and whose environment is the one the form
    was evaluated in.  A parameter list of symbol tokens gives these
    symbols as parameters, a single symbol token gives that one
    parameter, and [(lambda)] ends in the run-time index panic. *)
Theorem lambda_captures_without_effects `{host : Host} (f k : nat) (env : EnvRef)
    (st : State Number) :
  (forall rest, snd (Eval (S f) (S k) (ECompound (ETok "lambda" :: rest)) env st) = st)
  /\ (forall rest v st',
        Eval (S f) (S k) (ECompound (ETok "lambda" :: rest)) env st = (Ok v, st') ->
        exists ps, v = ELambda ps (drop 1 rest) env)
  /\ (forall ps names lbody,
        transAll ps st = (Ok names, st) ->
        Eval (S f) (S k) (ECompound (ETok "lambda" :: ECompound ps :: lbody)) env st
        = (Ok (ELambda names lbody env), st))
  /\ (forall s lbody, IsSymbolTok s = true ->
        Eval (S f) (S k) (ECompound (ETok "lambda" :: ETok s :: lbody)) env st
        = (Ok (ELambda [s] lbody env), st))
  /\ Eval (S f) (S k) (ECompound [ETok "lambda"]) env st = (Panic ErrIndex, st).
Proof.
  split; [| split; [| split; [| split]]].
  - intros rest. rewrite Eval_lambda. apply unchanged_evalLambda.
  - intros rest v st' H. rewrite Eval_lambda in H. unfold evalLambda in H.
    apply bind_ok_inv in H as (po & st1 & Hpo & H).
    apply bind_ok_inv in H as (lb & st2 & Hlb & H).
    apply bind_ok_inv in H as (names & st3 & _ & H).
    injection H as <- _. exists names.
    destruct rest as [| r rest]; [discriminate |].
    unfold sliceFrom in Hlb. cbn in Hlb. injection Hlb as <- _.
    rewrite !drop_0. reflexivity.
  - intros ps names lbody Hps. rewrite Eval_lambda. unfold evalLambda, index, sliceFrom.
    cbn [asSlice lookup list_lookup length Nat.ltb Nat.leb drop].
    unfold bind at 1. cbn [ret]. unfold bind at 1. cbn [ret].
    rewrite (bind_ok _ _ _ _ _ Hps). rewrite drop_0. reflexivity.
  - intros s lbody Hs. rewrite Eval_lambda. unfold evalLambda, index, sliceFrom.
    cbn [asSlice lookup list_lookup length Nat.ltb Nat.leb drop].
    unfold bind, ret, transExpressionToSymbol. cbn [IsSymbol]. rewrite Hs.
    rewrite drop_0. reflexivity.
  - rewrite Eval_step. reflexivity.
Qed.

(** [(lambda (a b) a)] in the root environment. *)
Lemma lambda_captures_without_effects_witness :
  Eval 2 2 (form [tok "lambda"; form [tok "a"; tok "b"]; tok "a"]) 0 rootState
  = (Ok (ELambda ["a"; "b"] [tok "a"] 0), rootState).
Proof.
  apply (proj1 (proj2 (proj2 (lambda_captures_without_effects (host := demo) 1 1 0 rootState)))
           [tok "a"; tok "b"] ["a"; "b"] [tok "a"]).
  reflexivity.
Defined.

(** ** Edges of [if], [cond], [apply] and [load] *)

Section Edges.
Context `{host : Host}.

Abbreviation Expr := (Expression Number).
Abbreviation St := (State Number).

Lemma Eval_apply_operands f k operands env (st : St) :
  Eval (S f) (S k) (ECompound (ETok "apply" :: operands)) env st
  = evalApply (Eval f k) (ECompound operands) env st.
Proof.
  rewrite Eval_step. unfold body. cbn -[evalApply].
  unfold done, sliceFrom. cbn -[evalApply]. rewrite drop_0. unfold bind, ret.
  destruct (evalApply _ _ _ st) as [[v | e | | ] st1]; reflexivity.
Qed.

Lemma Eval_load f k e rest env (st : St) :
  Eval (S f) (S k) (ECompound (ETok "load" :: e :: rest)) env st
  = evalLoad f (Eval f k) e env st.
Proof.
  rewrite Eval_step. unfold body. cbn -[evalLoad].
  unfold done, bind, ret.
  destruct (evalLoad _ _ _ _ st) as [[v | err | | ] st1]; reflexivity.
Qed.

Lemma validEvalExp_listImpl (vs : list Expr) :
  Forall (fun v => validEvalExp v = true) vs -> validEvalExp (listImpl vs) = true.
Proof.
  induction 1 as [| v vs Hv _ IH]; [reflexivity |].
  change (listImpl (v :: vs)) with (EPair v (listImpl vs)).
  cbn [validEvalExp].
  change (EPair v (listImpl vs)) with (listImpl (v :: vs)).
  rewrite IsList_listImpl. cbn [negb]. rewrite Hv, IH. reflexivity.
Qed.

Lemma append_empty (s : string) : (EmptyString ++ s)%string = s.
Proof. reflexivity. Qed.

Lemma append_String c (r s : string) : (String c r ++ s)%string = String c (r ++ s)%string.
Proof. reflexivity. Qed.

Lemma upToQuote_stops t post :
  noQuote t = true -> upToQuote (t ++ String dquote post)%string = Some t.
Proof.
  induction t as [| c t IH];
    rewrite ?append_empty, ?append_String; cbn [upToQuote noQuote].
  - intros _. rewrite Ascii.eqb_refl. reflexivity.
  - intros H. apply andb_prop in H as [Hc Ht]. apply negb_true_iff in Hc.
    rewrite Hc, (IH Ht). reflexivity.
Qed.

Lemma upToQuote_none t : noQuote t = true -> upToQuote t = None.
Proof.
  induction t as [| c t IH]; cbn [upToQuote noQuote]; [reflexivity |].
  intros H. apply andb_prop in H as [Hc Ht]. apply negb_true_iff in Hc.
  rewrite Hc, (IH Ht). reflexivity.
Qed.

Lemma firstQuoted_skips pre rest :
  noQuote pre = true -> firstQuoted (pre ++ String dquote rest)%string = upToQuote rest.
Proof.
  induction pre as [| c pre IH];
    rewrite ?append_empty, ?append_String; cbn [firstQuoted noQuote].
  - intros _. rewrite Ascii.eqb_refl. reflexivity.
  - intros H. apply andb_prop in H as [Hc Hp]. apply negb_true_iff in Hc.
    rewrite Hc. apply IH. exact Hp.
Qed.

Lemma firstQuoted_none s : noQuote s = true -> firstQuoted s = None.
Proof.
  induction s as [| c s IH]; cbn [firstQuoted noQuote]; [reflexivity |].
  intros H. apply andb_prop in H as [Hc Hs]. apply negb_true_iff in Hc.
  rewrite Hc. apply IH. exact Hs.
Qed.

Lemma list_ascii_of_string_app (p q : string) :
  list_ascii_of_string (p ++ q)%string = list_ascii_of_string p ++ list_ascii_of_string q.
Proof.
  induction p as [| c p IH]; rewrite ?append_empty, ?append_String;
    cbn [list_ascii_of_string]; [reflexivity | rewrite IH; reflexivity].
Qed.

(** The extension of a path to which [.scm] was appended is [.scm]. *)
Lemma Ext_scm_appended (p : string) : Ext (p ++ ".scm")%string = ".scm"%string.
Proof.
  unfold Ext. rewrite list_ascii_of_string_app, rev_app_distr. reflexivity.
Qed.

End Edges.

(** X10: an [if] form without a consequent.  [(if)] ends in the run-time
    index panic before anything is evaluated.  [(if test)] evaluates the
    test first; when the test is true the missing consequent is indexed
    and the form ends in the run-time index panic, when it is false the
    form evaluates to the unspecified sentinel. *)
Theorem if_without_consequent `{host : Host} (f k : nat) (env : EnvRef)
    (st : State Number) :
  Eval (S f) (S k) (ECompound [ETok "if"]) env st = (Panic ErrIndex, st)
  /\ (forall test v st1, Eval f k test env st = (Ok v, st1) -> IsTrue v = true ->
        Eval (S f) (S k) (ECompound [ETok "if"; test]) env st = (Panic ErrIndex, st1))
  /\ (forall test v st1, Eval f k test env st = (Ok v, st1) -> IsTrue v = false ->
        Eval (S f) (S k) (ECompound [ETok "if"; test]) env st = (Ok EUndef, st1)).
Proof.
  split; [| split].
  - rewrite Eval_step. reflexivity.
  - intros test v st1 Ht Hv. rewrite Eval_if.
    unfold evalIf, conditionOfIfExpression, trueExpOfIfExpression, index.
    cbn [lookup list_lookup]. unfold bind at 2. cbn [ret].
    unfold bind at 1. rewrite (bind_ok _ _ _ _ _ Ht). rewrite Hv. reflexivity.
  - intros test v st1 Ht Hv.
    destruct (Eval_definite_pos _ _ _ _ _ _ _ Ht eq_refl) as (f' & k' & -> & ->).
    rewrite Eval_if.
    unfold evalIf, conditionOfIfExpression, elseExpOfIfExpression, index.
    cbn [lookup list_lookup length Nat.ltb Nat.leb]. unfold bind at 2. cbn [ret].
    unfold bind at 1. rewrite (bind_ok _ _ _ _ _ Ht). rewrite Hv. reflexivity.
Qed.

(** [(if #t)] and [(if #f)] in the root environment. *)
Lemma if_without_consequent_witness :
  Eval 3 2 (form [tok "if"; tok "#t"]) 0 rootState = (Panic ErrIndex, rootState)
  /\ Eval 3 2 (form [tok "if"; tok "#f"]) 0 rootState = (Ok EUndef, rootState).
Proof.
  split.
  - apply (proj1 (proj2 (if_without_consequent (host := demo) 2 1 0 rootState))
             (tok "#t") (EBool true) rootState); reflexivity.
  - apply (proj2 (proj2 (if_without_consequent (host := demo) 2 1 0 rootState))
             (tok "#f") (EBool false) rootState); reflexivity.
Defined.

(** X11: a [cond] clause with a test and no body.  The clause expands to
    an [if] whose consequent is [(begin)]; when the test is true that
    [begin] is evaluated and the form ends in the run-time slice panic,
    in the state the test left.  An [else] clause with no body does the
    same. *)
Theorem cond_clause_without_body_panics `{host : Host} (f k : nat) (env : EnvRef)
    (st : State Number) :
  (forall test rest alt v st1,
      eqTok test "else" = false ->
      (forall s, condClausesToIf rest s = (Ok alt, s)) ->
      Eval f k test env st = (Ok v, st1) -> IsTrue v = true ->
      Eval (S (S f)) (S (S k)) (ECompound (ETok "cond" :: ECompound [test] :: rest)) env st
      = (Panic ErrSliceBounds, st1))
  /\ Eval (S (S f)) (S (S k)) (ECompound [ETok "cond"; ECompound [ETok "else"]]) env st
     = (Panic ErrSliceBounds, st).
Proof.
  split.
  - intros test rest alt v st1 Hne Hrest Ht Hv.
    destruct (Eval_definite_pos _ _ _ _ _ _ _ Ht eq_refl) as (f' & k' & -> & ->).
    assert (Hc : condClausesToIf (ECompound [test] :: rest) st
                 = (Ok (ECompound (makeIf test (ECompound [ETok "begin"]) alt)), st)).
    { rewrite condClausesToIf_plain by exact Hne. unfold bind. rewrite Hrest. reflexivity. }
    rewrite Eval_cond, (bind_ok _ _ _ _ _ Hc).
    unfold makeIf. rewrite (Eval_if_branch _ _ _ _ _ _ _ _ _ Ht), Hv.
    rewrite Eval_step. reflexivity.
  - rewrite Eval_cond, (bind_ok _ _ _ _ _ (condClausesToIf_else_last [] st)).
    rewrite Eval_step. reflexivity.
Qed.

(** [(cond (#t))] in the root environment. *)
Lemma cond_clause_without_body_panics_witness :
  Eval 4 3 (form [tok "cond"; form [tok "#t"]]) 0 rootState
  = (Panic ErrSliceBounds, rootState).
Proof.
  apply (proj1 (cond_clause_without_body_panics (host := demo) 2 1 0 rootState)
           (tok "#t") [] EUndef (EBool true) rootState).
  - reflexivity.
  - intros s. reflexivity.
  - reflexivity.
  - reflexivity.
Defined.

(** X12: what [apply] checks, and when.  With a number of operands other
    than two it panics at once, nothing evaluated.  With two, the
    procedure operand is evaluated first and the list operand second; a
    failure of the first ends the form before the second is evaluated,
    and a second value that is not a list makes the form panic after both
    were evaluated. *)
Theorem apply_checks_its_operands `{host : Host} (f k : nat) (env : EnvRef)
    (st : State Number) :
  (forall operands, length operands <> 2 ->
     Eval (S f) (S k) (ECompound (ETok "apply" :: operands)) env st
     = (Panic (ErrText "apply require 2 arguments"), st))
  /\ (forall pexp lexp e st1, Eval f k pexp env st = (Panic e, st1) ->
        Eval (S f) (S k) (ECompound [ETok "apply"; pexp; lexp]) env st = (Panic e, st1))
  /\ (forall pexp lexp p st1 arg st2,
        Eval f k pexp env st = (Ok p, st1) ->
        Eval f k lexp env st1 = (Ok arg, st2) ->
        isList arg = false ->
        Eval (S f) (S k) (ECompound [ETok "apply"; pexp; lexp]) env st
        = (Panic (ErrText "argument must be a list"), st2)).
Proof.
  split; [| split].
  - intros operands Hlen. rewrite Eval_apply_operands. unfold evalApply.
    apply Nat.eqb_neq in Hlen. rewrite Hlen. reflexivity.
  - intros pexp lexp e st1 Hp. rewrite Eval_apply_operands. unfold evalApply, index.
    cbn [length Nat.eqb negb lookup list_lookup].
    unfold bind at 1. cbn [ret]. apply (bind_panic _ _ _ _ _ Hp).
  - intros pexp lexp p st1 arg st2 Hp Hl Harg.
    rewrite Eval_apply_operands. unfold evalApply, index.
    cbn [length Nat.eqb negb lookup list_lookup].
    unfold bind at 1. cbn [ret]. rewrite (bind_ok _ _ _ _ _ Hp).
    unfold bind at 1. cbn [ret]. rewrite (bind_ok _ _ _ _ _ Hl).
    rewrite Harg. reflexivity.
Qed.

(** [(apply +)] and [(apply + 5)] in the root environment. *)
Lemma apply_checks_its_operands_witness :
  Eval 3 2 (form [tok "apply"; tok "+"]) 0 rootState
    = (Panic (ErrText "apply require 2 arguments"), rootState)
  /\ Eval 3 2 (form [tok "apply"; tok "+"; tok "5"]) 0 rootState
     = (Panic (ErrText "argument must be a list"), rootState).
Proof.
  split.
  - apply (proj1 (apply_checks_its_operands (host := demo) 2 1 0 rootState) [tok "+"]).
    discriminate.
  - apply (proj2 (proj2 (apply_checks_its_operands (host := demo) 2 1 0 rootState))
             (tok "+") (tok "5") (EFunction "+") rootState (ENumber 5%Z) rootState);
      reflexivity.
Defined.

(** X13: [EvalAll] on forms that all evaluate returns the value of the
    last form, in the state the last form left; on no form at all it
    returns nil and leaves the state as it was. *)
Theorem EvalAll_returns_last_value `{host : Host} (rec : EvalFn) (env : EnvRef)
    (es vs : list (Expression Number)) (st st' : State Number) :
  EvalsInOrder rec env es st vs st' ->
  EvalAll rec es env st = (Ok (List.last vs ENil), st').
Proof.
  intros H. unfold EvalAll. generalize (ENil (Number := Number)) as r0.
  induction H as [st | e es st v st1 vs st2 He _ IH]; intros r0.
  - reflexivity.
  - cbn [EvalAll_from]. rewrite He, (IH v), last_cons_default. reflexivity.
Qed.

(** The forms [1] and [2] in the root environment. *)
Lemma EvalAll_returns_last_value_witness :
  EvalAll (Eval (host := demo) 2 1) [tok "1"; tok "2"] 0 rootState
  = (Ok (ENumber 2%Z), rootState).
Proof.
  apply (EvalAll_returns_last_value (host := demo) (Eval 2 1) 0 [tok "1"; tok "2"]
           [ENumber 1%Z; ENumber 2%Z] rootState rootState).
  apply (EvalsInOrder_cons (host := demo) _ _ _ _ _ (ENumber 1%Z) rootState);
    [reflexivity |].
  apply (EvalsInOrder_cons (host := demo) _ _ _ _ _ (ENumber 2%Z) rootState);
    [reflexivity |].
  apply (EvalsInOrder_nil (host := demo)).
Defined.

(** X14: [expToString] gives the text between the first double quote of
    the token and the next one, whatever stands before and after; a
    token with fewer than two double quotes, and a value that is not a Go
    string, make it panic on the index of the empty match list. *)
Theorem expToString_takes_the_first_quoted_text `{host : Host} (st : State Number) :
  (forall pre t post, noQuote pre = true -> noQuote t = true ->
     expToString (ETok (pre ++ String dquote (t ++ String dquote post))%string) st
     = (Ok (EString t), st))
  /\ (forall s, noQuote s = true -> expToString (ETok s) st = (Panic ErrIndex, st))
  /\ (forall pre t, noQuote pre = true -> noQuote t = true ->
        expToString (ETok (pre ++ String dquote t)%string) st = (Panic ErrIndex, st))
  /\ (forall v, (forall s, v <> ETok s) -> expToString v st = (Panic ErrIndex, st)).
Proof.
  split; [| split; [| split]].
  - intros pre t post Hpre Ht. unfold expToString.
    rewrite (firstQuoted_skips _ _ Hpre), (upToQuote_stops _ _ Ht). reflexivity.
  - intros s Hs. unfold expToString. rewrite (firstQuoted_none _ Hs). reflexivity.
  - intros pre t Hpre Ht. unfold expToString.
    rewrite (firstQuoted_skips _ _ Hpre), (upToQuote_none _ Ht). reflexivity.
  - intros v Hv. destruct v; try reflexivity. exfalso. apply (Hv s). reflexivity.
Qed.

(** The token made of a double quote, [hi], a double quote. *)
Lemma expToString_takes_the_first_quoted_text_witness :
  expToString (host := demo)
    (ETok (String dquote ("hi" ++ String dquote EmptyString))%string) rootState
  = (Ok (EString "hi"), rootState).
Proof.
  apply (proj1 (expToString_takes_the_first_quoted_text (host := demo) rootState)
           EmptyString "hi"%string EmptyString); reflexivity.
Defined.

(** X15: whatever [evalQuote] returns is accepted by [validEvalExp]: the
    value of a [quote] form is never refused by [eval] as a malformed
    list. *)
Theorem quoted_values_are_valid_for_eval `{host : Host} (x : Expression Number)
    (env : EnvRef) (st st' : State Number) (v : Expression Number) :
  evalQuote x env st = (Ok v, st') -> validEvalExp v = true.
Proof.
  revert st st' v.
  induction x as [ | | | s | n | b | s | s | es IH | car cdr _ _ | name
                 | params lbody cenv _ | e0 cenv _ ] using Expression_nested_ind;
    intros st st' v; try discriminate.
  - cbn [evalQuote IsNumber IsString]. unfold expressionToNumber, expToString.
    cbn [IsNumber]. destruct (IsNumberTok s); cbn [negb].
    + intros [= <- _]. reflexivity.
    + destruct (IsStringTok s).
      * destruct (firstQuoted s); [| discriminate]. intros [= <- _]. reflexivity.
      * intros [= <- _]. reflexivity.
  - intros [= <- _]. reflexivity.
  - rewrite evalQuote_compound. intros H.
    apply bind_ok_inv in H as (vs & st1 & Hvs & H). injection H as <- _.
    apply validEvalExp_listImpl.
    clear -IH Hvs. revert st st1 vs Hvs.
    induction IH as [| e es He _ IHes]; intros st st1 vs; cbn.
    + intros [= <- _]. constructor.
    + intros H. apply bind_ok_inv in H as (a & sta & Ha & H).
      apply bind_ok_inv in H as (rest & stb & Hrest & H). injection H as <- _.
      constructor; [apply (He _ _ _ Ha) | apply (IHes _ _ _ Hrest)].
Qed.

(** The quoted form [(+ (1 2))]. *)
Lemma quoted_values_are_valid_for_eval_witness :
  validEvalExp (host := demo)
    (EPair (EQuote "+")
       (EPair (EPair (ENumber 1%Z) (EPair (ENumber 2%Z) ENilObj)) ENilObj)) = true.
Proof.
  apply (quoted_values_are_valid_for_eval (host := demo)
           (form [tok "+"; form [tok "1"; tok "2"]]) 0 rootState rootState).
  reflexivity.
Defined.

(** X16: the path [loadFile] hands to the file system always has the
    extension [.scm]: it is the given path when that one has it, and the
    given path with [.scm] appended otherwise. *)
Theorem loadFile_opens_scm_paths `{host : Host} (rec : EvalFn) (p : string)
    (env : EnvRef) :
  exists q,
    Ext q = ".scm"%string
    /\ (q = p \/ q = (p ++ ".scm")%string)
    /\ (Ext p = ".scm"%string -> q = p)
    /\ loadFile rec p env
       = match ReadForms q with
         | None => print (OutLoadFailed q)
         | Some forms => Run rec forms env
         end.
Proof.
  unfold loadFile. destruct (String.eqb (Ext p) ".scm") eqn:E.
  - apply String.eqb_eq in E. exists p. repeat split; [exact E | left; reflexivity].
  - exists (p ++ ".scm")%string. repeat split.
    + apply Ext_scm_appended.
    + right. reflexivity.
    + intros H. rewrite H in E. discriminate.
Qed.

(** X17: what [load] does with the value of its operand.  A value that is
    neither a string, nor a Quote symbol, nor a Pair makes it panic; a
    Pair that is not a proper list is passed over in silence: nothing is
    loaded, no error is raised, and the form evaluates to the unspecified
    sentinel. *)
Theorem load_argument_kinds `{host : Host} (f k : nat) (e : Expression Number)
    (env : EnvRef) (st : State Number) (v : Expression Number) (st1 : State Number) :
  Eval f k e env st = (Ok v, st1) ->
  ((forall s, v <> EString s) -> (forall s, v <> EQuote s) ->
   (forall car cdr, v <> EPair car cdr) ->
   Eval (S f) (S k) (ECompound [ETok "load"; e]) env st
   = (Panic (ErrText "argument can only contains string, quote or list"), st1))
  /\ (forall car cdr, v = EPair car cdr -> isList v = false ->
        Eval (S f) (S k) (ECompound [ETok "load"; e]) env st = (Ok EUndef, st1)).
Proof.
  intros He.
  destruct (Eval_definite_pos _ _ _ _ _ _ _ He eq_refl) as (f' & k' & -> & ->).
  split.
  - intros Hs Hq Hp. rewrite Eval_load. cbn [evalLoad].
    rewrite (bind_ok _ _ _ _ _ He).
    destruct v; try reflexivity.
    + exfalso. apply (Hs s). reflexivity.
    + exfalso. apply (Hq s). reflexivity.
    + exfalso. apply (Hp v1 v2). reflexivity.
  - intros car cdr -> Hl. rewrite Eval_load. cbn [evalLoad].
    rewrite (bind_ok _ _ _ _ _ He). rewrite Hl. reflexivity.
Qed.

(** [(load 5)], and [(load (cons 1 2))], in the root environment. *)
Lemma load_argument_kinds_witness :
  Eval 3 2 (form [tok "load"; tok "5"]) 0 rootState
    = (Panic (ErrText "argument can only contains string, quote or list"), rootState)
  /\ Eval 4 3 (form [tok "load"; form [tok "cons"; tok "1"; tok "2"]]) 0 rootState
     = (Ok EUndef, rootState).
Proof.
  split.
  - apply (proj1 (load_argument_kinds (host := demo) 2 1 (tok "5") 0 rootState
                    (ENumber 5%Z) rootState eq_refl)); intros; discriminate.
  - apply (proj2 (load_argument_kinds (host := demo) 3 2 (form [tok "cons"; tok "1"; tok "2"])
                    0 rootState (EPair (ENumber 1%Z) (ENumber 2%Z)) rootState eq_refl)
             (ENumber 1%Z) (ENumber 2%Z)); reflexivity.
Defined.
